(** * The transform stack and triangle batcher of the box-swarm demos

    Shallow embedding of the renderer core shared by the 3D demo programs:
    the [Vector]/[Matrix] helpers, the [RenderState] stack ([push], [pop],
    [apply]), triangle submission ([addTriangle]) with its two culling
    tests, the bounding boxes ([AABB]) and the sort-and-draw step
    ([flush]).

    The main development follows the latest demo ("part 008-alt", the one
    with stroke colours, bounding boxes and the reverse-sort flag).  The
    functions of the earlier "part 007" demo that differ from it are in
    module [Part007].

    Numbers: the C++ [float] is IEEE-754 binary32.  It is modelled by the
    Standard Library's [spec_float] with precision 24 and maximal exponent
    128, so infinities, signed zeros and NaN behave as on the machine and
    every definition below evaluates. *)

From Stdlib Require Import Ascii String.
From Stdlib Require Import ZArith List Bool Lia Permutation Sorted.
From Stdlib Require Import Floats.SpecFloat.
Import ListNotations.
Local Open Scope Z_scope.

(** ** binary32 arithmetic *)

Definition float := spec_float.

Definition prec32 : Z := 24.
Definition emax32 : Z := 128.

Definition fadd : float -> float -> float := SFadd prec32 emax32.
Definition fmul : float -> float -> float := SFmul prec32 emax32.
Definition fdiv : float -> float -> float := SFdiv prec32 emax32.
Definition fneg : float -> float := SFopp.

(** [a < b], [a <= b], [a == b] and [a != b] on floats; every comparison
    with a NaN operand is false, except [!=] which is true. *)
Definition flt : float -> float -> bool := SFltb.
Definition fle : float -> float -> bool := SFleb.
Definition feq : float -> float -> bool := SFeqb.
Definition fne (a b : float) : bool := negb (feq a b).

(** Conversion of an integer constant to [float]. *)
Definition of_Z (z : Z) : float := binary_normalize prec32 emax32 z 0 false.

Definition f0 : float := of_Z 0.
Definition f1 : float := of_Z 1.
Definition INFINITY : float := S754_infinity false.
Definition NAN : float := S754_nan.

Definition is_nan (a : float) : bool :=
  match a with S754_nan => true | _ => false end.

(** [std::min(a, b)] is [(b < a) ? b : a] and [std::max(a, b)] is
    [(a < b) ? b : a]. *)
Definition std_min (a b : float) : float := if flt b a then b else a.
Definition std_max (a b : float) : float := if flt a b then b else a.

Definition WIDTH : Z := 800.
Definition HEIGHT : Z := 600.

(** ** Vector and Matrix *)

Record Vector : Type := mkVector { vx : float; vy : float; vz : float; vw : float }.

Definition dot (lhs rhs : Vector) : float :=
  fadd (fadd (fadd (fmul (vx lhs) (vx rhs)) (fmul (vy lhs) (vy rhs)))
             (fmul (vz lhs) (vz rhs)))
       (fmul (vw lhs) (vw rhs)).

Definition minPairwise (lhs rhs : Vector) : Vector :=
  mkVector (std_min (vx lhs) (vx rhs)) (std_min (vy lhs) (vy rhs))
           (std_min (vz lhs) (vz rhs)) (std_min (vw lhs) (vw rhs)).

Definition maxPairwise (lhs rhs : Vector) : Vector :=
  mkVector (std_max (vx lhs) (vx rhs)) (std_max (vy lhs) (vy rhs))
           (std_max (vz lhs) (vz rhs)) (std_max (vw lhs) (vw rhs)).

(** A matrix is four row vectors, named x, y, z, w as in the source. *)
Record Matrix : Type := mkMatrix { mx : Vector; my : Vector; mz : Vector; mw : Vector }.

Definition xColumn (m : Matrix) : Vector :=
  mkVector (vx (mx m)) (vx (my m)) (vx (mz m)) (vx (mw m)).
Definition yColumn (m : Matrix) : Vector :=
  mkVector (vy (mx m)) (vy (my m)) (vy (mz m)) (vy (mw m)).
Definition zColumn (m : Matrix) : Vector :=
  mkVector (vz (mx m)) (vz (my m)) (vz (mz m)) (vz (mw m)).
Definition wColumn (m : Matrix) : Vector :=
  mkVector (vw (mx m)) (vw (my m)) (vw (mz m)) (vw (mw m)).

(** [Matrix * Vector] *)
Definition mulMV (lhs : Matrix) (rhs : Vector) : Vector :=
  mkVector (dot (mx lhs) rhs) (dot (my lhs) rhs) (dot (mz lhs) rhs) (dot (mw lhs) rhs).

(** [Matrix * Matrix] *)
Definition mulMM (lhs rhs : Matrix) : Matrix :=
  let row r := mkVector (dot r (xColumn rhs)) (dot r (yColumn rhs))
                        (dot r (zColumn rhs)) (dot r (wColumn rhs)) in
  mkMatrix (row (mx lhs)) (row (my lhs)) (row (mz lhs)) (row (mw lhs)).

Definition IDENTITY : Matrix :=
  mkMatrix (mkVector f1 f0 f0 f0) (mkVector f0 f1 f0 f0)
           (mkVector f0 f0 f1 f0) (mkVector f0 f0 f0 f1).

Definition translation (x y z : float) : Matrix :=
  mkMatrix (mkVector f1 f0 f0 x) (mkVector f0 f1 f0 y)
           (mkVector f0 f0 f1 z) (mkVector f0 f0 f0 f1).

Definition scaling (x y z : float) : Matrix :=
  mkMatrix (mkVector x f0 f0 f0) (mkVector f0 y f0 f0)
           (mkVector f0 f0 z f0) (mkVector f0 f0 f0 f1).

(** ** Colours and the render state *)

(** [SDL_Color]: four bytes. *)
Record Color : Type := mkColor { cr : Z; cg : Z; cb : Z; ca : Z }.

Definition BLACK : Color := mkColor 0 0 0 255.
Definition WHITE : Color := mkColor 255 241 232 255.
Definition PEACH : Color := mkColor 255 157 129 255.

Record RenderState : Type := mkRenderState {
  transform : Matrix;
  fillColor : Color;
  strokeColor : Color
}.

(** ** Vertices, triangles and bounding boxes *)

Record Vertex : Type := mkVertex {
  vtx_x : float; vtx_y : float; vtx_z : float;   (* screen coordinates *)
  vtx_color : Color;                             (* modulating colour *)
  vtx_u : float; vtx_v : float                   (* normalized texture coordinates *)
}.

(** [Vertex vertices[3]] *)
Record Triangle : Type := mkTriangle { vertex0 : Vertex; vertex1 : Vertex; vertex2 : Vertex }.

Definition vertices (t : Triangle) : list Vertex :=
  [vertex0 t; vertex1 t; vertex2 t].

Record AABB : Type := mkAABB { aabb_min : Vector; aabb_max : Vector }.

(** The box that contains no point. *)
Definition AABB_BOTTOM : AABB :=
  mkAABB (mkVector INFINITY INFINITY INFINITY INFINITY)
         (mkVector (fneg INFINITY) (fneg INFINITY) (fneg INFINITY) (fneg INFINITY)).

(** The box that contains every point. *)
Definition AABB_TOP : AABB :=
  mkAABB (mkVector (fneg INFINITY) (fneg INFINITY) (fneg INFINITY) (fneg INFINITY))
         (mkVector INFINITY INFINITY INFINITY INFINITY).

(** [lhs | rhs] *)
Definition aabb_or (lhs rhs : AABB) : AABB :=
  mkAABB (minPairwise (aabb_min lhs) (aabb_min rhs)) (maxPairwise (aabb_max lhs) (aabb_max rhs)).

(** [lhs & rhs] *)
Definition aabb_and (lhs rhs : AABB) : AABB :=
  mkAABB (maxPairwise (aabb_min lhs) (aabb_min rhs)) (minPairwise (aabb_max lhs) (aabb_max rhs)).

(** ** The process state

    The globals of the program: the current [state], the [stack] of saved
    states, the pending batch [triangles] and the flag
    [reverseSortTriangles].  The two [std::vector]s are lists whose last
    element is the vector's back.  [drawn] is the log of the calls made to
    the backend so far, oldest first. *)

(** One call of [SDL_RenderGeometryRaw]: the triangles the vertex pointers
    address and the vertex count passed. *)
Record DrawCall : Type := mkDrawCall {
  dc_buffer : list Triangle;
  dc_num_vertices : Z
}.

Record World : Type := mkWorld {
  state : RenderState;
  stack : list RenderState;
  triangles : list Triangle;
  reverseSortTriangles : bool;
  drawn : list DrawCall
}.

Definition initial_state : RenderState := mkRenderState IDENTITY WHITE BLACK.
Definition initial_world : World := mkWorld initial_state [] [] false [].

Definition set_state (s : RenderState) (w : World) : World :=
  mkWorld s (stack w) (triangles w) (reverseSortTriangles w) (drawn w).
Definition set_stack (k : list RenderState) (w : World) : World :=
  mkWorld (state w) k (triangles w) (reverseSortTriangles w) (drawn w).
Definition set_triangles (ts : list Triangle) (w : World) : World :=
  mkWorld (state w) (stack w) ts (reverseSortTriangles w) (drawn w).
Definition log_draw (d : DrawCall) (w : World) : World :=
  mkWorld (state w) (stack w) (triangles w) (reverseSortTriangles w) (drawn w ++ [d])%list.

(** A call either returns a value in a new world, or ends the process
    ([std::exit(1)] after a message on [std::cerr]). *)
Inductive Outcome (A : Type) : Type :=
| Returns (a : A) (w : World)
| Exits (message : string) (w : World).
Arguments Returns {A} a w.
Arguments Exits {A} message w.

Definition M (A : Type) : Type := World -> Outcome A.

Definition ret {A} (a : A) : M A := fun w => Returns a w.
Definition bind {A B} (c : M A) (k : A -> M B) : M B :=
  fun w => match c w with
           | Returns a w' => k a w'
           | Exits msg w' => Exits msg w'
           end.
Definition gets {A} (f : World -> A) : M A := fun w => Returns (f w) w.
Definition modify (f : World -> World) : M unit := fun w => Returns tt (f w).

Notation "x <- c ;; k" := (bind c (fun x => k))
  (at level 61, c at next level, right associativity).
Notation "c ;;; k" := (bind c (fun _ => k))
  (at level 61, right associativity).

Definition panic {A} (message : string) : M A :=
  fun w => Exits ("PANIC: " ++ message)%string w.
(** [SDL_GetError] is the text [SDL_GetError()] returns when the message
    is written. *)
Definition sdlError {A} (SDL_GetError : string) (tag : string) : M A :=
  fun w => Exits ("ERROR " ++ tag ++ ": " ++ SDL_GetError)%string w.

Definition assertThat (condition : bool) : M unit :=
  if condition then ret tt else panic "ASSERTION FAILED"%string.

(** ** The transform stack *)

Definition push : M unit :=
  modify (fun w => set_stack (stack w ++ [state w])%list w).

(** [assertThat(stack.size())]: the size converts to [true] when it is not
    zero. *)
Definition pop : M unit :=
  n <- gets (fun w => length (stack w)) ;;
  assertThat (negb (Nat.eqb n 0)) ;;;
  modify (fun w => set_stack (removelast (stack w))
                     (set_state (last (stack w) (state w)) w)).

Definition apply (matrix : Matrix) : M unit :=
  modify (fun w =>
    set_state (mkRenderState (mulMM (transform (state w)) matrix)
                             (fillColor (state w)) (strokeColor (state w))) w).

(** ** Triangle submission *)

Definition fgt (a b : float) : bool := flt b a.

Definition perspectiveDivide (v : Vector) : Vector :=
  mkVector (fdiv (vx v) (vw v)) (fdiv (vy v) (vw v)) (fdiv (vz v) (vw v)) f1.

Definition push_back_triangle (t : Triangle) (w : World) : World :=
  set_triangles (triangles w ++ [t])%list w.

Definition addTriangle (color : Color) (ia ib ic : Vector)
    (u1 v1 u2 v2 u3 v3 : float) : M AABB :=
  st <- gets state ;;
  let a := mulMV (transform st) ia in
  let b := mulMV (transform st) ib in
  let c := mulMV (transform st) ic in
  if fle (vw a) f0 || fle (vw b) f0 || fle (vw c) f0 then
    ret AABB_BOTTOM  (* a vertex is behind the camera: skip the triangle *)
  else
  let a := perspectiveDivide a in
  let b := perspectiveDivide b in
  let c := perspectiveDivide c in
  if flt (vx a) f0 && flt (vx b) f0 && flt (vx c) f0 then
    ret AABB_BOTTOM  (* entirely on the other side of X = 0 *)
  else if fgt (vx a) (of_Z WIDTH) && fgt (vx b) (of_Z WIDTH) && fgt (vx c) (of_Z WIDTH) then
    ret AABB_BOTTOM  (* entirely on the other side of X = WIDTH *)
  else if flt (vy a) f0 && flt (vy b) f0 && flt (vy c) f0 then
    ret AABB_BOTTOM  (* entirely on the other side of Y = 0 *)
  else if fgt (vy a) (of_Z HEIGHT) && fgt (vy b) (of_Z HEIGHT) && fgt (vy c) (of_Z HEIGHT) then
    ret AABB_BOTTOM  (* entirely on the other side of Y = HEIGHT *)
  else
  modify (push_back_triangle (mkTriangle
    (mkVertex (vx a) (vy a) (vz a) color u1 v1)
    (mkVertex (vx b) (vy b) (vz b) color u2 v2)
    (mkVertex (vx c) (vy c) (vz c) color u3 v3))) ;;;
  ret (mkAABB (minPairwise a (minPairwise b c)) (maxPairwise a (maxPairwise b c))).

(** The same function with every division guarded: [None] stands for a
    division whose divisor compares equal to zero ([+0] or [-0]). *)
Definition fdiv_checked (a b : float) : option float :=
  if feq b f0 then None else Some (fdiv a b).

Definition perspectiveDivide_checked (v : Vector) : option Vector :=
  match fdiv_checked (vx v) (vw v), fdiv_checked (vy v) (vw v),
        fdiv_checked (vz v) (vw v) with
  | Some x', Some y', Some z' => Some (mkVector x' y' z' f1)
  | _, _, _ => None
  end.

Definition addTriangle_checked (color : Color) (ia ib ic : Vector)
    (u1 v1 u2 v2 u3 v3 : float) (w : World) : option (Outcome AABB) :=
  let st := state w in
  let a := mulMV (transform st) ia in
  let b := mulMV (transform st) ib in
  let c := mulMV (transform st) ic in
  if fle (vw a) f0 || fle (vw b) f0 || fle (vw c) f0 then
    Some (Returns AABB_BOTTOM w)
  else
  match perspectiveDivide_checked a, perspectiveDivide_checked b,
        perspectiveDivide_checked c with
  | Some a, Some b, Some c =>
    if flt (vx a) f0 && flt (vx b) f0 && flt (vx c) f0 then
      Some (Returns AABB_BOTTOM w)
    else if fgt (vx a) (of_Z WIDTH) && fgt (vx b) (of_Z WIDTH) && fgt (vx c) (of_Z WIDTH) then
      Some (Returns AABB_BOTTOM w)
    else if flt (vy a) f0 && flt (vy b) f0 && flt (vy c) f0 then
      Some (Returns AABB_BOTTOM w)
    else if fgt (vy a) (of_Z HEIGHT) && fgt (vy b) (of_Z HEIGHT) && fgt (vy c) (of_Z HEIGHT) then
      Some (Returns AABB_BOTTOM w)
    else
      Some (Returns
        (mkAABB (minPairwise a (minPairwise b c)) (maxPairwise a (maxPairwise b c)))
        (push_back_triangle (mkTriangle
          (mkVertex (vx a) (vy a) (vz a) color u1 v1)
          (mkVertex (vx b) (vy b) (vz b) color u2 v2)
          (mkVertex (vx c) (vy c) (vz c) color u3 v3)) w))
  | _, _, _ => None
  end.

(** ** Sorting

    [std::sort] belongs to the C++ library.  It is modelled as libstdc++
    (GCC) implements it in [bits/stl_algo.h] and [bits/stl_heap.h],
    routine by routine and under the library's names: an introsort loop
    (median-of-three partitioning, with a heap sort once the depth limit
    is used up) on ranges of more than 16 elements, followed by an
    insertion sort.  The vector is a list and an iterator is a position in
    it, counted from [begin].  Some loops of the library are unguarded:
    they rely on the comparator being a strict weak ordering to stay
    inside the range.  A loop that would read outside the vector, which
    C++ leaves undefined, ends there in the model. *)

Section StdSort.
Local Open Scope nat_scope.
Context {A : Type}.
Variable __comp : A -> A -> bool.

(** [*(begin + i) = x]; a position outside the vector is not written. *)
Fixpoint store (i : nat) (x : A) (v : list A) : list A :=
  match v, i with
  | [], _ => []
  | _ :: v', O => x :: v'
  | y :: v', S i' => y :: store i' x v'
  end.

(** [std::iter_swap(begin + i, begin + j)] *)
Definition iter_swap (i j : nat) (v : list A) : list A :=
  match nth_error v i, nth_error v j with
  | Some x, Some y => store i y (store j x v)
  | _, _ => v
  end.

(** [bits/stl_algo.h] *)
Definition __move_median_to_first (result a b c : nat) (v : list A) : list A :=
  match nth_error v a, nth_error v b, nth_error v c with
  | Some xa, Some xb, Some xc =>
    if __comp xa xb then
      if __comp xb xc then iter_swap result b v
      else if __comp xa xc then iter_swap result c v
      else iter_swap result a v
    else if __comp xa xc then iter_swap result a v
    else if __comp xb xc then iter_swap result c v
    else iter_swap result b v
  | _, _, _ => v
  end.

(** The [while] of [__unguarded_linear_insert], with [val] held aside:
    [next] is [last - 1]. *)
Fixpoint unguarded_linear_insert_loop (val : A) (last : nat) (v : list A) : list A :=
  match last with
  | S next =>
    match nth_error v next with
    | Some x =>
      if __comp val x then unguarded_linear_insert_loop val next (store last x v)
      else store last val v
    | None => store last val v
    end
  | O => store last val v
  end.

Definition __unguarded_linear_insert (last : nat) (v : list A) : list A :=
  match nth_error v last with
  | Some val => unguarded_linear_insert_loop val last v
  | None => v
  end.

(** The body of the [for] of [__insertion_sort]: an element less than
    the first is moved to the front, [std::move_backward(first, i, i + 1)]
    shifting the elements before it one place to the right. *)
Definition insertion_sort_step (first i : nat) (v : list A) : list A :=
  match nth_error v i, nth_error v first with
  | Some val, Some f =>
    if __comp val f then
      firstn first v ++ val :: firstn (i - first) (skipn first v) ++ skipn (S i) v
    else __unguarded_linear_insert i v
  | _, _ => v
  end.

Definition __insertion_sort (first last : nat) (v : list A) : list A :=
  if first =? last then v else
  fold_left (fun v i => insertion_sort_step first i v)
            (seq (first + 1) (last - (first + 1))) v.

Definition __unguarded_insertion_sort (first last : nat) (v : list A) : list A :=
  fold_left (fun v i => __unguarded_linear_insert i v) (seq first (last - first)) v.

Definition _S_threshold : nat := 16.

Definition __final_insertion_sort (first last : nat) (v : list A) : list A :=
  if _S_threshold <? last - first then
    __unguarded_insertion_sort (first + _S_threshold) last
      (__insertion_sort first (first + _S_threshold) v)
  else __insertion_sort first last v.

(** The two inner loops of [__unguarded_partition]:
    [while (__comp(first, pivot)) ++first;] and
    [while (__comp(pivot, last)) --last;]. *)
Fixpoint scan_up (fuel : nat) (pivot first : nat) (v : list A) : nat :=
  match fuel with
  | O => first
  | S fuel' =>
    match nth_error v first, nth_error v pivot with
    | Some x, Some p => if __comp x p then scan_up fuel' pivot (S first) v else first
    | _, _ => first
    end
  end.

Fixpoint scan_down (pivot last : nat) (v : list A) {struct last} : nat :=
  match nth_error v pivot, nth_error v last with
  | Some p, Some x =>
    if __comp p x then
      match last with
      | S last' => scan_down pivot last' v
      | O => O
      end
    else last
  | _, _ => last
  end.

(** The [while (true)] of [__unguarded_partition]; [first] grows on
    every turn. *)
Fixpoint unguarded_partition_loop (fuel : nat) (first last pivot : nat) (v : list A)
  : nat * list A :=
  match fuel with
  | O => (first, v)
  | S fuel' =>
    let first := scan_up (length v) pivot first v in
    let last := scan_down pivot (last - 1) v in
    if first <? last
    then unguarded_partition_loop fuel' (S first) last pivot (iter_swap first last v)
    else (first, v)
  end.

Definition __unguarded_partition (first last pivot : nat) (v : list A) : nat * list A :=
  unguarded_partition_loop (S (length v)) first last pivot v.

Definition __unguarded_partition_pivot (first last : nat) (v : list A) : nat * list A :=
  let mid := first + (last - first) / 2 in
  let v := __move_median_to_first first (first + 1) mid (last - 1) v in
  __unguarded_partition (first + 1) last first v.

(** [bits/stl_heap.h].  Heap positions are distances from [first]
    ([_Distance], a signed integer, with the division of C++ that rounds
    towards zero); [first + i] is the element they address. *)
Definition heap_at (first : nat) (i : Z) (v : list A) : option A :=
  if (i <? 0)%Z then None else nth_error v (first + Z.to_nat i).

Definition heap_store (first : nat) (i : Z) (x : A) (v : list A) : list A :=
  if (i <? 0)%Z then v else store (first + Z.to_nat i) x v.

Fixpoint push_heap_loop (fuel : nat) (first : nat) (holeIndex topIndex : Z) (value : A)
    (v : list A) : list A :=
  match fuel with
  | S fuel' =>
    let parent := ((holeIndex - 1) ÷ 2)%Z in
    if (topIndex <? holeIndex)%Z then
      match heap_at first parent v with
      | Some p =>
        if __comp p value
        then push_heap_loop fuel' first parent topIndex value (heap_store first holeIndex p v)
        else heap_store first holeIndex value v
      | None => heap_store first holeIndex value v
      end
    else heap_store first holeIndex value v
  | O => heap_store first holeIndex value v
  end.

Definition __push_heap (first : nat) (holeIndex topIndex : Z) (value : A) (v : list A)
  : list A :=
  push_heap_loop (Z.to_nat holeIndex) first holeIndex topIndex value v.

Fixpoint adjust_heap_loop (fuel : nat) (first : nat) (len secondChild : Z) (v : list A)
  : Z * list A :=
  match fuel with
  | S fuel' =>
    if (secondChild <? (len - 1) ÷ 2)%Z then
      let holeIndex := secondChild in
      let secondChild := (2 * (secondChild + 1))%Z in
      match heap_at first secondChild v, heap_at first (secondChild - 1) v with
      | Some r, Some l =>
        if __comp r l
        then adjust_heap_loop fuel' first len (secondChild - 1)%Z (heap_store first holeIndex l v)
        else adjust_heap_loop fuel' first len secondChild (heap_store first holeIndex r v)
      | _, _ => (holeIndex, v)
      end
    else (secondChild, v)
  | O => (secondChild, v)
  end.

Definition __adjust_heap (first : nat) (holeIndex len : Z) (value : A) (v : list A)
  : list A :=
  let topIndex := holeIndex in
  let '(secondChild, v) := adjust_heap_loop (Z.to_nat len) first len holeIndex v in
  let holeIndex := secondChild in
  if Z.even len && (secondChild =? (len - 2) ÷ 2)%Z then
    let secondChild := (2 * (secondChild + 1))%Z in
    match heap_at first (secondChild - 1) v with
    | Some c =>
      __push_heap first (secondChild - 1) topIndex value (heap_store first holeIndex c v)
    | None => __push_heap first holeIndex topIndex value v
    end
  else __push_heap first holeIndex topIndex value v.

(** [last - first], a signed distance. *)
Definition distance (first last : nat) : Z := Z.of_nat last - Z.of_nat first.

Definition __pop_heap (first last result : nat) (v : list A) : list A :=
  match nth_error v result, nth_error v first with
  | Some value, Some f => __adjust_heap first 0 (distance first last) value (store result f v)
  | _, _ => v
  end.

Fixpoint make_heap_loop (fuel : nat) (first : nat) (len parent : Z) (v : list A)
  : list A :=
  match fuel with
  | S fuel' =>
    match heap_at first parent v with
    | Some value =>
      let v := __adjust_heap first parent len value v in
      if (parent =? 0)%Z then v else make_heap_loop fuel' first len (parent - 1) v
    | None => v
    end
  | O => v
  end.

Definition __make_heap (first last : nat) (v : list A) : list A :=
  if (distance first last <? 2)%Z then v
  else
    let len := distance first last in
    let parent := ((len - 2) ÷ 2)%Z in
    make_heap_loop (S (Z.to_nat parent)) first len parent v.

Fixpoint sort_heap_loop (fuel : nat) (first last : nat) (v : list A) : list A :=
  match fuel with
  | S fuel' =>
    if (1 <? distance first last)%Z
    then let last := last - 1 in sort_heap_loop fuel' first last (__pop_heap first last last v)
    else v
  | O => v
  end.

Definition __sort_heap (first last : nat) (v : list A) : list A :=
  sort_heap_loop (last - first) first last v.

Definition __heap_select (first middle last : nat) (v : list A) : list A :=
  fold_left
    (fun v i =>
       match nth_error v i, nth_error v first with
       | Some x, Some f => if __comp x f then __pop_heap first middle i v else v
       | _, _ => v
       end)
    (seq middle (last - middle)) (__make_heap first middle v).

Definition __partial_sort (first middle last : nat) (v : list A) : list A :=
  __sort_heap first middle (__heap_select first middle last v).

(** [bits/stl_algo.h].  The [while] of [__introsort_loop] continues on
    [first, cut) with the depth limit already decreased. *)
Fixpoint __introsort_loop (first last : nat) (depth_limit : nat) (v : list A)
    {struct depth_limit} : list A :=
  if _S_threshold <? last - first then
    match depth_limit with
    | O => __partial_sort first last last v
    | S depth_limit =>
      let '(cut, v) := __unguarded_partition_pivot first last v in
      let v := __introsort_loop cut last depth_limit v in
      __introsort_loop first cut depth_limit v
    end
  else v.

(** The position of the highest bit set. *)
Definition __lg (n : nat) : nat := Nat.log2 n.

Definition __sort (first last : nat) (v : list A) : list A :=
  if first =? last then v
  else __final_insertion_sort first last
         (__introsort_loop first last (__lg (last - first) * 2) v).

(** [std::sort(begin, end, __comp)] on the whole vector. *)
Definition std_sort (l : list A) : list A := __sort 0 (length l) l.
End StdSort.

(** The comparator of the per-triangle vertex sort. *)
Definition vertexLess (lhs rhs : Vertex) : bool :=
  flt (vtx_z lhs) (vtx_z rhs) ||
  (feq (vtx_z lhs) (vtx_z rhs) &&
   (flt (vtx_y lhs) (vtx_y rhs) ||
    (feq (vtx_y lhs) (vtx_y rhs) && flt (vtx_x lhs) (vtx_x rhs)))).

Definition sortVertices (t : Triangle) : Triangle :=
  match std_sort vertexLess (vertices t) with
  | [a; b; c] => mkTriangle a b c
  | _ => t
  end.

(** One of the three loops of the triangle comparator: the verdict at the
    first index where the coordinates differ, if any. *)
Fixpoint firstDifference (coord : Vertex -> float) (lhs rhs : list Vertex)
  : option bool :=
  match lhs, rhs with
  | l :: lhs', r :: rhs' =>
    if fne (coord l) (coord r) then Some (flt (coord l) (coord r))
    else firstDifference coord lhs' rhs'
  | _, _ => None
  end.

Definition triangleLess (lhs rhs : Triangle) : bool :=
  match firstDifference vtx_z (vertices lhs) (vertices rhs) with
  | Some b => b
  | None =>
    match firstDifference vtx_y (vertices lhs) (vertices rhs) with
    | Some b => b
    | None =>
      match firstDifference vtx_x (vertices lhs) (vertices rhs) with
      | Some b => b
      | None => false
      end
    end
  end.

(** ** flush *)

(** [size_t] to [int], as in the vertex-count argument. *)
Definition int_of_size_t (n : Z) : Z :=
  let m := (n mod 2 ^ 64) mod 2 ^ 32 in
  if m <? 2 ^ 31 then m else m - 2 ^ 32.

Section Backend.
(** The status the backend returns for a draw call, and the text of
    [SDL_GetError()] after a failed call. *)
Variable SDL_RenderGeometryRaw : DrawCall -> Z.
Variable SDL_GetError : string.

Definition flush : M nat :=
  n <- gets (fun w => length (triangles w)) ;;
  if Nat.eqb n 0 then ret 0%nat else
  modify (fun w => set_triangles (map sortVertices (triangles w)) w) ;;;
  modify (fun w => set_triangles (std_sort triangleLess (triangles w)) w) ;;;
  reversed <- gets reverseSortTriangles ;;
  (if reversed then modify (fun w => set_triangles (rev (triangles w)) w)
   else ret tt) ;;;
  ts <- gets triangles ;;
  let call := mkDrawCall ts (int_of_size_t (3 * Z.of_nat (length ts))) in
  modify (log_draw call) ;;;
  (if negb (SDL_RenderGeometryRaw call =? 0)
   then sdlError SDL_GetError "SDL_RenderGeometryRaw"%string else ret tt) ;;;
  triangleCount <- gets (fun w => length (triangles w)) ;;
  modify (set_triangles []) ;;;
  ret triangleCount.
End Backend.

(** ** The earlier demo ("part 007")

    Its [RenderState] has no stroke colour (the field is unused here), its
    [addTriangle] takes the colour from the state and returns nothing, and
    its [flush] has neither the test for an empty batch nor the reverse
    flag.  On an empty batch [triangles.front()] has no element to refer
    to; the call is still made, with a vertex count of zero. *)
Module Part007.

Definition addTriangle (ia ib ic : Vector) (u1 v1 u2 v2 u3 v3 : float) : M unit :=
  st <- gets state ;;
  let a := mulMV (transform st) ia in
  let b := mulMV (transform st) ib in
  let c := mulMV (transform st) ic in
  if fle (vw a) f0 || fle (vw b) f0 || fle (vw c) f0 then
    ret tt  (* a vertex is behind the camera: skip the triangle *)
  else
  let a := perspectiveDivide a in
  let b := perspectiveDivide b in
  let c := perspectiveDivide c in
  if flt (vx a) f0 && flt (vx b) f0 && flt (vx c) f0 then
    ret tt
  else if fgt (vx a) (of_Z WIDTH) && fgt (vx b) (of_Z WIDTH) && fgt (vx c) (of_Z WIDTH) then
    ret tt
  else if flt (vy a) f0 && flt (vy b) f0 && flt (vy c) f0 then
    ret tt
  else if fgt (vy a) (of_Z HEIGHT) && fgt (vy b) (of_Z HEIGHT) && fgt (vy c) (of_Z HEIGHT) then
    ret tt
  else
  modify (push_back_triangle (mkTriangle
    (mkVertex (vx a) (vy a) (vz a) (fillColor st) u1 v1)
    (mkVertex (vx b) (vy b) (vz b) (fillColor st) u2 v2)
    (mkVertex (vx c) (vy c) (vz c) (fillColor st) u3 v3))).

Section Backend.
Variable SDL_RenderGeometryRaw : DrawCall -> Z.
Variable SDL_GetError : string.

Definition flush : M nat :=
  modify (fun w => set_triangles (map sortVertices (triangles w)) w) ;;;
  modify (fun w => set_triangles (std_sort triangleLess (triangles w)) w) ;;;
  ts <- gets triangles ;;
  let call := mkDrawCall ts (int_of_size_t (3 * Z.of_nat (length ts))) in
  modify (log_draw call) ;;;
  (if negb (SDL_RenderGeometryRaw call =? 0)
   then sdlError SDL_GetError "SDL_RenderGeometryRaw"%string else ret tt) ;;;
  triangleCount <- gets (fun w => length (triangles w)) ;;
  modify (set_triangles []) ;;;
  ret triangleCount.
End Backend.

End Part007.

(** * The rest of the renderer

    The functions of the two demos around the ones above: the shape
    builders, the remaining vector helpers, the hover test of the main
    loop, the text cursor and the random helpers. *)

(** ** More float operations *)

Definition fsub : float -> float -> float := SFsub prec32 emax32.
Definition fsqrt : float -> float := SFsqrt prec32 emax32.
Definition fge (a b : float) : bool := fle b a.

(** 0.5 and 0.51 as floats (0.51 is rounded to the nearest float). *)
Definition f0_5 : float := S754_finite false 8388608 (-24).
Definition f0_51 : float := S754_finite false 8556380 (-24).

(** ** Vector helpers *)

(** [-v] *)
Definition vneg (p : Vector) : Vector :=
  mkVector (fneg (vx p)) (fneg (vy p)) (fneg (vz p)) (fneg (vw p)).

(** [lhs * rhs] with a scalar on the right *)
Definition vscale (lhs : Vector) (rhs : float) : Vector :=
  mkVector (fmul (vx lhs) rhs) (fmul (vy lhs) rhs) (fmul (vz lhs) rhs) (fmul (vw lhs) rhs).

(** [lhs / rhs] with a scalar on the right *)
Definition vdiv (lhs : Vector) (rhs : float) : Vector :=
  mkVector (fdiv (vx lhs) rhs) (fdiv (vy lhs) rhs) (fdiv (vz lhs) rhs) (fdiv (vw lhs) rhs).

(** [lhs + rhs] *)
Definition vadd (lhs rhs : Vector) : Vector :=
  mkVector (fadd (vx lhs) (vx rhs)) (fadd (vy lhs) (vy rhs))
           (fadd (vz lhs) (vz rhs)) (fadd (vw lhs) (vw rhs)).

(** [lhs - rhs] *)
Definition vsub (lhs rhs : Vector) : Vector :=
  mkVector (fsub (vx lhs) (vx rhs)) (fsub (vy lhs) (vy rhs))
           (fsub (vz lhs) (vz rhs)) (fsub (vw lhs) (vw rhs)).

Definition lengthOf (p : Vector) : float :=
  fsqrt (fadd (fadd (fadd (fmul (vx p) (vx p)) (fmul (vy p) (vy p)))
                    (fmul (vz p) (vz p)))
              (fmul (vw p) (vw p))).

Definition normalize (p : Vector) (newLength : float) : Vector :=
  vscale p (fdiv newLength (lengthOf p)).

Definition viewport (width height : float) : Matrix :=
  let two := of_Z 2 in
  mkMatrix (mkVector (fdiv width two) f0 f0 (fdiv width two))
           (mkVector f0 (fdiv (fneg height) two) f0 (fdiv height two))
           (mkVector f0 f0 (of_Z (-1)) f0)
           (mkVector f0 f0 f0 f1).

(** ** Shape builders

    The operands of [|] are calls with effects, and C++ does not fix which
    operand is evaluated first.  [orAABB] takes the choice as an argument;
    every [|] of a builder has its own, so that each way of evaluating a
    call is covered. *)

Definition orAABB (leftFirst : bool) (lhs rhs : M AABB) : M AABB :=
  if leftFirst
  then l <- lhs ;; r <- rhs ;; ret (aabb_or l r)
  else r <- rhs ;; l <- lhs ;; ret (aabb_or l r).

Definition addFillRectangle (leftFirst : bool) (a b c d : Vector) : M AABB :=
  orAABB leftFirst
    (fill <- gets (fun w => fillColor (state w)) ;;
     addTriangle fill a b c f0 f0 f0_5 f0 f0_5 f0_5)
    (fill <- gets (fun w => fillColor (state w)) ;;
     addTriangle fill d a c f0 f0_5 f0 f0 f0_5 f0_5).

Definition addStrokeRectangle (leftFirst : bool) (a b c d : Vector) : M AABB :=
  orAABB leftFirst
    (stroke <- gets (fun w => strokeColor (state w)) ;;
     addTriangle stroke a b c f0_5 f0_5 f1 f0_5 f1 f1)
    (stroke <- gets (fun w => strokeColor (state w)) ;;
     addTriangle stroke d a c f0_5 f1 f0_5 f0_5 f1 f1).

(** The choices of one box: the five [|] of the chain, from the left, and
    the one inside each of the six rectangles. *)
Record BoxOrder : Type := mkBoxOrder {
  or1 : bool; or2 : bool; or3 : bool; or4 : bool; or5 : bool;
  rect1 : bool; rect2 : bool; rect3 : bool; rect4 : bool; rect5 : bool; rect6 : bool
}.

Definition addFillBox (o : BoxOrder) (p1 p2 p3 p4 p5 p6 p7 p8 : Vector) : M AABB :=
  orAABB (or5 o)
    (orAABB (or4 o)
      (orAABB (or3 o)
        (orAABB (or2 o)
          (orAABB (or1 o)
            (addFillRectangle (rect1 o) p1 p2 p3 p4)
            (addFillRectangle (rect2 o) p2 p6 p7 p3))
          (addFillRectangle (rect3 o) p6 p5 p8 p7))
        (addFillRectangle (rect4 o) p5 p1 p4 p8))
      (addFillRectangle (rect5 o) p5 p6 p2 p1))
    (addFillRectangle (rect6 o) p4 p3 p7 p8).

Definition addStrokeBox (o : BoxOrder) (p1 p2 p3 p4 p5 p6 p7 p8 : Vector) : M AABB :=
  orAABB (or5 o)
    (orAABB (or4 o)
      (orAABB (or3 o)
        (orAABB (or2 o)
          (orAABB (or1 o)
            (addStrokeRectangle (rect1 o) p1 p2 p3 p4)
            (addStrokeRectangle (rect2 o) p2 p6 p7 p3))
          (addStrokeRectangle (rect3 o) p6 p5 p8 p7))
        (addStrokeRectangle (rect4 o) p5 p1 p4 p8))
      (addStrokeRectangle (rect5 o) p5 p6 p2 p1))
    (addStrokeRectangle (rect6 o) p4 p3 p7 p8).

(** The corners of the unit box, at half-width [h]. *)
Definition corner (sx sy sz : bool) (h : float) : Vector :=
  let c (neg : bool) := if neg then fneg h else h in
  mkVector (c sx) (c sy) (c sz) f1.

Record AddBoxOrder : Type := mkAddBoxOrder {
  orTop : bool; fillOrder : BoxOrder; strokeOrder : BoxOrder
}.

Definition addBox (o : AddBoxOrder) : M AABB :=
  orAABB (orTop o)
    (alpha <- gets (fun w => ca (fillColor (state w))) ;;
     if alpha =? 0 then ret AABB_BOTTOM
     else addFillBox (fillOrder o)
            (corner true false false f0_5) (corner false false false f0_5)
            (corner false true false f0_5) (corner true true false f0_5)
            (corner true false true f0_5) (corner false false true f0_5)
            (corner false true true f0_5) (corner true true true f0_5))
    (alpha <- gets (fun w => ca (strokeColor (state w))) ;;
     if alpha =? 0 then ret AABB_BOTTOM
     else addStrokeBox (strokeOrder o)
            (corner true false false f0_51) (corner false false false f0_51)
            (corner false true false f0_51) (corner true true false f0_51)
            (corner true false true f0_51) (corner false false true f0_51)
            (corner false true true f0_51) (corner true true true f0_51)).

(** The earlier demo builds its shapes with statements in sequence. *)
Module Part007Shapes.

Definition addRectangle (a b c d : Vector) : M unit :=
  Part007.addTriangle a b c f0 f0 f1 f0 f1 f1 ;;;
  Part007.addTriangle d a c f0 f1 f0 f0 f1 f1.

Definition addBox : M unit :=
  let p (sx sy sz : bool) := corner sx sy sz f0_5 in
  addRectangle (p false false false) (p true false false)
               (p true true false) (p false true false) ;;;
  addRectangle (p false false true) (p false true true)
               (p true true true) (p true false true) ;;;
  addRectangle (p false false false) (p false false true)
               (p false true true) (p false true false) ;;;
  addRectangle (p true false false) (p true false true)
               (p true true true) (p true true false) ;;;
  addRectangle (p false false false) (p false false true)
               (p true false true) (p true false false) ;;;
  addRectangle (p false true false) (p false true true)
               (p true true true) (p true true false).

End Part007Shapes.

(** ** Colour assignments of the main loop: [state.fillColor = c] and
    [state.strokeColor = c] *)
Definition setFillColor (c : Color) : M unit :=
  modify (fun w =>
    set_state (mkRenderState (transform (state w)) c (strokeColor (state w))) w).

Definition setStrokeColor (c : Color) : M unit :=
  modify (fun w =>
    set_state (mkRenderState (transform (state w)) (fillColor (state w)) c) w).

(** ** The hover test of the main loop

    The condition under which a box, with rendered bound [bound], becomes
    the hovered box: it is nearer than the nearest one so far and the
    mouse position is inside the bound. *)
Definition hoverTest (bound : AABB) (hoverBoxMinZ : float) (mouseX mouseY : Z) : bool :=
  flt (vz (aabb_min bound)) hoverBoxMinZ &&
  fge (of_Z mouseX) (vx (aabb_min bound)) && fle (of_Z mouseX) (vx (aabb_max bound)) &&
  fge (of_Z mouseY) (vy (aabb_min bound)) && fle (of_Z mouseY) (vy (aabb_max bound)).

(** ** The text cursor

    The globals [charHeight], [charWidth], [charX], [charY] and the calls
    made to [SDL_RenderCopy], oldest first.  They are [int]s, 32 bits
    wide.  The cursor is moved with [+=]: the sum is written with its
    wrap-around to 32 bits (the language leaves the overflow of a signed
    [int] undefined; the statements on the cursor are about texts that
    do not overflow it).  [charWidth] is the width of the font sheet
    divided by 128, so that its product with a glyph index fits. *)

Definition int_wrap (z : Z) : Z := (z + 2 ^ 31) mod 2 ^ 32 - 2 ^ 31.

Definition int_add (a b : Z) : Z := int_wrap (a + b).

Record SDL_Rect : Type := mkRect { rect_x : Z; rect_y : Z; rect_w : Z; rect_h : Z }.

Record Console : Type := mkConsole {
  charHeight : Z;
  charWidth : Z;
  charX : Z;
  charY : Z;
  copies : list (SDL_Rect * SDL_Rect)
}.

Inductive PrintOutcome : Type :=
| Printed (c : Console)
| PrintExits (message : string) (c : Console).

Definition console_of (o : PrintOutcome) : Console :=
  match o with
  | Printed c => c
  | PrintExits _ c => c
  end.

(** [(int)((Uint8)ch >= 128 ? ' ' : ch)] *)
Definition glyphIndex (ch : Ascii.ascii) : Z :=
  let b := Z.of_N (Ascii.N_of_ascii ch) in
  if b >=? 128 then 32 else b.

Section TextBackend.
(** The status [SDL_RenderCopy] returns for a source and a destination
    rectangle, and the text of [SDL_GetError()] after a failed call. *)
Variable SDL_RenderCopy : SDL_Rect -> SDL_Rect -> Z.
Variable SDL_GetError : string.

Definition printChar (x y : Z) (ch : Ascii.ascii) (c : Console) : PrintOutcome :=
  let src := mkRect (charWidth c * glyphIndex ch) 0 (charWidth c) (charHeight c) in
  let dst := mkRect x y (charWidth c) (charHeight c) in
  let c' := mkConsole (charHeight c) (charWidth c) (charX c) (charY c)
                      (copies c ++ [(src, dst)])%list in
  if negb (SDL_RenderCopy src dst =? 0)
  then PrintExits ("ERROR SDL_RenderCopy (printChar): " ++ SDL_GetError)%string c'
  else Printed c'.

Fixpoint printStringView (view : string) (c : Console) : PrintOutcome :=
  match view with
  | EmptyString => Printed c
  | String ch rest =>
    match printChar (charX c) (charY c) ch c with
    | PrintExits msg c' => PrintExits msg c'
    | Printed c' =>
      if Ascii.eqb ch "010"%char
      then printStringView rest
             (mkConsole (charHeight c') (charWidth c') (charWidth c')
                        (int_add (charY c') (charHeight c')) (copies c'))
      else printStringView rest
             (mkConsole (charHeight c') (charWidth c')
                        (int_add (charX c') (charWidth c'))
                        (charY c') (copies c'))
    end
  end.
End TextBackend.

(** ** Random helpers

    [rand()] and [RAND_MAX] belong to the C library: the value [rand()]
    returns and the constant are arguments.  [high + 0.9999999] is
    computed in [double] and converted to [float] for the call. *)

Definition DARK_BLUE : Color := mkColor 29 43 83 255.
Definition DARK_PURPLE : Color := mkColor 126 37 83 255.
Definition DARK_GREEN : Color := mkColor 0 135 81 255.
Definition BROWN : Color := mkColor 171 82 54 255.
Definition DARK_GREY : Color := mkColor 95 87 79 255.
Definition LIGHT_GREY : Color := mkColor 194 195 199 255.
Definition RED : Color := mkColor 255 0 77 255.
Definition ORANGE : Color := mkColor 255 163 0 255.
Definition YELLOW : Color := mkColor 255 236 39 255.
Definition GREEN : Color := mkColor 0 228 54 255.
Definition BLUE : Color := mkColor 41 173 255 255.
Definition LAVENDER : Color := mkColor 131 118 156 255.
Definition PINK : Color := mkColor 255 119 168 255.
Definition LIGHT_PEACH : Color := mkColor 255 204 170 255.
Definition BROWNISH_BLACK : Color := mkColor 41 24 20 255.
Definition DARKER_BLUE : Color := mkColor 17 29 53 255.
Definition DARKER_PURPLE : Color := mkColor 66 33 54 255.
Definition BLUE_GREEN : Color := mkColor 18 83 89 255.
Definition DARK_BROWN : Color := mkColor 116 47 41 255.
Definition DARKER_GREY : Color := mkColor 73 51 59 255.
Definition MEDIUM_GREY : Color := mkColor 162 136 121 255.
Definition LIGHT_YELLOW : Color := mkColor 243 239 125 255.
Definition DARK_RED : Color := mkColor 190 18 80 255.
Definition DARK_ORANGE : Color := mkColor 255 108 36 255.
Definition LIME_GREEN : Color := mkColor 168 231 46 255.
Definition MEDIUM_GREEN : Color := mkColor 0 181 67 255.
Definition TRUE_BLUE : Color := mkColor 6 90 181 255.
Definition MAUVE : Color := mkColor 117 70 101 255.
Definition DARK_PEACH : Color := mkColor 255 110 89 255.

Definition COLORS : list Color :=
  [BLACK; DARK_BLUE; DARK_PURPLE; DARK_GREEN; BROWN; DARK_GREY;
   LIGHT_GREY; WHITE; RED; ORANGE; YELLOW; GREEN;
   BLUE; LAVENDER; PINK; LIGHT_PEACH; BROWNISH_BLACK; DARKER_BLUE;
   DARKER_PURPLE; BLUE_GREEN; DARK_BROWN; DARKER_GREY; MEDIUM_GREY; LIGHT_YELLOW;
   DARK_RED; DARK_ORANGE; LIME_GREEN; MEDIUM_GREEN; TRUE_BLUE; MAUVE;
   DARK_PEACH; PEACH].

Definition dadd : float -> float -> float := SFadd 53 1024.
Definition double_of_Z (z : Z) : float := binary_normalize 53 1024 z 0 false.

(** The [double] nearest to 0.9999999. *)
Definition d0_9999999 : float := S754_finite false 9007198354021067 (-53).

(** [double] to [float], rounding to nearest. *)
Definition float_of_double (d : float) : float :=
  match d with
  | S754_finite s m e => binary_round prec32 emax32 s m e
  | _ => d
  end.

(** [int(a)]: the value truncated towards zero; [None] where the
    conversion is not defined (NaN, infinities, values outside [int]). *)
Definition int_of_float (a : float) : option Z :=
  match a with
  | S754_zero _ => Some 0
  | S754_finite s m e =>
    let magnitude := if 0 <=? e then Zpos m * 2 ^ e else Zpos m / 2 ^ (- e) in
    let value := if s then - magnitude else magnitude in
    if (- 2 ^ 31 <=? value) && (value <? 2 ^ 31) then Some value else None
  | _ => None
  end.

Definition randomUniform (RAND_MAX rand : Z) (low high : float) : float :=
  fadd low (fmul (fdiv (of_Z rand) (of_Z RAND_MAX)) (fsub high low)).

Definition randomInt (RAND_MAX rand : Z) (low high : Z) : option Z :=
  int_of_float
    (randomUniform RAND_MAX rand (of_Z low)
       (float_of_double (dadd (double_of_Z high) d0_9999999))).

(** [COLORS[randomInt(0, sizeof(COLORS) / sizeof(COLORS[0]) - 1)]];
    [None] when the index is not one of the table. *)
Definition randomColor (RAND_MAX rand : Z) : option Color :=
  match randomInt RAND_MAX rand 0 (Z.of_nat (length COLORS) - 1) with
  | Some i => if i <? 0 then None else nth_error COLORS (Z.to_nat i)
  | None => None
  end.

(** * Vocabulary of the statements

    Definitions used to state the properties: the order on floats seen
    through a key, the lexicographic order on coordinate keys, sortedness,
    the cull tests of [addTriangle] by name, what [flush] hands to the
    backend, and the concrete worlds of the examples. *)

(** No element is less than an element before it. *)
Definition ascending {A : Type} (less : A -> A -> bool) (l : list A) : Prop :=
  StronglySorted (fun a b => less b a = false) l.

(** The sorted prefix [pre] with [val] inserted where
    [__unguarded_linear_insert] leaves it: before the longest run of
    elements at the back of [pre] that [val] is less than. *)
Fixpoint linear_insert {A : Type} (less : A -> A -> bool) (val : A) (pre : list A)
  : list A :=
  match pre with
  | [] => [val]
  | x :: pre' =>
    if forallb (less val) pre then val :: pre else x :: linear_insert less val pre'
  end.

(** The heap position [i] addresses an element of the vector. *)
Definition in_heap {A : Type} (first : nat) (i : Z) (v : list A) : Prop :=
  exists z, heap_at first i v = Some z.

(** The comparisons of two floats that are not NaN are those of a
    lexicographic key: the class (infinities, finite values by sign, zero),
    then the exponent, then the mantissa. *)
Definition fkey (a : float) : Z * Z * Z :=
  match a with
  | S754_zero _ => (0, 0, 0)
  | S754_infinity false => (2, 0, 0)
  | S754_infinity true => (-2, 0, 0)
  | S754_nan => (0, 0, 0)
  | S754_finite false m e => (1, e, Zpos m)
  | S754_finite true m e => (-1, - e, Zneg m)
  end.

Definition klt (p q : Z * Z * Z) : Prop :=
  let '(c1, e1, m1) := p in
  let '(c2, e2, m2) := q in
  c1 < c2 \/ (c1 = c2 /\ (e1 < e2 \/ (e1 = e2 /\ m1 < m2))).

Definition keq (p q : Z * Z * Z) : Prop :=
  let '(c1, e1, m1) := p in
  let '(c2, e2, m2) := q in
  c1 = c2 /\ e1 = e2 /\ m1 = m2.

(** The lexicographic order on keys, as the text describes it: the first
    component that differs decides. *)
Fixpoint lexLess (k1 k2 : list float) : bool :=
  match k1, k2 with
  | a :: k1', b :: k2' => flt a b || (feq a b && lexLess k1' k2')
  | _, _ => false
  end.

(** No component of the key is NaN. *)
Definition ordered (k : list float) : Prop := Forall (fun a => is_nan a = false) k.

(** The key of the vertex sort: (z, y, x). *)
Definition key3 (p : Vertex) : list float := [vtx_z p; vtx_y p; vtx_x p].

(** The key of the triangle sort: (z0, z1, z2, y0, y1, y2, x0, x1, x2). *)
Definition key9 (t : Triangle) : list float :=
  [vtx_z (vertex0 t); vtx_z (vertex1 t); vtx_z (vertex2 t);
   vtx_y (vertex0 t); vtx_y (vertex1 t); vtx_y (vertex2 t);
   vtx_x (vertex0 t); vtx_x (vertex1 t); vtx_x (vertex2 t)].

(** Vertices and triangles whose coordinates are not NaN: on them the
    comparators are strict weak orderings, as [std::sort] requires. *)
Definition orderedVertex (p : Vertex) : Prop := ordered (key3 p).

Definition orderedTriangle (t : Triangle) : Prop := Forall orderedVertex (vertices t).

(** The world a call leaves behind, whether it returns or exits. *)
Definition world_of {A : Type} (o : Outcome A) : World :=
  match o with
  | Returns _ w => w
  | Exits _ w => w
  end.

(** No coordinate of the vector is NaN. *)
Definition orderedVector (p : Vector) : Prop :=
  is_nan (vx p) = false /\ is_nan (vy p) = false /\
  is_nan (vz p) = false /\ is_nan (vw p) = false.

Definition orderedAABB (a : AABB) : Prop :=
  orderedVector (aabb_min a) /\ orderedVector (aabb_max a).

(** A box with a NaN coordinate. *)
Definition nan_box : AABB :=
  mkAABB (mkVector NAN f0 f0 f1) (mkVector NAN f0 f0 f1).

(** The vertex after the current transform, the cull tests of
    [addTriangle], and what it appends and returns. *)
Definition transformed (w : World) (p : Vector) : Vector :=
  mulMV (transform (state w)) p.

Definition projected (w : World) (p : Vector) : Vector :=
  perspectiveDivide (transformed w p).

Definition behindCamera (p : Vector) : bool := fle (vw p) f0.

Definition allLeft (a b c : Vector) : bool :=
  flt (vx a) f0 && flt (vx b) f0 && flt (vx c) f0.

Definition allRight (a b c : Vector) : bool :=
  fgt (vx a) (of_Z WIDTH) && fgt (vx b) (of_Z WIDTH) && fgt (vx c) (of_Z WIDTH).

Definition allAbove (a b c : Vector) : bool :=
  flt (vy a) f0 && flt (vy b) f0 && flt (vy c) f0.

Definition allBelow (a b c : Vector) : bool :=
  fgt (vy a) (of_Z HEIGHT) && fgt (vy b) (of_Z HEIGHT) && fgt (vy c) (of_Z HEIGHT).

(** The vertex lies outside the screen rectangle. *)
Definition offScreen (p : Vector) : bool :=
  flt (vx p) f0 || fgt (vx p) (of_Z WIDTH) || flt (vy p) f0 || fgt (vy p) (of_Z HEIGHT).

Definition screenTriangle (color : Color) (a b c : Vector)
    (u1 v1 u2 v2 u3 v3 : float) : Triangle :=
  mkTriangle (mkVertex (vx a) (vy a) (vz a) color u1 v1)
             (mkVertex (vx b) (vy b) (vz b) color u2 v2)
             (mkVertex (vx c) (vy c) (vz c) color u3 v3).

Definition boundsOf (a b c : Vector) : AABB :=
  mkAABB (minPairwise a (minPairwise b c)) (maxPairwise a (maxPairwise b c)).

(** What a flush of a non-empty batch hands to the backend. *)
Definition sortedBatch (w : World) : list Triangle :=
  std_sort triangleLess (map sortVertices (triangles w)).

Definition submission (w : World) : list Triangle :=
  if reverseSortTriangles w then rev (sortedBatch w) else sortedBatch w.

Definition drawCallOf (ts : list Triangle) : DrawCall :=
  mkDrawCall ts (int_of_size_t (3 * Z.of_nat (length ts))).

(** A text of [SDL_GetError()], for the examples. *)
Definition invalid_renderer : string := "Invalid renderer".

(** A frame of the earlier demo in which the only triangle submitted is
    behind the camera, so that the batch is empty when [flush] runs. *)
Definition culled_frame (backend : DrawCall -> Z) (lastError : string) : M nat :=
  push ;;;
  Part007.addTriangle (mkVector (of_Z 10) (of_Z 10) (of_Z 5) (of_Z (-1)))
                      (mkVector (of_Z 20) (of_Z 10) (of_Z 5) (of_Z (-1)))
                      (mkVector (of_Z 20) (of_Z 20) (of_Z 5) (of_Z (-1)))
                      f0 f0 f1 f0 f1 f1 ;;;
  pop ;;;
  Part007.flush backend lastError.

(** The scenario of C5: one triangle, already in screen coordinates,
    submitted under the identity transform. *)
Definition scenario_world : World :=
  world_of (addTriangle PEACH
              (mkVector (of_Z 100) (of_Z 100) (of_Z 5) f1)
              (mkVector (of_Z 200) (of_Z 100) (of_Z 5) f1)
              (mkVector (of_Z 150) (of_Z 50) (of_Z 5) f1)
              f0 f0 f1 f0 f1 f1 initial_world).



(** A frame that submits, under the identity transform, a triangle at
    depth 1, one at depth 3, one with a vertex whose depth is NaN, and one
    at depth 2.  The NaN vertex comes out of the transform with all its
    coordinates NaN and passes every cull test. *)
Definition depth_triangle (z : float) : M AABB :=
  addTriangle PEACH (mkVector (of_Z 10) (of_Z 10) z f1)
                    (mkVector (of_Z 20) (of_Z 10) z f1)
                    (mkVector (of_Z 20) (of_Z 20) z f1)
                    f0 f0 f1 f0 f1 f1.

Definition nan_frame : M AABB :=
  depth_triangle (of_Z 1) ;;;
  depth_triangle (of_Z 3) ;;;
  addTriangle PEACH (mkVector (of_Z 10) (of_Z 10) NAN f1)
                    (mkVector (of_Z 20) (of_Z 10) (of_Z 5) f1)
                    (mkVector (of_Z 20) (of_Z 20) (of_Z 5) f1)
                    f0 f0 f1 f0 f1 f1 ;;;
  depth_triangle (of_Z 2).

Definition nan_frame_world : World := world_of (nan_frame initial_world).

(** The triangles of that frame as the backend receives them. *)
Definition depth_drawn (z : float) : Triangle :=
  mkTriangle (mkVertex (of_Z 10) (of_Z 10) z PEACH f0 f0)
             (mkVertex (of_Z 20) (of_Z 10) z PEACH f1 f0)
             (mkVertex (of_Z 20) (of_Z 20) z PEACH f1 f1).

Definition nan_drawn : Triangle :=
  mkTriangle (mkVertex NAN NAN NAN PEACH f0 f0)
             (mkVertex (of_Z 20) (of_Z 10) (of_Z 5) PEACH f1 f0)
             (mkVertex (of_Z 20) (of_Z 20) (of_Z 5) PEACH f1 f1).

(** Two triangles at depths 1 and 7. *)
Definition near_triangle : Triangle :=
  mkTriangle (mkVertex (of_Z 10) (of_Z 10) (of_Z 1) PEACH f0 f0)
             (mkVertex (of_Z 20) (of_Z 10) (of_Z 1) PEACH f1 f0)
             (mkVertex (of_Z 20) (of_Z 20) (of_Z 1) PEACH f1 f1).

Definition far_triangle : Triangle :=
  mkTriangle (mkVertex (of_Z 10) (of_Z 10) (of_Z 7) WHITE f0 f0)
             (mkVertex (of_Z 20) (of_Z 10) (of_Z 7) WHITE f1 f0)
             (mkVertex (of_Z 20) (of_Z 20) (of_Z 7) WHITE f1 f1).

(** All three vertices of the triangle carry the colour. *)
Definition coloredWith (col : Color) (t : Triangle) : Prop :=
  Forall (fun p => vtx_color p = col) (vertices t).

(** From every world whose render state is [st], the command returns [a]
    and appends the triangles [ts], in some order, to the back of the
    batch; nothing else changes. *)
Definition appends {A : Type} (c : M A) (st : RenderState) (a : A)
    (ts : list Triangle) : Prop :=
  forall w, state w = st ->
    exists ts', Permutation ts' ts /\
      c w = Returns a (set_triangles (triangles w ++ ts')%list w).

(** The command run [n] times in sequence. *)
Fixpoint times (n : nat) (c : M unit) : M unit :=
  match n with
  | O => ret tt
  | S n' => c ;;; times n' c
  end.

(** The vertex lies within the box in x, y and z. *)
Definition inBox (r : AABB) (p : Vertex) : bool :=
  fle (vx (aabb_min r)) (vtx_x p) && fle (vtx_x p) (vx (aabb_max r)) &&
  fle (vy (aabb_min r)) (vtx_y p) && fle (vtx_y p) (vy (aabb_max r)) &&
  fle (vz (aabb_min r)) (vtx_z p) && fle (vtx_z p) (vz (aabb_max r)).

(** The triangle is not entirely beyond one screen boundary: for each of
    the four boundaries, some vertex fails the test of [addTriangle]. *)
Definition notBeyondOneBoundary (t : Triangle) : bool :=
  existsb (fun p => negb (flt (vtx_x p) f0)) (vertices t) &&
  existsb (fun p => negb (fgt (vtx_x p) (of_Z WIDTH))) (vertices t) &&
  existsb (fun p => negb (flt (vtx_y p) f0)) (vertices t) &&
  existsb (fun p => negb (fgt (vtx_y p) (of_Z HEIGHT))) (vertices t).

(** Zero of either sign; a finite float (zero included). *)
Definition isZero (a : float) : bool :=
  match a with S754_zero _ => true | _ => false end.

Definition isFinite (a : float) : bool :=
  match a with S754_zero _ | S754_finite _ _ _ => true | _ => false end.

Definition finiteVector (p : Vector) : Prop :=
  isFinite (vx p) = true /\ isFinite (vy p) = true /\
  isFinite (vz p) = true /\ isFinite (vw p) = true.

(** The last row of the matrix is (0, 0, 0, 1): the transform is affine. *)
Definition affine (m : Matrix) : Prop :=
  isZero (vx (mw m)) = true /\ isZero (vy (mw m)) = true /\
  isZero (vz (mw m)) = true /\ vw (mw m) = f1.

Definition finiteMatrix (m : Matrix) : Prop :=
  finiteVector (mx m) /\ finiteVector (my m) /\ finiteVector (mz m) /\ finiteVector (mw m).

(** The number of newline characters of the text, and the number of
    characters after the last newline ([None] when there is none). *)
Fixpoint countNewlines (view : string) : Z :=
  match view with
  | EmptyString => 0
  | String ch rest =>
    (if Ascii.eqb ch "010"%char then 1 else 0) + countNewlines rest
  end.

Fixpoint afterLastNewline (view : string) : option Z :=
  match view with
  | EmptyString => None
  | String ch rest =>
    match afterLastNewline rest with
    | Some k => Some k
    | None => if Ascii.eqb ch "010"%char
              then Some (Z.of_nat (String.length rest)) else None
    end
  end.

(** The value is one of an [int]. *)
Definition isInt (z : Z) : Prop := - 2 ^ 31 <= z < 2 ^ 31.

(** Printing [view] from the console [c] does not overflow the cursor:
    the cursor starts at [int]s, the rows advance downwards, and the
    column one cell per character further, the column of a text that
    starts at the left margin, and the row [charHeight] further for each
    newline, are below 2^31. *)
Definition cursorFits (c : Console) (view : string) : Prop :=
  0 <= charHeight c /\ isInt (charX c) /\ isInt (charY c) /\
  charX c + charWidth c * Z.of_nat (String.length view) < 2 ^ 31 /\
  charWidth c * (1 + Z.of_nat (String.length view)) < 2 ^ 31 /\
  charY c + charHeight c * countNewlines view < 2 ^ 31.

(** The source rectangle lies within the 128 glyphs of the font sheet. *)
Definition withinFontSheet (c : Console) (copy : SDL_Rect * SDL_Rect) : Prop :=
  let src := fst copy in
  0 <= rect_x src /\ rect_x src + rect_w src <= 128 * charWidth c /\
  rect_y src = 0 /\ rect_h src = charHeight c.

(** * Properties *)

(** ** Float comparison as an order

    The comparisons of two floats that are not NaN are those of a
    lexicographic key: the class (infinities, finite values by sign, zero),
    then the exponent, then the mantissa. *)

Ltac key_arith :=
  repeat split; intros;
  try discriminate;
  try lia;
  try congruence;
  try match goal with
      | H : (_, _, _) = (_, _, _) |- _ => injection H; intros; lia
      end.

Lemma SFcompare_fkey (a b : float) :
  is_nan a = false -> is_nan b = false ->
  exists c, SFcompare a b = Some c /\
    (c = Lt <-> klt (fkey a) (fkey b)) /\
    (c = Eq <-> fkey a = fkey b) /\
    (c = Gt <-> klt (fkey b) (fkey a)).
Proof.
  intros Ha Hb.
  destruct a as [sa|sa| |sa ma ea], b as [sb|sb| |sb mb eb];
    try discriminate; try destruct sa; try destruct sb; simpl;
    try (eexists; split; [reflexivity|]; key_arith; fail).
  - eexists; split; [reflexivity|].
    change (Pos.compare_cont Eq ma mb) with (Pos.compare ma mb).
    destruct (Z.compare_spec ea eb), (Pos.compare_spec ma mb); subst; simpl;
      key_arith.
  - eexists; split; [reflexivity|].
    change (Pos.compare_cont Eq ma mb) with (Pos.compare ma mb).
    destruct (Z.compare_spec ea eb), (Pos.compare_spec ma mb); subst; simpl;
      key_arith.
Qed.

Lemma flt_klt (a b : float) :
  is_nan a = false -> is_nan b = false ->
  (flt a b = true <-> klt (fkey a) (fkey b)).
Proof.
  intros Ha Hb. destruct (SFcompare_fkey a b Ha Hb) as (c & Hc & HLt & _ & _).
  unfold flt, SFltb. rewrite Hc. rewrite <- HLt.
  destruct c; split; congruence.
Qed.

Lemma feq_fkey (a b : float) :
  is_nan a = false -> is_nan b = false ->
  (feq a b = true <-> fkey a = fkey b).
Proof.
  intros Ha Hb. destruct (SFcompare_fkey a b Ha Hb) as (c & Hc & _ & HEq & _).
  unfold feq, SFeqb. rewrite Hc. rewrite <- HEq.
  destruct c; split; congruence.
Qed.

Lemma fle_klt (a b : float) :
  is_nan a = false -> is_nan b = false ->
  (fle a b = true <-> klt (fkey a) (fkey b) \/ fkey a = fkey b).
Proof.
  intros Ha Hb. destruct (SFcompare_fkey a b Ha Hb) as (c & Hc & HLt & HEq & _).
  unfold fle, SFleb. rewrite Hc. rewrite <- HLt, <- HEq.
  destruct c; split; intros; try tauto; try congruence; destruct H; congruence.
Qed.

Lemma flt_nan_l (b : float) : flt NAN b = false.
Proof. reflexivity. Qed.

Lemma flt_nan_r (a : float) : flt a NAN = false.
Proof. destruct a; reflexivity. Qed.

Lemma feq_nan_l (b : float) : feq NAN b = false.
Proof. reflexivity. Qed.

Lemma feq_nan_r (a : float) : feq a NAN = false.
Proof. destruct a; reflexivity. Qed.

Lemma fle_nan_l (b : float) : fle NAN b = false.
Proof. reflexivity. Qed.

Lemma fle_nan_r (a : float) : fle a NAN = false.
Proof. destruct a; reflexivity. Qed.

Lemma is_nan_true (a : float) : is_nan a = true -> a = NAN.
Proof. destruct a; simpl; intros; try discriminate; reflexivity. Qed.

(** A true comparison has no NaN operand. *)
Lemma flt_true_not_nan (a b : float) :
  flt a b = true -> is_nan a = false /\ is_nan b = false.
Proof.
  intros H. destruct (is_nan a) eqn:Ha.
  - apply is_nan_true in Ha. subst. discriminate.
  - destruct (is_nan b) eqn:Hb; [|auto].
    apply is_nan_true in Hb. subst. rewrite flt_nan_r in H. discriminate.
Qed.

Lemma feq_true_not_nan (a b : float) :
  feq a b = true -> is_nan a = false /\ is_nan b = false.
Proof.
  intros H. destruct (is_nan a) eqn:Ha.
  - apply is_nan_true in Ha. subst. discriminate.
  - destruct (is_nan b) eqn:Hb; [|auto].
    apply is_nan_true in Hb. subst. rewrite feq_nan_r in H. discriminate.
Qed.

Lemma fle_true_not_nan (a b : float) :
  fle a b = true -> is_nan a = false /\ is_nan b = false.
Proof.
  intros H. destruct (is_nan a) eqn:Ha.
  - apply is_nan_true in Ha. subst. discriminate.
  - destruct (is_nan b) eqn:Hb; [|auto].
    apply is_nan_true in Hb. subst. rewrite fle_nan_r in H. discriminate.
Qed.

Lemma keq_eq (p q : Z * Z * Z) : keq p q <-> p = q.
Proof.
  destruct p as [[c1 e1] m1], q as [[c2 e2] m2]. simpl.
  split; [intros (-> & -> & ->); reflexivity | intros H; injection H; auto].
Qed.

Lemma flt_true_klt (a b : float) :
  is_nan a = false -> is_nan b = false ->
  flt a b = true -> klt (fkey a) (fkey b).
Proof. intros Ha Hb. apply flt_klt; assumption. Qed.

Lemma flt_false_klt (a b : float) :
  is_nan a = false -> is_nan b = false ->
  flt a b = false -> ~ klt (fkey a) (fkey b).
Proof.
  intros Ha Hb H K. apply flt_klt in K; [congruence | assumption ..].
Qed.

Lemma feq_true_keq (a b : float) :
  is_nan a = false -> is_nan b = false ->
  feq a b = true -> keq (fkey a) (fkey b).
Proof. intros Ha Hb H. apply keq_eq, feq_fkey; assumption. Qed.

Lemma feq_false_keq (a b : float) :
  is_nan a = false -> is_nan b = false ->
  feq a b = false -> ~ keq (fkey a) (fkey b).
Proof.
  intros Ha Hb H K. apply keq_eq, feq_fkey in K; [congruence | assumption ..].
Qed.

(** Turn every comparison between floats known not to be NaN into
    arithmetic on their keys. *)
Ltac to_keys :=
  repeat match goal with
  | H : flt ?a ?b = true |- _ => apply flt_true_klt in H; [| assumption ..]
  | H : flt ?a ?b = false |- _ => apply flt_false_klt in H; [| assumption ..]
  | H : feq ?a ?b = true |- _ => apply feq_true_keq in H; [| assumption ..]
  | H : feq ?a ?b = false |- _ => apply feq_false_keq in H; [| assumption ..]
  end;
  repeat match goal with
  | |- context [fkey ?a] =>
    let c := fresh "c" in let e := fresh "e" in let m := fresh "m" in
    destruct (fkey a) as [[c e] m]
  | H : context [fkey ?a] |- _ =>
    let c := fresh "c" in let e := fresh "e" in let m := fresh "m" in
    destruct (fkey a) as [[c e] m]
  end;
  unfold klt, keq in *.

(** ** Lexicographic comparison of coordinate keys

    [lexLess] is the order the text describes: the first component that
    differs decides. *)

Lemma lexLess_asym (k1 k2 : list float) :
  ordered k1 -> ordered k2 ->
  lexLess k1 k2 = true -> lexLess k2 k1 = false.
Proof.
  intros H1. revert k2. induction H1 as [|a k1 Ha H1 IH]; intros k2 H2 H.
  - discriminate.
  - destruct H2 as [|b k2 Hb H2]; [reflexivity|]. simpl in *.
    destruct (flt a b) eqn:Eab, (flt b a) eqn:Eba,
             (feq a b) eqn:Fab, (feq b a) eqn:Fba; simpl in *;
      try discriminate; try reflexivity;
      try (exfalso; to_keys; lia).
    apply IH; assumption.
Qed.

Lemma lexLess_negtrans (k1 k2 k3 : list float) :
  ordered k1 -> ordered k2 -> ordered k3 ->
  length k1 = length k2 -> length k2 = length k3 ->
  lexLess k2 k1 = false -> lexLess k3 k2 = false -> lexLess k3 k1 = false.
Proof.
  intros H1. revert k2 k3.
  induction H1 as [|a k1 Ha H1 IH]; intros k2 k3 H2 H3 L12 L23 N21 N32.
  - destruct k3; reflexivity.
  - destruct H2 as [|b k2 Hb H2]; [discriminate|].
    destruct H3 as [|c k3 Hc H3]; [discriminate|].
    simpl in *.
    destruct (flt b a) eqn:Eba, (flt c b) eqn:Ecb, (flt c a) eqn:Eca,
             (feq b a) eqn:Fba, (feq c b) eqn:Fcb, (feq c a) eqn:Fca;
      simpl in *; try discriminate; try reflexivity;
      try (exfalso; to_keys; lia).
    apply IH with (k2 := k2); auto.
Qed.



Lemma feq_sym (a b : float) : feq a b = true -> feq b a = true.
Proof.
  intros H. destruct (feq_true_not_nan _ _ H) as [Na Nb].
  destruct (feq b a) eqn:E; [reflexivity|]. exfalso. to_keys. lia.
Qed.








(** ** The sort returns a sorted permutation *)

Section SortFacts.
Local Open Scope nat_scope.
Context {A : Type}.
Variable less : A -> A -> bool.

(** *** Writing to a position *)

Lemma store_length (i : nat) (x : A) (v : list A) : length (store i x v) = length v.
Proof.
  revert i. induction v as [|y v IH]; intros [|i]; simpl; try reflexivity.
  rewrite IH. reflexivity.
Qed.

Lemma store_same (i : nat) (x : A) (v : list A) :
  nth_error v i = Some x -> store i x v = v.
Proof.
  revert i. induction v as [|y v IH]; intros [|i] H; simpl in *; try discriminate.
  - congruence.
  - rewrite IH by exact H. reflexivity.
Qed.

Lemma store_twice (i : nat) (x y : A) (v : list A) :
  store i x (store i y v) = store i x v.
Proof.
  revert i. induction v as [|z v IH]; intros [|i]; simpl; try reflexivity.
  rewrite IH. reflexivity.
Qed.

Lemma store_app (pre post : list A) (h x : A) :
  store (length pre) x (pre ++ h :: post) = pre ++ x :: post.
Proof.
  induction pre as [|y pre IH]; simpl; [reflexivity|]. rewrite IH. reflexivity.
Qed.

Lemma nth_error_store (i : nat) (x y : A) (v : list A) :
  nth_error v i = Some y -> nth_error (store i x v) i = Some x.
Proof.
  revert i. induction v as [|z v IH]; intros [|i] H; simpl in *; try discriminate.
  - reflexivity.
  - apply IH, H.
Qed.

Lemma nth_error_store_in_range (i j : nat) (x y : A) (v : list A) :
  nth_error v j = Some y -> exists z, nth_error (store i x v) j = Some z.
Proof.
  intros H.
  assert (L : (j < length (store i x v))%nat).
  { rewrite store_length. apply nth_error_Some. congruence. }
  apply nth_error_Some in L.
  destruct (nth_error (store i x v) j) as [z|]; [exists z; reflexivity | congruence].
Qed.

Lemma store_take (j : nat) (x y : A) (v : list A) :
  nth_error v j = Some y -> Permutation (y :: store j x v) (x :: v).
Proof.
  revert j. induction v as [|z v IH]; intros [|j] H; simpl in *; try discriminate.
  - injection H as ->. apply perm_swap.
  - apply perm_trans with (z :: y :: store j x v); [apply perm_swap|].
    apply perm_trans with (z :: x :: v); [apply perm_skip, IH, H | apply perm_swap].
Qed.

(** With the value [y] of position [j] written to position [i] and [x]
    written to [j], the vector holds what it holds with [x] written to
    [i]. *)
Lemma store_move (i j : nat) (x y z : A) (v : list A) :
  nth_error v i = Some z -> nth_error v j = Some y ->
  Permutation (store j x (store i y v)) (store i x v).
Proof.
  revert i j. induction v as [|h v IH]; intros [|i] [|j] Hi Hj; simpl in *;
    try discriminate.
  - apply Permutation_refl.
  - apply store_take, Hj.
  - injection Hj as ->.
    apply Permutation_cons_inv with (a := z).
    apply perm_trans with (x :: z :: store i y v); [apply perm_swap|].
    apply perm_trans with (x :: y :: v); [apply perm_skip, store_take, Hi|].
    apply perm_trans with (y :: x :: v); [apply perm_swap|].
    apply perm_trans with (y :: z :: store i x v);
      [apply perm_skip, Permutation_sym, store_take, Hi | apply perm_swap].
  - apply perm_skip, IH; assumption.
Qed.

Lemma iter_swap_perm (i j : nat) (v : list A) : Permutation (iter_swap i j v) v.
Proof.
  unfold iter_swap.
  destruct (nth_error v i) as [x|] eqn:Hi; [|apply Permutation_refl].
  destruct (nth_error v j) as [y|] eqn:Hj; [|apply Permutation_refl].
  apply perm_trans with (store j y v).
  - apply store_move with (z := y); assumption.
  - rewrite store_same by exact Hj. apply Permutation_refl.
Qed.

(** *** Every routine permutes the vector *)

Lemma move_median_to_first_perm (result a b c : nat) (v : list A) :
  Permutation (__move_median_to_first less result a b c v) v.
Proof.
  unfold __move_median_to_first.
  destruct (nth_error v a), (nth_error v b), (nth_error v c);
    try apply Permutation_refl.
  repeat match goal with
  | |- context [if ?t then _ else _] => destruct t
  end; apply iter_swap_perm.
Qed.

Lemma unguarded_partition_loop_perm (fuel first last pivot : nat) (v : list A) :
  Permutation (snd (unguarded_partition_loop less fuel first last pivot v)) v.
Proof.
  revert first last v. induction fuel as [|fuel IH]; intros first last v; simpl.
  - apply Permutation_refl.
  - destruct (_ <? _)%nat.
    + eapply perm_trans; [apply IH | apply iter_swap_perm].
    + apply Permutation_refl.
Qed.

Lemma unguarded_partition_pivot_perm (first last : nat) (v : list A) :
  Permutation (snd (__unguarded_partition_pivot less first last v)) v.
Proof.
  unfold __unguarded_partition_pivot, __unguarded_partition.
  eapply perm_trans; [apply unguarded_partition_loop_perm|].
  apply move_median_to_first_perm.
Qed.

(** The heap routines keep [value] aside while a hole travels through
    the vector: with [value] written to the hole, the elements are those
    of the start. *)
Lemma heap_store_in_heap (first : nat) (i j : Z) (x : A) (v : list A) :
  in_heap first j v -> in_heap first j (heap_store first i x v).
Proof.
  unfold in_heap, heap_at, heap_store. intros [z H].
  destruct (j <? 0)%Z; [discriminate|].
  destruct (i <? 0)%Z; [exists z; exact H|].
  eapply nth_error_store_in_range, H.
Qed.

Lemma heap_store_move (first : nat) (i j : Z) (x y : A) (v : list A) :
  in_heap first i v -> heap_at first j v = Some y ->
  Permutation (heap_store first j x (heap_store first i y v)) (heap_store first i x v).
Proof.
  unfold in_heap, heap_at, heap_store. intros [z Hi] Hj.
  destruct (i <? 0)%Z; [discriminate|].
  destruct (j <? 0)%Z; [discriminate|].
  eapply store_move; eassumption.
Qed.

Lemma heap_store_same (first : nat) (i : Z) (x : A) (v : list A) :
  heap_at first i v = Some x -> heap_store first i x v = v.
Proof.
  unfold heap_at, heap_store. destruct (i <? 0)%Z; [reflexivity|]. apply store_same.
Qed.

Lemma push_heap_loop_perm (fuel first : nat) (holeIndex topIndex : Z) (value : A)
    (v : list A) :
  in_heap first holeIndex v ->
  Permutation (push_heap_loop less fuel first holeIndex topIndex value v)
              (heap_store first holeIndex value v).
Proof.
  revert holeIndex v. induction fuel as [|fuel IH]; intros holeIndex v H;
    cbn [push_heap_loop]; cbv zeta.
  - apply Permutation_refl.
  - destruct (topIndex <? holeIndex)%Z; [|apply Permutation_refl].
    destruct (heap_at first _ v) as [p|] eqn:Hp; [|apply Permutation_refl].
    destruct (less p value); [|apply Permutation_refl].
    eapply perm_trans.
    + apply IH. apply heap_store_in_heap. exists p. exact Hp.
    + apply heap_store_move; assumption.
Qed.

Lemma adjust_heap_loop_perm (fuel first : nat) (len holeIndex : Z) (value : A)
    (v : list A) :
  in_heap first holeIndex v ->
  let r := adjust_heap_loop less fuel first len holeIndex v in
  in_heap first (fst r) (snd r) /\
  Permutation (heap_store first (fst r) value (snd r))
              (heap_store first holeIndex value v).
Proof.
  revert holeIndex v. induction fuel as [|fuel IH]; intros holeIndex v H;
    cbn [adjust_heap_loop]; cbv zeta.
  - split; [exact H | apply Permutation_refl].
  - destruct (holeIndex <? _)%Z; [|split; [exact H | apply Permutation_refl]].
    set (c := (2 * (holeIndex + 1))%Z).
    destruct (heap_at first c v) as [r|] eqn:Hr;
      [|split; [exact H | apply Permutation_refl]].
    destruct (heap_at first (c - 1) v) as [l|] eqn:Hl;
      [|split; [exact H | apply Permutation_refl]].
    destruct (less r l).
    + destruct (IH (c - 1)%Z (heap_store first holeIndex l v)) as [I P].
      { apply heap_store_in_heap. exists l. exact Hl. }
      split; [exact I|].
      eapply perm_trans; [exact P|]. apply heap_store_move; assumption.
    + destruct (IH c (heap_store first holeIndex r v)) as [I P].
      { apply heap_store_in_heap. exists r. exact Hr. }
      split; [exact I|].
      eapply perm_trans; [exact P|]. apply heap_store_move; assumption.
Qed.

Lemma adjust_heap_perm (first : nat) (holeIndex len : Z) (value : A) (v : list A) :
  in_heap first holeIndex v ->
  Permutation (__adjust_heap less first holeIndex len value v)
              (heap_store first holeIndex value v).
Proof.
  intros H. unfold __adjust_heap.
  pose proof (adjust_heap_loop_perm (Z.to_nat len) first len holeIndex value v H) as L.
  destruct (adjust_heap_loop less (Z.to_nat len) first len holeIndex v) as [h v'].
  cbn [fst snd] in L. destruct L as [I P].
  unfold __push_heap.
  destruct (Z.even len && (h =? (len - 2) ÷ 2)%Z).
  - cbv zeta. destruct (heap_at first (2 * (h + 1) - 1) v') as [c|] eqn:Hc.
    + eapply perm_trans.
      * apply push_heap_loop_perm. apply heap_store_in_heap. exists c. exact Hc.
      * eapply perm_trans; [|exact P]. apply heap_store_move; assumption.
    + eapply perm_trans; [apply push_heap_loop_perm, I | exact P].
  - eapply perm_trans; [apply push_heap_loop_perm, I | exact P].
Qed.

Lemma pop_heap_perm (first last result : nat) (v : list A) :
  Permutation (__pop_heap less first last result v) v.
Proof.
  unfold __pop_heap.
  destruct (nth_error v result) as [value|] eqn:Hr; [|apply Permutation_refl].
  destruct (nth_error v first) as [f|] eqn:Hf; [|apply Permutation_refl].
  eapply perm_trans.
  - apply adjust_heap_perm. unfold in_heap, heap_at. cbn.
    rewrite Nat.add_0_r. eapply nth_error_store_in_range, Hf.
  - unfold heap_store. cbn. rewrite Nat.add_0_r.
    apply perm_trans with (store result value v).
    + apply store_move with (z := value); assumption.
    + rewrite store_same by exact Hr. apply Permutation_refl.
Qed.

Lemma make_heap_loop_perm (fuel first : nat) (len parent : Z) (v : list A) :
  Permutation (make_heap_loop less fuel first len parent v) v.
Proof.
  revert parent v. induction fuel as [|fuel IH]; intros parent v; simpl.
  - apply Permutation_refl.
  - destruct (heap_at first parent v) as [value|] eqn:Hp; [|apply Permutation_refl].
    assert (P : Permutation (__adjust_heap less first parent len value v) v).
    { eapply perm_trans.
      - apply adjust_heap_perm. exists value. exact Hp.
      - rewrite heap_store_same by exact Hp. apply Permutation_refl. }
    destruct (parent =? 0)%Z; [exact P|].
    eapply perm_trans; [apply IH | exact P].
Qed.

Lemma make_heap_perm (first last : nat) (v : list A) :
  Permutation (__make_heap less first last v) v.
Proof.
  unfold __make_heap. destruct (_ <? 2)%Z; [apply Permutation_refl|].
  apply make_heap_loop_perm.
Qed.

Lemma sort_heap_loop_perm (fuel first last : nat) (v : list A) :
  Permutation (sort_heap_loop less fuel first last v) v.
Proof.
  revert last v. induction fuel as [|fuel IH]; intros last v; simpl.
  - apply Permutation_refl.
  - destruct (1 <? _)%Z; [|apply Permutation_refl].
    eapply perm_trans; [apply IH | apply pop_heap_perm].
Qed.

Lemma fold_left_perm {B : Type} (f : list A -> B -> list A) (l : list B) (v : list A) :
  (forall v b, Permutation (f v b) v) -> Permutation (fold_left f l v) v.
Proof.
  intros H. revert v. induction l as [|b l IH]; intros v; simpl.
  - apply Permutation_refl.
  - eapply perm_trans; [apply IH | apply H].
Qed.

Lemma heap_select_perm (first middle last : nat) (v : list A) :
  Permutation (__heap_select less first middle last v) v.
Proof.
  unfold __heap_select.
  eapply perm_trans; [|apply make_heap_perm].
  apply fold_left_perm. intros v' i.
  destruct (nth_error v' i), (nth_error v' first); try apply Permutation_refl.
  destruct (less _ _); [apply pop_heap_perm | apply Permutation_refl].
Qed.

Lemma partial_sort_perm (first middle last : nat) (v : list A) :
  Permutation (__partial_sort less first middle last v) v.
Proof.
  unfold __partial_sort, __sort_heap.
  eapply perm_trans; [apply sort_heap_loop_perm | apply heap_select_perm].
Qed.

Lemma introsort_loop_perm (first last depth_limit : nat) (v : list A) :
  Permutation (__introsort_loop less first last depth_limit v) v.
Proof.
  revert first last v. induction depth_limit as [|d IH]; intros first last v; simpl.
  - destruct (_ <? _)%nat; [apply partial_sort_perm | apply Permutation_refl].
  - destruct (_ <? _)%nat; [|apply Permutation_refl].
    pose proof (unguarded_partition_pivot_perm first last v) as P.
    destruct (__unguarded_partition_pivot less first last v) as [cut v'].
    cbn [snd] in P.
    eapply perm_trans; [apply IH|]. eapply perm_trans; [apply IH | exact P].
Qed.

Lemma unguarded_linear_insert_loop_perm (val : A) (last : nat) (v : list A) (z : A) :
  nth_error v last = Some z ->
  Permutation (unguarded_linear_insert_loop less val last v) (store last val v).
Proof.
  revert v z. induction last as [|next IH]; intros v z H;
    cbn [unguarded_linear_insert_loop].
  - apply Permutation_refl.
  - destruct (nth_error v next) as [x|] eqn:Hx; [|apply Permutation_refl].
    destruct (less val x); [|apply Permutation_refl].
    destruct (nth_error_store_in_range (S next) next x x v Hx) as [z' Hz'].
    eapply perm_trans; [eapply IH, Hz'|].
    eapply store_move; eassumption.
Qed.

Lemma unguarded_linear_insert_perm (last : nat) (v : list A) :
  Permutation (__unguarded_linear_insert less last v) v.
Proof.
  unfold __unguarded_linear_insert.
  destruct (nth_error v last) as [val|] eqn:H; [|apply Permutation_refl].
  eapply perm_trans; [eapply unguarded_linear_insert_loop_perm, H|].
  rewrite store_same by exact H. apply Permutation_refl.
Qed.

Lemma skipn_nth_error (i : nat) (x : A) (v : list A) :
  nth_error v i = Some x -> skipn i v = x :: skipn (S i) v.
Proof.
  revert i. induction v as [|y v IH]; intros [|i] H; simpl in *; try discriminate.
  - congruence.
  - apply IH, H.
Qed.

Lemma insertion_sort_step_perm (first i : nat) (v : list A) :
  (first <= i)%nat -> Permutation (insertion_sort_step less first i v) v.
Proof.
  intros Le. unfold insertion_sort_step.
  destruct (nth_error v i) as [val|] eqn:Hi; [|apply Permutation_refl].
  destruct (nth_error v first) as [f|]; [|apply Permutation_refl].
  destruct (less val f); [|apply unguarded_linear_insert_perm].
  rewrite <- (firstn_skipn first v) at 4.
  apply Permutation_app_head.
  rewrite <- (firstn_skipn (i - first) (skipn first v)) at 2.
  rewrite skipn_skipn. replace (i - first + first)%nat with i by lia.
  rewrite (skipn_nth_error i val v Hi).
  apply Permutation_middle.
Qed.

Lemma insertion_sort_perm (first last : nat) (v : list A) :
  Permutation (__insertion_sort less first last v) v.
Proof.
  unfold __insertion_sort. destruct (first =? last)%nat; [apply Permutation_refl|].
  generalize (last - (first + 1))%nat. intros k.
  assert (G : forall s, (first <= s)%nat ->
            Permutation (fold_left (fun v i => insertion_sort_step less first i v)
                           (seq s k) v) v).
  { revert v. induction k as [|k IH]; intros v s Hs; simpl.
    - apply Permutation_refl.
    - eapply perm_trans; [apply IH; lia | apply insertion_sort_step_perm, Hs]. }
  apply G. lia.
Qed.

Lemma unguarded_insertion_sort_perm (first last : nat) (v : list A) :
  Permutation (__unguarded_insertion_sort less first last v) v.
Proof.
  unfold __unguarded_insertion_sort. apply fold_left_perm.
  intros. apply unguarded_linear_insert_perm.
Qed.

Lemma final_insertion_sort_perm (first last : nat) (v : list A) :
  Permutation (__final_insertion_sort less first last v) v.
Proof.
  unfold __final_insertion_sort. destruct (_ <? _)%nat.
  - eapply perm_trans; [apply unguarded_insertion_sort_perm | apply insertion_sort_perm].
  - apply insertion_sort_perm.
Qed.

Lemma std_sort_perm (l : list A) : Permutation (std_sort less l) l.
Proof.
  unfold std_sort, __sort. destruct (0 =? length l)%nat; [apply Permutation_refl|].
  eapply perm_trans; [apply final_insertion_sort_perm | apply introsort_loop_perm].
Qed.

Lemma std_sort_length (l : list A) : length (std_sort less l) = length l.
Proof. apply Permutation_length, std_sort_perm. Qed.

(** *** The final insertion sort sorts *)

Lemma linear_insert_snoc_less (val x : A) (pre : list A) :
  less val x = true ->
  linear_insert less val (pre ++ [x]) = linear_insert less val pre ++ [x].
Proof.
  intros L. induction pre as [|y pre IH]; cbn [linear_insert app].
  - cbn. rewrite L. reflexivity.
  - cbn [forallb]. rewrite forallb_app. cbn [forallb]. rewrite L, andb_true_r.
    destruct (less val y && forallb (less val) pre); [reflexivity|].
    rewrite IH. reflexivity.
Qed.

Lemma linear_insert_snoc_stop (val x : A) (pre : list A) :
  less val x = false ->
  linear_insert less val (pre ++ [x]) = (pre ++ [x]) ++ [val].
Proof.
  intros L. induction pre as [|y pre IH]; cbn [linear_insert app].
  - cbn. rewrite L. reflexivity.
  - cbn [forallb]. rewrite forallb_app. cbn [forallb]. rewrite L.
    rewrite andb_false_l, !andb_false_r. rewrite IH. reflexivity.
Qed.

Lemma nth_error_length_app (pre post : list A) (h : A) :
  nth_error (pre ++ h :: post) (length pre) = Some h.
Proof. induction pre as [|y pre IH]; [reflexivity | exact IH]. Qed.

Lemma unguarded_linear_insert_loop_spec (val h : A) (pre post : list A) :
  unguarded_linear_insert_loop less val (length pre) (pre ++ h :: post) =
  (linear_insert less val pre ++ post)%list.
Proof.
  revert h post. induction pre as [|x pre IH] using rev_ind; intros h post.
  - reflexivity.
  - rewrite length_app. cbn [length]. rewrite Nat.add_1_r.
    cbn [unguarded_linear_insert_loop].
    rewrite <- app_assoc. cbn [app]. rewrite nth_error_length_app.
    destruct (less val x) eqn:L.
    + replace (store (S (length pre)) x (pre ++ x :: h :: post))
        with (pre ++ x :: x :: post).
      * rewrite IH, linear_insert_snoc_less by exact L.
        rewrite <- app_assoc. reflexivity.
      * change (pre ++ x :: h :: post) with (pre ++ [x] ++ h :: post).
        rewrite app_assoc.
        replace (S (length pre)) with (length (pre ++ [x]))
          by (rewrite length_app; cbn; lia).
        rewrite store_app, <- app_assoc. reflexivity.
    + rewrite linear_insert_snoc_stop by exact L.
      change (pre ++ x :: h :: post) with (pre ++ [x] ++ h :: post).
      rewrite app_assoc.
      replace (S (length pre)) with (length (pre ++ [x]))
        by (rewrite length_app; cbn; lia).
      rewrite store_app, <- !app_assoc. reflexivity.
Qed.

Lemma unguarded_linear_insert_spec (val : A) (pre post : list A) :
  __unguarded_linear_insert less (length pre) (pre ++ val :: post) =
  (linear_insert less val pre ++ post)%list.
Proof.
  unfold __unguarded_linear_insert. rewrite nth_error_length_app.
  apply unguarded_linear_insert_loop_spec.
Qed.

Lemma firstn_length_app (pre post : list A) : firstn (length pre) (pre ++ post) = pre.
Proof. induction pre as [|x pre IH]; cbn; [destruct post|rewrite IH]; reflexivity. Qed.

Lemma skipn_length_app (pre post : list A) : skipn (length pre) (pre ++ post) = post.
Proof. induction pre as [|x pre IH]; [reflexivity | exact IH]. Qed.

Lemma insertion_sort_step_spec (val f : A) (pre post : list A) :
  insertion_sort_step less 0 (S (length pre)) (f :: pre ++ val :: post) =
  ((if less val f then val :: f :: pre else linear_insert less val (f :: pre))
     ++ post)%list.
Proof.
  unfold insertion_sort_step.
  change (f :: pre ++ val :: post) with ((f :: pre) ++ val :: post).
  change (S (length pre)) with (length (f :: pre)).
  rewrite nth_error_length_app.
  change (nth_error ((f :: pre) ++ val :: post) 0) with (Some f).
  cbv beta iota.
  destruct (less val f).
  - rewrite Nat.sub_0_r.
    change (firstn 0 ((f :: pre) ++ val :: post)) with (@nil A).
    change (skipn 0 ((f :: pre) ++ val :: post)) with ((f :: pre) ++ val :: post).
    rewrite firstn_length_app.
    change (skipn (S (length (f :: pre))) ((f :: pre) ++ val :: post))
      with (skipn (length (f :: pre)) (pre ++ val :: post)).
    change (length (f :: pre)) with (S (length pre)).
    replace (S (length pre)) with (length (pre ++ [val]))
      by (rewrite length_app; cbn; lia).
    change (pre ++ val :: post) with (pre ++ [val] ++ post).
    rewrite app_assoc, skipn_length_app. reflexivity.
  - apply (unguarded_linear_insert_spec val (f :: pre) post).
Qed.

Lemma linear_insert_perm (val : A) (pre : list A) :
  Permutation (linear_insert less val pre) (val :: pre).
Proof.
  induction pre as [|x pre IH]; cbn [linear_insert].
  - apply Permutation_refl.
  - destruct (forallb _ _); [apply Permutation_refl|].
    apply perm_trans with (x :: val :: pre); [apply perm_skip, IH | apply perm_swap].
Qed.

Lemma linear_insert_length (val : A) (pre : list A) :
  length (linear_insert less val pre) = S (length pre).
Proof. apply (Permutation_length (linear_insert_perm val pre)). Qed.

(** The elements on which [less] is a strict weak ordering. *)
Variable dom : A -> Prop.
Hypothesis less_asym :
  forall a b, dom a -> dom b -> less a b = true -> less b a = false.
Hypothesis less_negtrans :
  forall a b c, dom a -> dom b -> dom c ->
    less b a = false -> less c b = false -> less c a = false.

Lemma linear_insert_ascending (val : A) (pre : list A) :
  dom val -> Forall dom pre -> ascending less pre ->
  ascending less (linear_insert less val pre).
Proof.
  intros Dv Dp S. induction S as [|x pre S IH F]; cbn [linear_insert].
  - constructor; constructor.
  - inversion Dp as [|? ? Dx Dp']; subst.
    destruct (forallb (less val) (x :: pre)) eqn:E.
    + constructor; [constructor; assumption|].
      rewrite forallb_forall in E. rewrite Forall_forall in Dp.
      apply Forall_forall. intros y Hy. apply less_asym; auto.
    + constructor; [apply IH, Dp'|].
      apply Permutation_Forall with (val :: pre);
        [apply Permutation_sym, linear_insert_perm|].
      constructor; [|exact F].
      cbn [forallb] in E. apply andb_false_iff in E. destruct E as [E|E]; [exact E|].
      assert (X : exists z, In z pre /\ less val z = false).
      { clear - E. induction pre as [|z pre IHp]; [discriminate|].
        cbn [forallb] in E. apply andb_false_iff in E. destruct E as [E|E].
        - exists z. split; [left; reflexivity | exact E].
        - destruct (IHp E) as (z' & I & L). exists z'. split; [right; exact I | exact L]. }
      destruct X as (z & I & L).
      rewrite Forall_forall in F, Dp'.
      apply less_negtrans with (b := z); auto.
Qed.

Lemma front_insert_ascending (val f : A) (pre : list A) :
  dom val -> Forall dom (f :: pre) -> ascending less (f :: pre) ->
  less val f = true -> ascending less (val :: f :: pre).
Proof.
  intros Dv Dp S L. constructor; [exact S|].
  inversion Dp as [|? ? Df Dp']; subst.
  inversion S as [|? ? S' F]; subst.
  assert (N : less f val = false) by (apply less_asym; auto).
  constructor; [exact N|].
  rewrite Forall_forall in *. intros x Hx.
  destruct (less x val) eqn:E; [|reflexivity].
  assert (C : less val f = false).
  { apply less_negtrans with (b := x); auto. }
  congruence.
Qed.

Lemma insertion_sort_fold_spec (k : nat) :
  forall (f : A) (pre post : list A),
    (k <= length post)%nat -> Forall dom (f :: pre ++ post) ->
    ascending less (f :: pre) ->
    exists sorted,
      fold_left (fun v i => insertion_sort_step less 0 i v)
        (seq (S (length pre)) k) (f :: pre ++ post) = (sorted ++ skipn k post)%list /\
      length sorted = (S (length pre) + k)%nat /\
      ascending less sorted.
Proof.
  induction k as [|k IH]; intros f pre post Hk D HS.
  - exists (f :: pre). cbn [seq fold_left skipn]. split; [reflexivity|].
    split; [cbn; lia | exact HS].
  - destruct post as [|val post]; [cbn in Hk; lia|].
    cbn [seq fold_left]. rewrite insertion_sort_step_spec.
    assert (Dv : dom val).
    { rewrite Forall_forall in D. apply D. right. apply in_or_app. right. left.
      reflexivity. }
    assert (Dp : Forall dom (f :: pre)).
    { change (f :: pre ++ val :: post) with ((f :: pre) ++ val :: post) in D.
      apply Forall_app in D. apply D. }
    assert (Dq : Forall dom post).
    { change (f :: pre ++ val :: post) with ((f :: pre) ++ val :: post) in D.
      apply Forall_app in D. destruct D as [_ D]. inversion D; assumption. }
    set (next := if less val f then val :: f :: pre
                 else linear_insert less val (f :: pre)).
    assert (N : ascending less next /\ Permutation next (val :: f :: pre)).
    { unfold next. destruct (less val f) eqn:L.
      - split; [apply front_insert_ascending; assumption | apply Permutation_refl].
      - split; [apply linear_insert_ascending; assumption | apply linear_insert_perm]. }
    destruct N as [Sn Pn].
    destruct next as [|f' pre'] eqn:En.
    { apply Permutation_nil in Pn. discriminate. }
    assert (Ln : length pre' = S (length pre)).
    { apply Permutation_length in Pn. cbn in Pn. lia. }
    destruct (IH f' pre' post) as (sorted & E & Ls & Ss).
    + cbn in Hk. lia.
    + change (f' :: pre' ++ post) with ((f' :: pre') ++ post).
      apply Forall_app. split; [|exact Dq].
      apply Permutation_Forall with (val :: f :: pre);
        [apply Permutation_sym, Pn | constructor; assumption].
    + exact Sn.
    + exists sorted. cbn [skipn]. rewrite <- Ln.
      change ((f' :: pre') ++ post) with (f' :: pre' ++ post).
      split; [exact E|]. split; [lia | exact Ss].
Qed.

Lemma unguarded_insertion_sort_fold_spec (k : nat) :
  forall (pre post : list A),
    (k <= length post)%nat -> Forall dom (pre ++ post) -> ascending less pre ->
    exists sorted,
      fold_left (fun v i => __unguarded_linear_insert less i v)
        (seq (length pre) k) (pre ++ post) = (sorted ++ skipn k post)%list /\
      length sorted = (length pre + k)%nat /\
      ascending less sorted.
Proof.
  induction k as [|k IH]; intros pre post Hk D HS.
  - exists pre. cbn [seq fold_left skipn]. split; [reflexivity|].
    split; [lia | exact HS].
  - destruct post as [|val post]; [cbn in Hk; lia|].
    cbn [seq fold_left]. rewrite unguarded_linear_insert_spec.
    apply Forall_app in D. destruct D as [Dp D].
    inversion D as [|? ? Dv Dq]; subst.
    destruct (IH (linear_insert less val pre) post) as (sorted & E & Ls & Ss).
    + cbn in Hk. lia.
    + apply Forall_app. split; [|exact Dq].
      apply Permutation_Forall with (val :: pre);
        [apply Permutation_sym, linear_insert_perm | constructor; assumption].
    + apply linear_insert_ascending; assumption.
    + rewrite linear_insert_length in E, Ls.
      exists sorted. cbn [skipn]. split; [exact E|]. split; [lia | exact Ss].
Qed.

Lemma insertion_sort_spec (last : nat) (v : list A) :
  (last <= length v)%nat -> Forall dom v ->
  exists sorted,
    __insertion_sort less 0 last v = (sorted ++ skipn last v)%list /\
    length sorted = last /\ ascending less sorted.
Proof.
  intros Hl D. unfold __insertion_sort.
  destruct last as [|k].
  - exists []. cbn. split; [reflexivity|]. split; [reflexivity | constructor].
  - cbn [Nat.eqb Nat.add]. rewrite Nat.sub_succ, Nat.sub_0_r.
    destruct v as [|f post]; [cbn in Hl; lia|].
    destruct (insertion_sort_fold_spec k f [] post) as (sorted & E & Ls & Ss).
    + cbn in Hl. lia.
    + exact D.
    + constructor; constructor.
    + exists sorted. cbn [skipn]. cbn [length app] in E, Ls.
      split; [exact E|]. split; [exact Ls | exact Ss].
Qed.

Lemma final_insertion_sort_ascending (v : list A) :
  Forall dom v -> ascending less (__final_insertion_sort less 0 (length v) v).
Proof.
  intros D. unfold __final_insertion_sort. rewrite Nat.sub_0_r. cbn [Nat.add].
  destruct (_S_threshold <? length v)%nat eqn:T.
  - apply Nat.ltb_lt in T.
    destruct (insertion_sort_spec _S_threshold v) as (sorted & E & Ls & Ss);
      [lia | exact D |].
    rewrite E. unfold __unguarded_insertion_sort.
    assert (Lk : length (skipn _S_threshold v) = (length v - _S_threshold)%nat)
      by apply length_skipn.
    destruct (unguarded_insertion_sort_fold_spec (length v - _S_threshold) sorted
                (skipn _S_threshold v)) as (all & E' & La & Sa).
    + lia.
    + rewrite <- E.
      apply Permutation_Forall with v;
        [apply Permutation_sym, insertion_sort_perm | exact D].
    + exact Ss.
    + rewrite Ls in E'. rewrite E'.
      rewrite skipn_all2 by lia. rewrite app_nil_r. exact Sa.
  - apply Nat.ltb_ge in T.
    destruct (insertion_sort_spec (length v) v) as (sorted & E & Ls & Ss);
      [lia | exact D |].
    rewrite E, skipn_all, app_nil_r. exact Ss.
Qed.

Lemma std_sort_ascending (l : list A) :
  Forall dom l -> ascending less (std_sort less l).
Proof.
  intros D. unfold std_sort, __sort.
  destruct (0 =? length l)%nat eqn:E.
  - apply Nat.eqb_eq in E. destruct l; [constructor | discriminate].
  - set (v := __introsort_loop less 0 (length l) (__lg (length l - 0) * 2) l).
    assert (P : Permutation v l) by apply introsort_loop_perm.
    rewrite <- (Permutation_length P).
    apply final_insertion_sort_ascending.
    apply Permutation_Forall with l; [apply Permutation_sym, P | exact D].
Qed.

End SortFacts.

(** On three elements [std::sort] is one insertion sort of two steps.
    Its result is sorted as soon as the comparator is a strict partial
    order: it need not be a strict weak ordering. *)
Section SortThree.
Context {A : Type}.
Variable less : A -> A -> bool.


Hypothesis less_asym : forall a b, less a b = true -> less b a = false.
Hypothesis less_trans :
  forall a b c, less a b = true -> less b c = true -> less a c = true.

End SortThree.

(** ** The two comparators are lexicographic *)

Lemma feq_true_flt (a b : float) : feq a b = true -> flt a b = false.
Proof.
  unfold feq, flt, SFeqb, SFltb.
  destruct (SFcompare a b) as [[| |]|]; intros; congruence.
Qed.

Lemma vertexLess_lex (p q : Vertex) :
  vertexLess p q = lexLess (key3 p) (key3 q).
Proof.
  unfold vertexLess, key3. simpl.
  rewrite andb_false_r, orb_false_r. reflexivity.
Qed.

Lemma firstDifference_lex (coord : Vertex -> float) (l r : list Vertex)
    (k1 k2 : list float) :
  length l = length r ->
  lexLess (map coord l ++ k1) (map coord r ++ k2) =
  match firstDifference coord l r with
  | Some b => b
  | None => lexLess k1 k2
  end.
Proof.
  revert r. induction l as [|p l IH]; intros [|q r] Hlen; try discriminate.
  - reflexivity.
  - simpl. unfold fne. destruct (feq (coord p) (coord q)) eqn:E; simpl.
    + rewrite (feq_true_flt _ _ E). simpl. apply IH. simpl in Hlen. congruence.
    + rewrite orb_false_r. reflexivity.
Qed.

Lemma triangleLess_lex (s t : Triangle) :
  triangleLess s t = lexLess (key9 s) (key9 t).
Proof.
  unfold triangleLess.
  change (key9 s) with
    (map vtx_z (vertices s) ++ map vtx_y (vertices s) ++ map vtx_x (vertices s) ++ []).
  change (key9 t) with
    (map vtx_z (vertices t) ++ map vtx_y (vertices t) ++ map vtx_x (vertices t) ++ []).
  rewrite !firstDifference_lex by reflexivity.
  reflexivity.
Qed.

Lemma orderedTriangle_key9 (t : Triangle) : orderedTriangle t -> ordered (key9 t).
Proof.
  unfold orderedTriangle, orderedVertex, ordered, key3, key9, vertices.
  intros H. repeat match goal with
  | H : Forall _ (_ :: _) |- _ => inversion H; clear H; subst
  end.
  repeat constructor; assumption.
Qed.

Lemma vertexLess_asym (p q : Vertex) :
  orderedVertex p -> orderedVertex q ->
  vertexLess p q = true -> vertexLess q p = false.
Proof. rewrite !vertexLess_lex. apply lexLess_asym. Qed.

Lemma vertexLess_negtrans (p q r : Vertex) :
  orderedVertex p -> orderedVertex q -> orderedVertex r ->
  vertexLess q p = false -> vertexLess r q = false -> vertexLess r p = false.
Proof.
  rewrite !vertexLess_lex. intros. apply lexLess_negtrans with (k2 := key3 q); auto.
Qed.



Lemma triangleLess_asym (s t : Triangle) :
  orderedTriangle s -> orderedTriangle t ->
  triangleLess s t = true -> triangleLess t s = false.
Proof.
  rewrite !triangleLess_lex. intros.
  apply lexLess_asym; auto using orderedTriangle_key9.
Qed.

Lemma triangleLess_negtrans (s t r : Triangle) :
  orderedTriangle s -> orderedTriangle t -> orderedTriangle r ->
  triangleLess t s = false -> triangleLess r t = false -> triangleLess r s = false.
Proof.
  rewrite !triangleLess_lex. intros.
  apply lexLess_negtrans with (k2 := key9 t); auto using orderedTriangle_key9.
Qed.

(** ** The transform stack *)

Lemma world_eta (w : World) :
  mkWorld (state w) (stack w) (triangles w) (reverseSortTriangles w) (drawn w) = w.
Proof. destruct w; reflexivity. Qed.

Lemma pop_snoc (w : World) (s : RenderState) (rest : list RenderState) :
  stack w = (rest ++ [s])%list ->
  pop w = Returns tt (set_stack rest (set_state s w)).
Proof.
  intros H. unfold pop, bind, gets, assertThat, modify, ret.
  rewrite H, length_app. simpl.
  replace (Nat.eqb (length rest + 1) 0) with false
    by (symmetry; apply Nat.eqb_neq; lia).
  simpl. unfold set_stack, set_state. simpl.
  rewrite H, removelast_last, last_last. reflexivity.
Qed.

(** C7.  [push()] immediately followed by [pop()] returns normally and
    leaves the whole world as it was: the current [RenderState] (transform,
    fill and stroke colours) is the one before the push, and the stack of
    saved states is unchanged, for every state and every stack contents. *)
Theorem push_pop_identity (w : World) :
  (push ;;; pop) w = Returns tt w.
Proof.
  unfold bind at 1. unfold push, modify.
  rewrite pop_snoc with (s := state w) (rest := stack w) by reflexivity.
  unfold set_stack, set_state. simpl. rewrite world_eta. reflexivity.
Qed.

(** C8.  With a non-empty stack, [pop()] makes the most recently pushed
    state (the back of the stack) the current state and removes it from
    the stack.  With an empty stack it ends the process with the assertion
    message, and it never returns; with a non-empty stack it always
    returns, so the failing branch cannot be taken. *)
Theorem pop_restores_or_aborts :
  (forall (w : World) (s : RenderState) (rest : list RenderState),
      stack w = (rest ++ [s])%list ->
      pop w = Returns tt (set_stack rest (set_state s w))) /\
  (forall w : World,
      stack w = [] ->
      pop w = Exits "PANIC: ASSERTION FAILED"%string w /\
      forall w', pop w <> Returns tt w') /\
  (forall w : World,
      stack w <> [] ->
      exists w', pop w = Returns tt w' /\ forall msg w'', pop w <> Exits msg w'').
Proof.
  split; [|split].
  - apply pop_snoc.
  - intros w H.
    assert (E : pop w = Exits "PANIC: ASSERTION FAILED"%string w).
    { unfold pop, bind, gets, assertThat, panic. rewrite H. reflexivity. }
    split; [exact E|]. intros w'. rewrite E. discriminate.
  - intros w H.
    destruct (exists_last H) as (rest & s & E).
    exists (set_stack rest (set_state s w)).
    rewrite (pop_snoc w s rest E). split; [reflexivity|]. discriminate.
Qed.

Lemma pop_restores_or_aborts_witness :
  let s := mkRenderState (translation f1 f0 f0) PEACH BLACK in
  let w := mkWorld initial_state [s] [] false [] in
  pop w = Returns tt (mkWorld s [] [] false []).
Proof.
  intros s w.
  exact (proj1 pop_restores_or_aborts w s [] eq_refl).
Defined.

(** ** Bounding boxes *)

Lemma std_min_infinity_r (a : float) : std_min a INFINITY = a.
Proof. destruct a as [[]|[]| |[]]; reflexivity. Qed.

Lemma std_max_neg_infinity_r (a : float) : std_max a (fneg INFINITY) = a.
Proof. destruct a as [[]|[]| |[]]; reflexivity. Qed.

Lemma std_min_infinity_l (a : float) :
  is_nan a = false -> std_min INFINITY a = a.
Proof. destruct a as [[]|[]| |[]]; intros; try discriminate; reflexivity. Qed.

Lemma std_max_neg_infinity_l (a : float) :
  is_nan a = false -> std_max (fneg INFINITY) a = a.
Proof. destruct a as [[]|[]| |[]]; intros; try discriminate; reflexivity. Qed.

Lemma std_min_infinity_l_inv (a : float) :
  std_min INFINITY a = a -> is_nan a = false.
Proof. destruct a as [[]|[]| |[]]; intros; try discriminate; reflexivity. Qed.

Lemma std_max_neg_infinity_l_inv (a : float) :
  std_max (fneg INFINITY) a = a -> is_nan a = false.
Proof. destruct a as [[]|[]| |[]]; intros; try discriminate; reflexivity. Qed.

(** C9 fails at a box with a NaN coordinate: [AABB_BOTTOM | a] and
    [AABB_TOP & a] do not return it, because [std::min] and [std::max]
    return their first argument when the comparison is false. *)
Lemma aabb_identity_counterexample :
  aabb_or AABB_BOTTOM nan_box <> nan_box /\
  aabb_and AABB_TOP nan_box <> nan_box.
Proof. split; discriminate. Qed.

(** C9.  [a | AABB_BOTTOM = a] and [a & AABB_TOP = a] hold for every box.
    With the constant on the left, [AABB_BOTTOM | a = a] and
    [AABB_TOP & a = a] hold for the boxes none of whose coordinates is NaN
    and fail for every other box: the constants are identity elements on
    one side only. *)
Theorem aabb_identity_elements (a : AABB) :
  (aabb_or a AABB_BOTTOM = a /\ aabb_and a AABB_TOP = a) /\
  (orderedAABB a -> aabb_or AABB_BOTTOM a = a /\ aabb_and AABB_TOP a = a) /\
  (~ orderedAABB a -> aabb_or AABB_BOTTOM a <> a /\ aabb_and AABB_TOP a <> a).
Proof.
  destruct a as [[x0 y0 z0 w0] [x1 y1 z1 w1]].
  unfold aabb_or, aabb_and, minPairwise, maxPairwise, AABB_BOTTOM, AABB_TOP,
    orderedAABB, orderedVector;
    cbn [aabb_min aabb_max vx vy vz vw].
  split; [|split].
  - rewrite !std_min_infinity_r, !std_max_neg_infinity_r. split; reflexivity.
  - intros [(? & ? & ? & ?) (? & ? & ? & ?)].
    rewrite !std_min_infinity_l, !std_max_neg_infinity_l by assumption.
    split; reflexivity.
  - intros N. split; intros E; apply N; injection E; intros;
      repeat split;
      first [ apply std_min_infinity_l_inv; assumption
            | apply std_max_neg_infinity_l_inv; assumption ].
Qed.

Lemma aabb_identity_elements_witness :
  let a := mkAABB (mkVector (of_Z 10) (of_Z 20) (of_Z 5) f1)
                  (mkVector (of_Z 30) (of_Z 40) (of_Z 7) f1) in
  (aabb_or AABB_BOTTOM a = a /\ aabb_and AABB_TOP a = a) /\
  (aabb_or AABB_BOTTOM nan_box <> nan_box /\ aabb_and AABB_TOP nan_box <> nan_box).
Proof.
  intros a. split.
  - apply (proj1 (proj2 (aabb_identity_elements a))).
    repeat split; reflexivity.
  - apply (proj2 (proj2 (aabb_identity_elements nan_box))).
    intros [(N & _) _]. discriminate N.
Defined.

(** ** Triangle submission *)

Lemma addTriangle_cases (color : Color) (ia ib ic : Vector)
    (u1 v1 u2 v2 u3 v3 : float) (w : World) :
  addTriangle color ia ib ic u1 v1 u2 v2 u3 v3 w =
  if behindCamera (transformed w ia) || behindCamera (transformed w ib)
     || behindCamera (transformed w ic)
  then Returns AABB_BOTTOM w
  else
    let a := projected w ia in
    let b := projected w ib in
    let c := projected w ic in
    if allLeft a b c || allRight a b c || allAbove a b c || allBelow a b c
    then Returns AABB_BOTTOM w
    else Returns (boundsOf a b c)
           (push_back_triangle (screenTriangle color a b c u1 v1 u2 v2 u3 v3) w).
Proof.
  unfold addTriangle, bind, gets, modify, ret, behindCamera, projected, transformed,
    allLeft, allRight, allAbove, allBelow.
  cbv beta zeta.
  repeat match goal with
  | |- context [if ?b then _ else _] => destruct b; try reflexivity
  end.
Qed.

(** The earlier demo's [addTriangle] does to the world what the later one
    does with the fill colour; it only returns nothing. *)
Lemma Part007_addTriangle_same (ia ib ic : Vector)
    (u1 v1 u2 v2 u3 v3 : float) (w : World) :
  Part007.addTriangle ia ib ic u1 v1 u2 v2 u3 v3 w =
  (addTriangle (fillColor (state w)) ia ib ic u1 v1 u2 v2 u3 v3 ;;; ret tt) w.
Proof.
  unfold Part007.addTriangle, addTriangle, bind, gets, modify, ret.
  cbv beta zeta.
  repeat match goal with
  | |- context [if ?b then _ else _] => destruct b; try reflexivity
  end.
Qed.

(** C3.  If at least one of the three transformed vertices has [w <= 0],
    the submission returns [AABB_BOTTOM] and the world, hence the pending
    batch that the next flush draws, is exactly what it was; this for
    every triangle and every current transform.  The earlier demo's
    submission leaves the world unchanged as well. *)
Theorem behind_camera_dropped (color : Color) (ia ib ic : Vector)
    (u1 v1 u2 v2 u3 v3 : float) (w : World) :
  fle (vw (transformed w ia)) f0 = true \/
  fle (vw (transformed w ib)) f0 = true \/
  fle (vw (transformed w ic)) f0 = true ->
  addTriangle color ia ib ic u1 v1 u2 v2 u3 v3 w = Returns AABB_BOTTOM w /\
  triangles (world_of (addTriangle color ia ib ic u1 v1 u2 v2 u3 v3 w)) = triangles w /\
  Part007.addTriangle ia ib ic u1 v1 u2 v2 u3 v3 w = Returns tt w.
Proof.
  intros H.
  assert (B : behindCamera (transformed w ia) || behindCamera (transformed w ib)
              || behindCamera (transformed w ic) = true).
  { unfold behindCamera. destruct H as [H | [H | H]]; rewrite H;
      rewrite ?orb_true_r; reflexivity. }
  assert (E : forall col, addTriangle col ia ib ic u1 v1 u2 v2 u3 v3 w
                          = Returns AABB_BOTTOM w).
  { intros col. rewrite addTriangle_cases, B. reflexivity. }
  split; [apply E|]. split.
  - rewrite E. reflexivity.
  - rewrite Part007_addTriangle_same. unfold bind. rewrite E. reflexivity.
Qed.

Lemma behind_camera_dropped_witness :
  let behind := mkVector (of_Z 10) (of_Z 10) (of_Z 5) (of_Z (-1)) in
  let front := mkVector (of_Z 10) (of_Z 20) (of_Z 5) f1 in
  addTriangle PEACH front behind front f0 f0 f0 f0 f0 f0 initial_world
    = Returns AABB_BOTTOM initial_world.
Proof.
  intros behind front.
  apply (behind_camera_dropped PEACH front behind front f0 f0 f0 f0 f0 f0 initial_world).
  right; left. vm_compute. reflexivity.
Defined.

Lemma fle_true_flt_false (a b : float) : fle a b = true -> flt b a = false.
Proof.
  intros H. destruct (fle_true_not_nan a b H) as [Ha Hb].
  apply (fle_klt a b Ha Hb) in H.
  destruct (flt b a) eqn:E; [|reflexivity].
  exfalso. rewrite <- keq_eq in H. to_keys. lia.
Qed.

(** With no vertex behind the camera, the triangle is kept exactly when
    none of the four boundary tests holds, and then it is appended with
    the projected coordinates as they are. *)
Lemma addTriangle_in_front (color : Color) (ia ib ic : Vector)
    (u1 v1 u2 v2 u3 v3 : float) (w : World) :
  behindCamera (transformed w ia) = false ->
  behindCamera (transformed w ib) = false ->
  behindCamera (transformed w ic) = false ->
  let a := projected w ia in
  let b := projected w ib in
  let c := projected w ic in
  addTriangle color ia ib ic u1 v1 u2 v2 u3 v3 w =
  if allLeft a b c || allRight a b c || allAbove a b c || allBelow a b c
  then Returns AABB_BOTTOM w
  else Returns (boundsOf a b c)
         (push_back_triangle (screenTriangle color a b c u1 v1 u2 v2 u3 v3) w).
Proof.
  intros Ha Hb Hc. rewrite addTriangle_cases, Ha, Hb, Hc. reflexivity.
Qed.

(** C4.  For a triangle none of whose transformed vertices has [w <= 0],
    with [a], [b], [c] its vertices after the perspective divide:
    if all three lie beyond one common boundary (all [x < 0], all
    [x > WIDTH], all [y < 0] or all [y > HEIGHT]) the submission appends
    nothing and returns [AABB_BOTTOM], in particular when all three have
    [x < 0]; if at least one vertex has [x >= 0] and the three are not all
    beyond any of the other boundaries, the triangle is appended to the
    back of the batch with the projected coordinates unchanged (no
    clipping) and its bounding box is returned.  The earlier demo's
    submission culls and appends in the same cases. *)
Theorem offscreen_cull_one_boundary (color : Color) (ia ib ic : Vector)
    (u1 v1 u2 v2 u3 v3 : float) (w : World) :
  behindCamera (transformed w ia) = false ->
  behindCamera (transformed w ib) = false ->
  behindCamera (transformed w ic) = false ->
  let a := projected w ia in
  let b := projected w ib in
  let c := projected w ic in
  (allLeft a b c = true \/ allRight a b c = true \/
   allAbove a b c = true \/ allBelow a b c = true ->
   addTriangle color ia ib ic u1 v1 u2 v2 u3 v3 w = Returns AABB_BOTTOM w /\
   Part007.addTriangle ia ib ic u1 v1 u2 v2 u3 v3 w = Returns tt w) /\
  (flt (vx a) f0 = true -> flt (vx b) f0 = true -> flt (vx c) f0 = true ->
   addTriangle color ia ib ic u1 v1 u2 v2 u3 v3 w = Returns AABB_BOTTOM w) /\
  (fle f0 (vx a) = true \/ fle f0 (vx b) = true \/ fle f0 (vx c) = true ->
   allRight a b c = false -> allAbove a b c = false -> allBelow a b c = false ->
   addTriangle color ia ib ic u1 v1 u2 v2 u3 v3 w =
     Returns (boundsOf a b c)
       (push_back_triangle (screenTriangle color a b c u1 v1 u2 v2 u3 v3) w) /\
   triangles (world_of (addTriangle color ia ib ic u1 v1 u2 v2 u3 v3 w)) =
     (triangles w ++ [screenTriangle color a b c u1 v1 u2 v2 u3 v3])%list /\
   Part007.addTriangle ia ib ic u1 v1 u2 v2 u3 v3 w =
     Returns tt
       (push_back_triangle
          (screenTriangle (fillColor (state w)) a b c u1 v1 u2 v2 u3 v3) w) /\
   triangles (world_of (Part007.addTriangle ia ib ic u1 v1 u2 v2 u3 v3 w)) =
     (triangles w ++
      [screenTriangle (fillColor (state w)) a b c u1 v1 u2 v2 u3 v3])%list).
Proof.
  intros Ha Hb Hc a b c.
  assert (Culled : allLeft a b c || allRight a b c || allAbove a b c
                   || allBelow a b c = true ->
                   forall col, addTriangle col ia ib ic u1 v1 u2 v2 u3 v3 w
                               = Returns AABB_BOTTOM w).
  { intros T col. rewrite addTriangle_in_front by assumption.
    fold a b c. rewrite T. reflexivity. }
  split; [|split].
  - intros H.
    assert (T : allLeft a b c || allRight a b c || allAbove a b c
                || allBelow a b c = true).
    { destruct H as [H | [H | [H | H]]]; rewrite H; rewrite ?orb_true_r; reflexivity. }
    split; [apply Culled, T|].
    rewrite Part007_addTriangle_same. unfold bind.
    rewrite (Culled T). reflexivity.
  - intros Xa Xb Xc. apply Culled.
    unfold allLeft. rewrite Xa, Xb, Xc. reflexivity.
  - intros X R A B.
    assert (L : allLeft a b c = false).
    { unfold allLeft.
      destruct X as [X | [X | X]]; apply fle_true_flt_false in X; rewrite X;
        rewrite ?andb_false_r; reflexivity. }
    assert (Kept : forall col, addTriangle col ia ib ic u1 v1 u2 v2 u3 v3 w =
              Returns (boundsOf a b c)
                (push_back_triangle (screenTriangle col a b c u1 v1 u2 v2 u3 v3) w)).
    { intros col. rewrite addTriangle_in_front by assumption.
      fold a b c. rewrite L, R, A, B. reflexivity. }
    assert (Kept7 : Part007.addTriangle ia ib ic u1 v1 u2 v2 u3 v3 w =
              Returns tt
                (push_back_triangle
                   (screenTriangle (fillColor (state w)) a b c u1 v1 u2 v2 u3 v3) w)).
    { rewrite Part007_addTriangle_same. unfold bind. rewrite Kept. reflexivity. }
    split; [apply Kept|]. split; [rewrite Kept; reflexivity|].
    split; [exact Kept7|]. rewrite Kept7. reflexivity.
Qed.

(** A triangle that straddles [x = 0]: one vertex at [x = -50], two on
    screen.  It is appended with the negative [x] kept. *)
Lemma offscreen_cull_one_boundary_witness :
  let ia := mkVector (of_Z (-50)) (of_Z 100) (of_Z 5) f1 in
  let ib := mkVector (of_Z 200) (of_Z 100) (of_Z 5) f1 in
  let ic := mkVector (of_Z 150) (of_Z 50) (of_Z 5) f1 in
  triangles (world_of (addTriangle PEACH ia ib ic f0 f0 f0 f0 f0 f0 initial_world)) =
    [mkTriangle (mkVertex (of_Z (-50)) (of_Z 100) (of_Z 5) PEACH f0 f0)
                (mkVertex (of_Z 200) (of_Z 100) (of_Z 5) PEACH f0 f0)
                (mkVertex (of_Z 150) (of_Z 50) (of_Z 5) PEACH f0 f0)].
Proof.
  intros ia ib ic.
  refine (proj1 (proj2 (proj2 (proj2
    (offscreen_cull_one_boundary PEACH ia ib ic f0 f0 f0 f0 f0 f0 initial_world
       _ _ _)) _ _ _ _))).
  - vm_compute; reflexivity.
  - vm_compute; reflexivity.
  - vm_compute; reflexivity.
  - right; left. vm_compute; reflexivity.
  - vm_compute; reflexivity.
  - vm_compute; reflexivity.
  - vm_compute; reflexivity.
Defined.

(** Counterexample to C2 as stated.  The three vertices below are all off screen and
    surround it: one beyond the left and top edges, one beyond the right
    and top edges, one beyond the bottom edge; no edge has all three
    beyond it.  The submission appends the triangle. *)
Lemma surrounding_triangle_counterexample :
  let ia := mkVector (of_Z (-100)) (of_Z (-100)) (of_Z 5) f1 in
  let ib := mkVector (of_Z 900) (of_Z (-100)) (of_Z 5) f1 in
  let ic := mkVector (of_Z 400) (of_Z 2000) (of_Z 5) f1 in
  let w := initial_world in
  let a := projected w ia in
  let b := projected w ib in
  let c := projected w ic in
  behindCamera (transformed w ia) = false /\
  behindCamera (transformed w ib) = false /\
  behindCamera (transformed w ic) = false /\
  offScreen a = true /\ offScreen b = true /\ offScreen c = true /\
  allLeft a b c = false /\ allRight a b c = false /\
  allAbove a b c = false /\ allBelow a b c = false /\
  triangles w = [] /\
  triangles (world_of (addTriangle PEACH ia ib ic f0 f0 f0 f0 f0 f0 w))
    = [screenTriangle PEACH ia ib ic f0 f0 f0 f0 f0 f0].
Proof. vm_compute. repeat split. Qed.

(** C2, amended.  A triangle with no vertex behind the camera whose three
    projected vertices are all off screen, but not all three beyond any
    single boundary, is not culled: it is appended to the back of the
    pending batch and its bounding box is returned. *)
Theorem surrounding_triangle_kept (color : Color) (ia ib ic : Vector)
    (u1 v1 u2 v2 u3 v3 : float) (w : World) :
  behindCamera (transformed w ia) = false ->
  behindCamera (transformed w ib) = false ->
  behindCamera (transformed w ic) = false ->
  let a := projected w ia in
  let b := projected w ib in
  let c := projected w ic in
  offScreen a = true -> offScreen b = true -> offScreen c = true ->
  allLeft a b c = false -> allRight a b c = false ->
  allAbove a b c = false -> allBelow a b c = false ->
  addTriangle color ia ib ic u1 v1 u2 v2 u3 v3 w =
    Returns (boundsOf a b c)
      (push_back_triangle (screenTriangle color a b c u1 v1 u2 v2 u3 v3) w) /\
  triangles (world_of (addTriangle color ia ib ic u1 v1 u2 v2 u3 v3 w)) =
    (triangles w ++ [screenTriangle color a b c u1 v1 u2 v2 u3 v3])%list.
Proof.
  intros Ha Hb Hc a b c _ _ _ L R A B.
  assert (E : addTriangle color ia ib ic u1 v1 u2 v2 u3 v3 w =
    Returns (boundsOf a b c)
      (push_back_triangle (screenTriangle color a b c u1 v1 u2 v2 u3 v3) w)).
  { rewrite addTriangle_in_front by assumption.
    fold a b c. rewrite L, R, A, B. reflexivity. }
  split; [exact E|]. rewrite E. reflexivity.
Qed.

Lemma surrounding_triangle_kept_witness :
  let ia := mkVector (of_Z (-100)) (of_Z (-100)) (of_Z 5) f1 in
  let ib := mkVector (of_Z 900) (of_Z (-100)) (of_Z 5) f1 in
  let ic := mkVector (of_Z 400) (of_Z 2000) (of_Z 5) f1 in
  triangles (world_of (addTriangle PEACH ia ib ic f0 f0 f0 f0 f0 f0 initial_world)) =
    [screenTriangle PEACH (projected initial_world ia) (projected initial_world ib)
       (projected initial_world ic) f0 f0 f0 f0 f0 f0].
Proof.
  intros ia ib ic.
  refine (proj2 (surrounding_triangle_kept PEACH ia ib ic f0 f0 f0 f0 f0 f0
            initial_world _ _ _ _ _ _ _ _ _ _)); vm_compute; reflexivity.
Defined.

(** ** The divisor of the perspective divide *)

Lemma fle_false_feq_false (a b : float) : fle a b = false -> feq a b = false.
Proof.
  unfold fle, feq, SFleb, SFeqb.
  destruct (SFcompare a b) as [[| |]|]; intros; congruence.
Qed.

(** A float that is not [<= 0] is either [> 0] or NaN. *)
Lemma fle_false_positive_or_nan (a : float) :
  fle a f0 = false -> flt f0 a = true \/ is_nan a = true.
Proof. destruct a as [[]|[]| |[]]; simpl; intros; try discriminate; auto. Qed.

Lemma perspectiveDivide_checked_some (p : Vector) :
  fle (vw p) f0 = false ->
  perspectiveDivide_checked p = Some (perspectiveDivide p).
Proof.
  intros H. unfold perspectiveDivide_checked, fdiv_checked.
  rewrite (fle_false_feq_false _ _ H). reflexivity.
Qed.

Lemma perspectiveDivide_checked_none (p : Vector) :
  feq (vw p) f0 = true -> perspectiveDivide_checked p = None.
Proof.
  intros H. unfold perspectiveDivide_checked, fdiv_checked. rewrite H. reflexivity.
Qed.

(** C10.  Running [addTriangle] with every division guarded never meets a
    divisor equal to zero and gives the result of [addTriangle] itself,
    for every input and every current transform.  The divides are reached
    only when the test [w <= 0] has failed for all three transformed
    vertices, and then each divisor [w] is different from zero: it is
    greater than zero, or it is NaN. *)
Theorem perspective_divide_nonzero_divisor (color : Color) (ia ib ic : Vector)
    (u1 v1 u2 v2 u3 v3 : float) (w : World) :
  addTriangle_checked color ia ib ic u1 v1 u2 v2 u3 v3 w
    = Some (addTriangle color ia ib ic u1 v1 u2 v2 u3 v3 w) /\
  (behindCamera (transformed w ia) || behindCamera (transformed w ib)
   || behindCamera (transformed w ic) = false ->
   Forall (fun d => feq d f0 = false /\ (flt f0 d = true \/ is_nan d = true))
     [vw (transformed w ia); vw (transformed w ib); vw (transformed w ic)] /\
   perspectiveDivide_checked (transformed w ia) = Some (projected w ia) /\
   perspectiveDivide_checked (transformed w ib) = Some (projected w ib) /\
   perspectiveDivide_checked (transformed w ic) = Some (projected w ic)).
Proof.
  split.
  - rewrite addTriangle_cases.
    unfold addTriangle_checked, behindCamera, projected, transformed.
    cbv zeta.
    destruct (fle (vw (mulMV (transform (state w)) ia)) f0) eqn:Ea; [reflexivity|].
    destruct (fle (vw (mulMV (transform (state w)) ib)) f0) eqn:Eb; [reflexivity|].
    destruct (fle (vw (mulMV (transform (state w)) ic)) f0) eqn:Ec; [reflexivity|].
    rewrite !perspectiveDivide_checked_some by assumption.
    cbv [orb].
    unfold allLeft, allRight, allAbove, allBelow.
    repeat match goal with
    | |- context [if ?b then _ else _] => destruct b; try reflexivity
    end.
  - unfold behindCamera, projected. intros H.
    apply orb_false_iff in H. destruct H as [H Hc].
    apply orb_false_iff in H. destruct H as [Ha Hb].
    split.
    + assert (D : forall d, fle d f0 = false ->
                  feq d f0 = false /\ (flt f0 d = true \/ is_nan d = true)).
      { intros d Hd. split;
          [apply fle_false_feq_false | apply fle_false_positive_or_nan]; exact Hd. }
      constructor; [apply D, Ha|].
      constructor; [apply D, Hb|].
      constructor; [apply D, Hc|]. constructor.
    + auto using perspectiveDivide_checked_some.
Qed.

Lemma perspective_divide_nonzero_divisor_witness :
  let ia := mkVector (of_Z 100) (of_Z 100) (of_Z 5) (of_Z 2) in
  let ib := mkVector (of_Z 200) (of_Z 100) (of_Z 5) (of_Z 4) in
  let ic := mkVector (of_Z 150) (of_Z 50) (of_Z 5) f1 in
  Forall (fun d => feq d f0 = false /\ (flt f0 d = true \/ is_nan d = true))
    [of_Z 2; of_Z 4; f1].
Proof.
  intros ia ib ic.
  refine (proj1 (proj2
    (perspective_divide_nonzero_divisor PEACH ia ib ic f0 f0 f0 f0 f0 f0 initial_world)
    _)).
  vm_compute; reflexivity.
Defined.

(** ** flush *)

Lemma sortVertices_vertices (t : Triangle) :
  vertices (sortVertices t) = std_sort vertexLess (vertices t).
Proof.
  unfold sortVertices.
  pose proof (std_sort_length vertexLess (vertices t)) as L.
  destruct (std_sort vertexLess (vertices t)) as [|a [|b [|c [|d l]]]];
    try discriminate L.
  reflexivity.
Qed.

Lemma sortVertices_perm (t : Triangle) :
  Permutation (vertices (sortVertices t)) (vertices t).
Proof. rewrite sortVertices_vertices. apply std_sort_perm. Qed.

Lemma sortVertices_ordered (t : Triangle) :
  orderedTriangle t -> orderedTriangle (sortVertices t).
Proof.
  unfold orderedTriangle. intros H.
  apply Permutation_Forall with (vertices t);
    [apply Permutation_sym, sortVertices_perm | exact H].
Qed.

Lemma sortVertices_ascending (t : Triangle) :
  orderedTriangle t ->
  StronglySorted (fun p q => lexLess (key3 q) (key3 p) = false)
    (vertices (sortVertices t)).
Proof.
  intros H. rewrite sortVertices_vertices.
  pose proof (std_sort_ascending vertexLess orderedVertex
                vertexLess_asym vertexLess_negtrans (vertices t) H) as S.
  unfold ascending in S.
  eapply StronglySorted_ind with (P := fun l =>
    StronglySorted (fun p q => lexLess (key3 q) (key3 p) = false) l);
    [constructor | | exact S].
  intros a l _ IH F. constructor; [exact IH|].
  rewrite Forall_forall in *. intros q Hq.
  rewrite <- vertexLess_lex. apply F, Hq.
Qed.


Lemma flush_empty (backend : DrawCall -> Z) (lastError : string) (w : World) :
  triangles w = [] -> flush backend lastError w = Returns 0%nat w.
Proof.
  intros H. unfold flush, bind, gets, ret. rewrite H. reflexivity.
Qed.

Lemma submission_length (w : World) :
  length (submission w) = length (triangles w).
Proof.
  unfold submission, sortedBatch.
  destruct (reverseSortTriangles w);
    rewrite ?length_rev, std_sort_length, length_map; reflexivity.
Qed.

Lemma flush_nonempty (backend : DrawCall -> Z) (lastError : string) (w : World) :
  triangles w <> [] ->
  flush backend lastError w =
  let call := drawCallOf (submission w) in
  if backend call =? 0
  then Returns (length (triangles w)) (set_triangles [] (log_draw call w))
  else Exits ("ERROR SDL_RenderGeometryRaw: " ++ lastError)%string
         (log_draw call (set_triangles (submission w) w)).
Proof.
  intros H.
  pose proof (submission_length w) as L.
  unfold flush, bind, gets, modify, ret, sdlError, submission, sortedBatch,
    drawCallOf in *.
  destruct w as [st stk ts rv log]. cbn [triangles reverseSortTriangles] in *.
  destruct ts as [|t ts]; [contradiction H; reflexivity|].
  cbn [length Nat.eqb].
  unfold set_triangles, log_draw.
  cbn [triangles reverseSortTriangles state stack drawn].
  destruct rv; cbn [triangles reverseSortTriangles state stack drawn];
    destruct (backend _ =? 0); cbn [negb];
    cbn [triangles reverseSortTriangles state stack drawn];
    rewrite ?L; reflexivity.
Qed.

(** The later demo: on an empty batch [flush] returns 0 at once; the world,
    with the log of backend calls, is what it was. *)
Lemma flush_empty_noop (backend : DrawCall -> Z) (lastError : string) (w : World) :
  triangles w = [] ->
  flush backend lastError w = Returns 0%nat w /\
  drawn (world_of (flush backend lastError w)) = drawn w.
Proof.
  intros H. rewrite (flush_empty backend lastError w H). split; reflexivity.
Qed.

(** C1 fails in the earlier demo: on an empty batch its [flush] does call
    the backend, with an empty buffer and a vertex count of zero.  If the
    backend reports an error the process ends; otherwise 0 is returned,
    with the call made and logged.  The frame [culled_frame] reaches this
    call from the initial world. *)
Theorem Part007_flush_empty_calls_backend (backend : DrawCall -> Z) (lastError : string)
    (st : RenderState) (stk : list RenderState) (rv : bool) (log : list DrawCall) :
  let w := mkWorld st stk [] rv log in
  let call := mkDrawCall [] 0 in
  Part007.flush backend lastError w =
    (if backend call =? 0
     then Returns 0%nat (log_draw call w)
     else Exits ("ERROR SDL_RenderGeometryRaw: " ++ lastError)%string (log_draw call w)) /\
  drawn (world_of (Part007.flush backend lastError w)) = (log ++ [call])%list /\
  drawn (world_of (culled_frame backend lastError initial_world)) = [call].
Proof.
  intros w call.
  assert (E : Part007.flush backend lastError w =
    (if backend call =? 0
     then Returns 0%nat (log_draw call w)
     else Exits ("ERROR SDL_RenderGeometryRaw: " ++ lastError)%string (log_draw call w))).
  { unfold Part007.flush, bind, gets, modify, ret, sdlError, w, call.
    cbn. destruct (backend {| dc_buffer := []; dc_num_vertices := 0 |} =? 0);
      reflexivity. }
  split; [exact E|]. split.
  - rewrite E. destruct (backend call =? 0); reflexivity.
  - unfold culled_frame, Part007.flush, bind, gets, modify, ret, sdlError, push, pop,
      assertThat, call.
    cbn. destruct (backend {| dc_buffer := []; dc_num_vertices := 0 |} =? 0);
      reflexivity.
Qed.

Lemma flush_draws_submission (backend : DrawCall -> Z) (lastError : string) (w : World) :
  triangles w <> [] ->
  drawn (world_of (flush backend lastError w)) = (drawn w ++ [drawCallOf (submission w)])%list.
Proof.
  intros H. rewrite (flush_nonempty backend lastError w H). cbv zeta.
  destruct (backend _ =? 0); reflexivity.
Qed.

Lemma sortedBatch_perm (w : World) :
  Permutation (sortedBatch w) (map sortVertices (triangles w)).
Proof. apply std_sort_perm. Qed.

Lemma submission_perm (w : World) :
  Permutation (submission w) (map sortVertices (triangles w)).
Proof.
  unfold submission. destruct (reverseSortTriangles w).
  - apply perm_trans with (sortedBatch w).
    + apply Permutation_sym, Permutation_rev.
    + apply sortedBatch_perm.
  - apply sortedBatch_perm.
Qed.

Lemma sortedBatch_ascending (w : World) :
  Forall orderedTriangle (triangles w) ->
  StronglySorted (fun s t => lexLess (key9 t) (key9 s) = false) (sortedBatch w).
Proof.
  intros H. unfold sortedBatch.
  assert (O : Forall orderedTriangle (map sortVertices (triangles w))).
  { rewrite Forall_map. eapply Forall_impl; [|exact H].
    intros t. apply sortVertices_ordered. }
  pose proof (std_sort_ascending triangleLess orderedTriangle
                triangleLess_asym triangleLess_negtrans _ O) as S.
  unfold ascending in S.
  eapply StronglySorted_ind with (P := fun l =>
    StronglySorted (fun s t => lexLess (key9 t) (key9 s) = false) l);
    [constructor | | exact S].
  intros a l _ IH F. constructor; [exact IH|].
  rewrite Forall_forall in *. intros q Hq.
  rewrite <- triangleLess_lex. apply F, Hq.
Qed.



Lemma sortedBatch_ascending_triangleLess (w : World) :
  Forall orderedTriangle (triangles w) -> ascending triangleLess (sortedBatch w).
Proof.
  intros H. unfold sortedBatch.
  apply (std_sort_ascending triangleLess orderedTriangle
           triangleLess_asym triangleLess_negtrans).
  rewrite Forall_map. eapply Forall_impl; [|exact H].
  intros t. apply sortVertices_ordered.
Qed.

(** C6 fails when a coordinate of the batch is NaN.  The comparator of the
    triangle sort is the lexicographic comparison of the key (z0, z1, z2,
    y0, y1, y2, x0, x1, x2).  A flush of a non-empty batch hands to the
    backend a permutation [S] of the (vertex-sorted) batch, reversed
    exactly when [reverseSortTriangles] is set; when no coordinate in the
    batch is NaN, [S] is in ascending order of the key.  A triangle with a
    NaN coordinate is less than no other and no other is less than it,
    and the sort stops looking where it meets one: in the frame
    [nan_frame], which submits triangles at depths 1 and 3, a triangle
    with a NaN depth and a triangle at depth 2, the backend receives them
    in the order 1, 3, NaN, 2, the triangle at depth 2 after the one at
    depth 3. *)
Theorem flush_leaves_nan_batch_unsorted :
  (forall s t : Triangle, triangleLess s t = lexLess (key9 s) (key9 t)) /\
  (forall (backend : DrawCall -> Z) (lastError : string) (w : World),
      triangles w <> [] ->
      exists S,
        drawn (world_of (flush backend lastError w)) =
          (drawn w ++ [drawCallOf (if reverseSortTriangles w then rev S else S)])%list /\
        Permutation S (map sortVertices (triangles w)) /\
        (Forall orderedTriangle (triangles w) ->
         StronglySorted (fun s t => lexLess (key9 t) (key9 s) = false) S)) /\
  (forall (backend : DrawCall -> Z) (lastError : string),
      reverseSortTriangles nan_frame_world = false /\
      drawn (world_of (flush backend lastError nan_frame_world)) =
        [drawCallOf [depth_drawn (of_Z 1); depth_drawn (of_Z 3); nan_drawn;
                     depth_drawn (of_Z 2)]] /\
      lexLess (key9 (depth_drawn (of_Z 2))) (key9 (depth_drawn (of_Z 3))) = true /\
      ~ StronglySorted (fun s t => lexLess (key9 t) (key9 s) = false)
          [depth_drawn (of_Z 1); depth_drawn (of_Z 3); nan_drawn;
           depth_drawn (of_Z 2)]).
Proof.
  split; [|split].
  - apply triangleLess_lex.
  - intros backend lastError w N. exists (sortedBatch w). split; [|split].
    + apply flush_draws_submission, N.
    + apply sortedBatch_perm.
    + intros O. pose proof (sortedBatch_ascending_triangleLess w O) as A.
      unfold ascending in A.
      eapply StronglySorted_ind with (P := fun l =>
        StronglySorted (fun s t => lexLess (key9 t) (key9 s) = false) l);
        [constructor | | exact A].
      intros a l _ IH F. constructor; [exact IH|].
      rewrite Forall_forall in *. intros q Hq.
      rewrite <- triangleLess_lex. apply F, Hq.
  - intros backend lastError.
    assert (N : triangles nan_frame_world <> []) by (vm_compute; discriminate).
    assert (L : lexLess (key9 (depth_drawn (of_Z 2))) (key9 (depth_drawn (of_Z 3))) = true)
      by (vm_compute; reflexivity).
    split; [reflexivity|]. split; [|split; [exact L|]].
    + rewrite (flush_draws_submission backend lastError _ N).
      vm_compute. reflexivity.
    + intros A. inversion A as [|? ? A3 _]; subst.
      inversion A3 as [|? ? _ F3]; subst.
      inversion F3 as [|? ? _ F4]; subst.
      inversion F4 as [|? ? X _]; subst.
      vm_compute in X. discriminate.
Qed.

(** Two triangles without NaN, submitted far one first, with the reverse
    flag set: the backend receives the far one first. *)
Lemma flush_leaves_nan_batch_unsorted_witness :
  let w := mkWorld initial_state [] [far_triangle; near_triangle] true [] in
  exists S,
    drawn (world_of (flush (fun _ => 0) invalid_renderer w)) = [drawCallOf (rev S)] /\
    Permutation S [sortVertices far_triangle; sortVertices near_triangle] /\
    StronglySorted (fun s t => lexLess (key9 t) (key9 s) = false) S.
Proof.
  intros w.
  destruct (proj1 (proj2 flush_leaves_nan_batch_unsorted) (fun _ => 0) invalid_renderer w)
    as (S & D & P & A).
  - discriminate.
  - exists S. split; [exact D|]. split; [exact P|].
    apply A. repeat constructor.
Defined.

(** ** Shape builders *)

Lemma set_triangles_twice (l l' : list Triangle) (w : World) :
  set_triangles l (set_triangles l' w) = set_triangles l w.
Proof. reflexivity. Qed.

Lemma set_triangles_same (w : World) : set_triangles (triangles w) w = w.
Proof. destruct w; reflexivity. Qed.

Lemma addTriangle_appends (st : RenderState) (color : Color) (ia ib ic : Vector)
    (u1 v1 u2 v2 u3 v3 : float) :
  exists a ts,
    (length ts <= 1)%nat /\ Forall (coloredWith color) ts /\
    (ts = [] -> a = AABB_BOTTOM) /\
    appends (addTriangle color ia ib ic u1 v1 u2 v2 u3 v3) st a ts.
Proof.
  set (w0 := mkWorld st [] [] false []).
  pose proof (addTriangle_cases color ia ib ic u1 v1 u2 v2 u3 v3) as C.
  destruct (behindCamera (transformed w0 ia) || behindCamera (transformed w0 ib)
            || behindCamera (transformed w0 ic)) eqn:B.
  - exists AABB_BOTTOM, []. split; [simpl; lia|]. split; [constructor|].
    split; [reflexivity|].
    intros w Hw. exists []. split; [constructor|].
    rewrite C. unfold transformed in *. rewrite Hw. simpl in B. rewrite B.
    rewrite app_nil_r, set_triangles_same. reflexivity.
  - destruct (allLeft (projected w0 ia) (projected w0 ib) (projected w0 ic)
              || allRight (projected w0 ia) (projected w0 ib) (projected w0 ic)
              || allAbove (projected w0 ia) (projected w0 ib) (projected w0 ic)
              || allBelow (projected w0 ia) (projected w0 ib) (projected w0 ic)) eqn:K.
    + exists AABB_BOTTOM, []. split; [simpl; lia|]. split; [constructor|].
      split; [reflexivity|].
      intros w Hw. exists []. split; [constructor|].
      rewrite C. unfold projected, transformed in *. rewrite Hw.
      simpl in B, K. rewrite B. cbv zeta. rewrite K.
      rewrite app_nil_r, set_triangles_same. reflexivity.
    + exists (boundsOf (projected w0 ia) (projected w0 ib) (projected w0 ic)),
        [screenTriangle color (projected w0 ia) (projected w0 ib) (projected w0 ic)
           u1 v1 u2 v2 u3 v3].
      split; [simpl; lia|]. split.
      { constructor; [|constructor]. repeat constructor. }
      split; [discriminate|].
      intros w Hw. eexists. split; [apply Permutation_refl|].
      rewrite C. unfold projected, transformed in *. rewrite Hw.
      simpl in B, K. rewrite B. cbv zeta. rewrite K. reflexivity.
Qed.

Lemma appends_gets_state {A B : Type} (f : RenderState -> B) (k : B -> M A)
    (st : RenderState) (a : A) (ts : list Triangle) :
  appends (k (f st)) st a ts ->
  appends (x <- gets (fun w => f (state w)) ;; k x) st a ts.
Proof.
  intros H w Hw. destruct (H w Hw) as (ts' & P & E).
  exists ts'. split; [exact P|].
  unfold bind, gets. rewrite Hw. exact E.
Qed.

Lemma appends_orAABB (o : bool) (c1 c2 : M AABB) (st : RenderState)
    (a1 a2 : AABB) (t1 t2 : list Triangle) :
  appends c1 st a1 t1 -> appends c2 st a2 t2 ->
  appends (orAABB o c1 c2) st (aabb_or a1 a2) (t1 ++ t2).
Proof.
  intros H1 H2 w Hw. unfold orAABB. destruct o.
  - destruct (H1 w Hw) as (t1' & P1 & E1).
    destruct (H2 (set_triangles (triangles w ++ t1')%list w) Hw) as (t2' & P2 & E2).
    exists (t1' ++ t2')%list. split; [apply Permutation_app; assumption|].
    unfold bind, ret. rewrite E1, E2.
    rewrite set_triangles_twice. cbn [triangles set_triangles].
    rewrite app_assoc. reflexivity.
  - destruct (H2 w Hw) as (t2' & P2 & E2).
    destruct (H1 (set_triangles (triangles w ++ t2')%list w) Hw) as (t1' & P1 & E1).
    exists (t2' ++ t1')%list. split.
    + apply perm_trans with (t1' ++ t2')%list;
        [apply Permutation_app_comm | apply Permutation_app; assumption].
    + unfold bind, ret. rewrite E2, E1.
      rewrite set_triangles_twice. cbn [triangles set_triangles].
      rewrite app_assoc. reflexivity.
Qed.

(** Two runs that append permutations of the same list append
    permutations of each other. *)
Lemma appends_two_runs {A : Type} (c c' : M A) (a : A) (ts : list Triangle)
    (w : World) :
  appends c (state w) a ts -> appends c' (state w) a ts ->
  exists t1 t2,
    c w = Returns a (set_triangles (triangles w ++ t1)%list w) /\
    c' w = Returns a (set_triangles (triangles w ++ t2)%list w) /\
    Permutation t1 t2 /\ Permutation t1 ts.
Proof.
  intros H1 H2.
  destruct (H1 w eq_refl) as (t1 & P1 & E1).
  destruct (H2 w eq_refl) as (t2 & P2 & E2).
  exists t1, t2. repeat split; try assumption.
  apply perm_trans with ts; [exact P1 | apply Permutation_sym, P2].
Qed.

Lemma addFillRectangle_appends (st : RenderState) (a b c d : Vector) :
  exists r ts,
    (length ts <= 2)%nat /\ Forall (coloredWith (fillColor st)) ts /\
    (ts = [] -> r = AABB_BOTTOM) /\
    forall o, appends (addFillRectangle o a b c d) st r ts.
Proof.
  destruct (addTriangle_appends st (fillColor st) a b c f0 f0 f0_5 f0 f0_5 f0_5)
    as (r1 & t1 & L1 & C1 & E1 & A1).
  destruct (addTriangle_appends st (fillColor st) d a c f0 f0_5 f0 f0 f0_5 f0_5)
    as (r2 & t2 & L2 & C2 & E2 & A2).
  exists (aabb_or r1 r2), (t1 ++ t2)%list.
  split; [rewrite length_app; lia|].
  split; [apply Forall_app; split; assumption|].
  split.
  { intros N. apply app_eq_nil in N. destruct N as [N1 N2].
    rewrite (E1 N1), (E2 N2). reflexivity. }
  intros o. unfold addFillRectangle.
  apply appends_orAABB;
    apply (appends_gets_state fillColor
             (fun fill => addTriangle fill _ _ _ _ _ _ _ _ _)); assumption.
Qed.

Lemma addStrokeRectangle_appends (st : RenderState) (a b c d : Vector) :
  exists r ts,
    (length ts <= 2)%nat /\ Forall (coloredWith (strokeColor st)) ts /\
    (ts = [] -> r = AABB_BOTTOM) /\
    forall o, appends (addStrokeRectangle o a b c d) st r ts.
Proof.
  destruct (addTriangle_appends st (strokeColor st) a b c f0_5 f0_5 f1 f0_5 f1 f1)
    as (r1 & t1 & L1 & C1 & E1 & A1).
  destruct (addTriangle_appends st (strokeColor st) d a c f0_5 f1 f0_5 f0_5 f1 f1)
    as (r2 & t2 & L2 & C2 & E2 & A2).
  exists (aabb_or r1 r2), (t1 ++ t2)%list.
  split; [rewrite length_app; lia|].
  split; [apply Forall_app; split; assumption|].
  split.
  { intros N. apply app_eq_nil in N. destruct N as [N1 N2].
    rewrite (E1 N1), (E2 N2). reflexivity. }
  intros o. unfold addStrokeRectangle.
  apply appends_orAABB;
    apply (appends_gets_state strokeColor
             (fun stroke => addTriangle stroke _ _ _ _ _ _ _ _ _)); assumption.
Qed.

(** The chain of six rectangles of a box, given what each rectangle
    appends. *)
Ltac box_chain rectangle_appends st p1 p2 p3 p4 p5 p6 p7 p8 :=
  destruct (rectangle_appends st p1 p2 p3 p4) as (r1 & t1 & L1 & C1 & E1 & A1);
  destruct (rectangle_appends st p2 p6 p7 p3) as (r2 & t2 & L2 & C2 & E2 & A2);
  destruct (rectangle_appends st p6 p5 p8 p7) as (r3 & t3 & L3 & C3 & E3 & A3);
  destruct (rectangle_appends st p5 p1 p4 p8) as (r4 & t4 & L4 & C4 & E4 & A4);
  destruct (rectangle_appends st p5 p6 p2 p1) as (r5 & t5 & L5 & C5 & E5 & A5);
  destruct (rectangle_appends st p4 p3 p7 p8) as (r6 & t6 & L6 & C6 & E6 & A6);
  exists (aabb_or (aabb_or (aabb_or (aabb_or (aabb_or r1 r2) r3) r4) r5) r6),
    (((((t1 ++ t2) ++ t3) ++ t4) ++ t5) ++ t6)%list;
  split; [rewrite !length_app; lia|];
  split; [repeat (apply Forall_app; split); assumption|];
  split;
  [ let N := fresh "N" in
    intros N;
    repeat (apply app_eq_nil in N;
            let N' := fresh "N" in destruct N as [N N']);
    rewrite E1, E2, E3, E4, E5, E6 by assumption; reflexivity
  | intros o; repeat apply appends_orAABB; auto ].

Lemma addFillBox_appends (st : RenderState) (p1 p2 p3 p4 p5 p6 p7 p8 : Vector) :
  exists r ts,
    (length ts <= 12)%nat /\ Forall (coloredWith (fillColor st)) ts /\
    (ts = [] -> r = AABB_BOTTOM) /\
    forall o, appends (addFillBox o p1 p2 p3 p4 p5 p6 p7 p8) st r ts.
Proof. box_chain addFillRectangle_appends st p1 p2 p3 p4 p5 p6 p7 p8. Qed.

Lemma addStrokeBox_appends (st : RenderState) (p1 p2 p3 p4 p5 p6 p7 p8 : Vector) :
  exists r ts,
    (length ts <= 12)%nat /\ Forall (coloredWith (strokeColor st)) ts /\
    (ts = [] -> r = AABB_BOTTOM) /\
    forall o, appends (addStrokeBox o p1 p2 p3 p4 p5 p6 p7 p8) st r ts.
Proof. box_chain addStrokeRectangle_appends st p1 p2 p3 p4 p5 p6 p7 p8. Qed.

Lemma appends_ret {A : Type} (a : A) (st : RenderState) : appends (ret a) st a [].
Proof.
  intros w Hw. exists []. split; [constructor|].
  unfold ret. rewrite app_nil_r, set_triangles_same. reflexivity.
Qed.

Lemma addBox_appends (st : RenderState) :
  exists r ts,
    (length ts <= 24)%nat /\
    Forall (fun t => coloredWith (fillColor st) t \/ coloredWith (strokeColor st) t) ts /\
    (ca (fillColor st) = 0 -> Forall (coloredWith (strokeColor st)) ts /\ (length ts <= 12)%nat) /\
    (ca (strokeColor st) = 0 -> Forall (coloredWith (fillColor st)) ts /\ (length ts <= 12)%nat) /\
    (ca (fillColor st) = 0 -> ca (strokeColor st) = 0 -> r = AABB_BOTTOM /\ ts = []) /\
    (ts = [] -> r = AABB_BOTTOM) /\
    forall o, appends (addBox o) st r ts.
Proof.
  destruct (addFillBox_appends st
            (corner true false false f0_5) (corner false false false f0_5)
            (corner false true false f0_5) (corner true true false f0_5)
            (corner true false true f0_5) (corner false false true f0_5)
            (corner false true true f0_5) (corner true true true f0_5))
    as (rf & tf & Lf & Cf & Ef & Af).
  destruct (addStrokeBox_appends st
            (corner true false false f0_51) (corner false false false f0_51)
            (corner false true false f0_51) (corner true true false f0_51)
            (corner true false true f0_51) (corner false false true f0_51)
            (corner false true true f0_51) (corner true true true f0_51))
    as (rs & ts & Ls & Cs & Es & As).
  set (rf' := if ca (fillColor st) =? 0 then AABB_BOTTOM else rf).
  set (tf' := if ca (fillColor st) =? 0 then [] else tf).
  set (rs' := if ca (strokeColor st) =? 0 then AABB_BOTTOM else rs).
  set (ts' := if ca (strokeColor st) =? 0 then [] else ts).
  assert (Lf' : (length tf' <= 12)%nat)
    by (unfold tf'; destruct (ca (fillColor st) =? 0); simpl; lia).
  assert (Ls' : (length ts' <= 12)%nat)
    by (unfold ts'; destruct (ca (strokeColor st) =? 0); simpl; lia).
  assert (Cf' : Forall (coloredWith (fillColor st)) tf')
    by (unfold tf'; destruct (ca (fillColor st) =? 0); [constructor | assumption]).
  assert (Cs' : Forall (coloredWith (strokeColor st)) ts')
    by (unfold ts'; destruct (ca (strokeColor st) =? 0); [constructor | assumption]).
  exists (aabb_or rf' rs'), (tf' ++ ts')%list.
  split.
  { rewrite length_app. change 24%nat with (12 + 12)%nat.
    apply Nat.add_le_mono; assumption. }
  split.
  { apply Forall_app; split; eapply Forall_impl; try eassumption; simpl; auto. }
  split.
  { intros Z0. unfold tf'. rewrite Z0. simpl. auto. }
  split.
  { intros Z0. unfold ts'. rewrite Z0. rewrite app_nil_r. auto. }
  split.
  { intros Zf Zs. unfold rf', rs', tf', ts'. rewrite Zf, Zs. simpl. auto. }
  split.
  { intros N. apply app_eq_nil in N. destruct N as [N1 N2].
    assert (R1 : rf' = AABB_BOTTOM).
    { unfold rf', tf' in *. destruct (ca (fillColor st) =? 0); [reflexivity | auto]. }
    assert (R2 : rs' = AABB_BOTTOM).
    { unfold rs', ts' in *. destruct (ca (strokeColor st) =? 0); [reflexivity | auto]. }
    rewrite R1, R2. reflexivity. }
  intros o. unfold addBox. apply appends_orAABB.
  - apply (appends_gets_state (fun s => ca (fillColor s))
             (fun alpha => if alpha =? 0 then ret AABB_BOTTOM else _)).
    unfold rf', tf'. destruct (ca (fillColor st) =? 0);
      [apply appends_ret | apply Af].
  - apply (appends_gets_state (fun s => ca (strokeColor s))
             (fun alpha => if alpha =? 0 then ret AABB_BOTTOM else _)).
    unfold rs', ts'. destruct (ca (strokeColor st) =? 0);
      [apply appends_ret | apply As].
Qed.

(** X1.  Whatever operand of each [|] is evaluated first, [addFillRectangle]
    returns the same box and appends the same triangles, at most two, to
    the back of the batch, up to their order; each carries the current
    fill colour, and nothing else in the world changes. *)
Theorem addFillRectangle_order_independent (o o' : bool) (a b c d : Vector)
    (w : World) :
  exists r t1 t2,
    addFillRectangle o a b c d w = Returns r (set_triangles (triangles w ++ t1)%list w) /\
    addFillRectangle o' a b c d w = Returns r (set_triangles (triangles w ++ t2)%list w) /\
    Permutation t1 t2 /\ (length t1 <= 2)%nat /\
    Forall (coloredWith (fillColor (state w))) t1.
Proof.
  destruct (addFillRectangle_appends (state w) a b c d) as (r & ts & L & C & _ & A).
  destruct (appends_two_runs _ _ r ts w (A o) (A o')) as (t1 & t2 & E1 & E2 & P & Q).
  exists r, t1, t2. repeat split; try assumption.
  - rewrite (Permutation_length Q). exact L.
  - apply Permutation_Forall with ts; [apply Permutation_sym, Q | exact C].
Qed.

(** X2.  Whatever operand of each of its 23 [|] is evaluated first,
    [addBox] returns the same box and appends the same triangles, at most
    24, up to their order, each in the fill or the stroke colour; nothing
    else in the world changes.  A fill (stroke) colour of alpha 0 leaves
    at most 12 triangles, all in the other colour; with both alphas 0 the
    world is unchanged and [AABB_BOTTOM] is returned. *)
Theorem addBox_order_independent (o o' : AddBoxOrder) (w : World) :
  exists r t1 t2,
    addBox o w = Returns r (set_triangles (triangles w ++ t1)%list w) /\
    addBox o' w = Returns r (set_triangles (triangles w ++ t2)%list w) /\
    Permutation t1 t2 /\ (length t1 <= 24)%nat /\
    Forall (fun t => coloredWith (fillColor (state w)) t \/
                     coloredWith (strokeColor (state w)) t) t1 /\
    (ca (fillColor (state w)) = 0 ->
     Forall (coloredWith (strokeColor (state w))) t1 /\ (length t1 <= 12)%nat) /\
    (ca (strokeColor (state w)) = 0 ->
     Forall (coloredWith (fillColor (state w))) t1 /\ (length t1 <= 12)%nat) /\
    (ca (fillColor (state w)) = 0 -> ca (strokeColor (state w)) = 0 ->
     addBox o w = Returns AABB_BOTTOM w).
Proof.
  destruct (addBox_appends (state w)) as (r & ts & L & C & Zf & Zs & Zb & _ & A).
  destruct (appends_two_runs _ _ r ts w (A o) (A o')) as (t1 & t2 & E1 & E2 & P & Q).
  exists r, t1, t2.
  split; [exact E1|]. split; [exact E2|]. split; [exact P|].
  split; [rewrite (Permutation_length Q); exact L|].
  split; [apply Permutation_Forall with ts; [apply Permutation_sym, Q | exact C]|].
  split.
  { intros Z0. destruct (Zf Z0) as [F Le]. split.
    - apply Permutation_Forall with ts; [apply Permutation_sym, Q | exact F].
    - rewrite (Permutation_length Q). exact Le. }
  split.
  { intros Z0. destruct (Zs Z0) as [F Le]. split.
    - apply Permutation_Forall with ts; [apply Permutation_sym, Q | exact F].
    - rewrite (Permutation_length Q). exact Le. }
  intros Z1 Z2. destruct (Zb Z1 Z2) as [-> ->].
  apply Permutation_sym, Permutation_nil in Q. subst t1.
  rewrite E1, app_nil_r, set_triangles_same. reflexivity.
Qed.

Lemma addBox_order_independent_witness :
  let transparent := mkColor 0 0 0 0 in
  let w := mkWorld (mkRenderState IDENTITY transparent transparent) [] [] false [] in
  let o := mkBoxOrder true false true false true false true false true false true in
  addBox (mkAddBoxOrder false o o) w = Returns AABB_BOTTOM w.
Proof.
  intros transparent w o.
  destruct (addBox_order_independent (mkAddBoxOrder false o o) (mkAddBoxOrder true o o) w)
    as (r & t1 & t2 & _ & _ & _ & _ & _ & _ & _ & Z).
  apply Z; reflexivity.
Defined.

(** ** Scopes of the transform stack *)

Lemma set_stack_set_state_same (w1 : World) (k : list RenderState) (s : RenderState) :
  stack (set_stack k (set_state s w1)) = k /\
  state (set_stack k (set_state s w1)) = s /\
  triangles (set_stack k (set_state s w1)) = triangles w1 /\
  drawn (set_stack k (set_state s w1)) = drawn w1.
Proof. repeat split. Qed.

(** X3.  A scope [push(); body; pop()] whose body returns with the stack
    as it found it ends with the render state (transform and colours) and
    the stack that were there before the [push], whatever the body did to
    the state; the triangles the body submitted and the calls it made
    stay. *)
Theorem push_body_pop_restores {A : Type} (body : M A) (w w1 : World) (a : A) :
  body (set_stack (stack w ++ [state w])%list w) = Returns a w1 ->
  stack w1 = (stack w ++ [state w])%list ->
  (push ;;; body ;;; pop) w = Returns tt (set_stack (stack w) (set_state (state w) w1)).
Proof.
  intros B S. unfold bind at 1. unfold push, modify.
  unfold bind at 1. rewrite B.
  apply pop_snoc. exact S.
Qed.

Lemma push_body_pop_restores_witness :
  let m := translation (of_Z 10) (of_Z 20) (of_Z 0) in
  let body := setFillColor WHITE ;;; apply m in
  let w := mkWorld (mkRenderState IDENTITY PEACH BLACK) [] [] false [] in
  (push ;;; body ;;; pop) w = Returns tt w.
Proof.
  intros m body w.
  apply (push_body_pop_restores body w
           (mkWorld (mkRenderState (mulMM IDENTITY m) WHITE BLACK)
                    [mkRenderState IDENTITY PEACH BLACK] [] false []) tt);
    reflexivity.
Defined.

Lemma times_push (n : nat) (w : World) :
  times n push w = Returns tt (set_stack (stack w ++ repeat (state w) n)%list w).
Proof.
  revert w. induction n as [|n IH]; intros w.
  - simpl. unfold ret. rewrite app_nil_r. destruct w; reflexivity.
  - cbn [times]. unfold bind at 1. unfold push at 1, modify.
    rewrite IH. cbn [stack state set_stack].
    rewrite <- app_assoc. reflexivity.
Qed.

Lemma times_pop_all (l : list RenderState) :
  forall (k : list RenderState) (w : World),
    stack w = (k ++ l)%list -> l <> [] ->
    times (length l) pop w = Returns tt (set_stack k (set_state (hd (state w) l) w)).
Proof.
  induction l as [|x l IH] using rev_ind; intros k w S N; [contradiction N; reflexivity|].
  rewrite length_app, Nat.add_comm. cbn [length Nat.add times].
  unfold bind at 1.
  rewrite (pop_snoc w x (k ++ l)%list) by (rewrite S, app_assoc; reflexivity).
  destruct l as [|y l].
  - cbn [length times app hd]. unfold ret. rewrite app_nil_r. reflexivity.
  - rewrite (IH k); [reflexivity | reflexivity | discriminate].
Qed.

Lemma times_pop_short (n : nat) :
  forall w : World,
    (length (stack w) < n)%nat ->
    exists w', times n pop w = Exits "PANIC: ASSERTION FAILED"%string w'.
Proof.
  induction n as [|n IH]; intros w L; [lia|].
  cbn [times]. unfold bind at 1.
  destruct (stack w) as [|s0 k0] eqn:S.
  - exists w. unfold pop, bind, gets, assertThat, panic. rewrite S. reflexivity.
  - assert (N : stack w <> []) by (rewrite S; discriminate).
    destruct (exists_last N) as (rest & s & E).
    rewrite (pop_snoc w s rest E).
    apply IH. cbn [stack set_stack set_state].
    rewrite <- S, E, length_app in L. simpl in L. lia.
Qed.

(** X4.  Popping [n] times a stack that holds at least [n] saved states
    returns with the state that was saved [n] levels up (the earliest of
    the [n]) and with those [n] entries removed.  Popping more times than
    the stack has entries ends the process with the assertion message.
    In particular [n] pushes followed by [n] pops leave the world as it
    was. *)
Theorem pop_n_times :
  (forall (l k : list RenderState) (w : World),
      stack w = (k ++ l)%list -> l <> [] ->
      times (length l) pop w = Returns tt (set_stack k (set_state (hd (state w) l) w))) /\
  (forall (n : nat) (w : World),
      (length (stack w) < n)%nat ->
      exists w', times n pop w = Exits "PANIC: ASSERTION FAILED"%string w') /\
  (forall (n : nat) (w : World),
      (times n push ;;; times n pop) w = Returns tt w).
Proof.
  split; [|split].
  - intros l. apply times_pop_all.
  - apply times_pop_short.
  - intros n w. unfold bind. rewrite times_push.
    destruct n as [|n].
    + simpl. unfold ret. rewrite app_nil_r. destruct w; reflexivity.
    + replace (times (S n) pop)
        with (times (length (repeat (state w) (S n))) pop)
        by (rewrite repeat_length; reflexivity).
      rewrite (times_pop_all (repeat (state w) (S n)) (stack w));
        [| reflexivity | discriminate].
      cbn [repeat hd]. destruct w; reflexivity.
Qed.

Lemma pop_n_times_witness :
  let s1 := mkRenderState (translation f1 f0 f0) PEACH BLACK in
  let s2 := mkRenderState (scaling f1 f1 f1) WHITE BLACK in
  let w := mkWorld initial_state [s1; s2] [] false [] in
  times 2 pop w = Returns tt (mkWorld s1 [] [] false []) /\
  exists w', times 3 pop w = Exits "PANIC: ASSERTION FAILED"%string w'.
Proof.
  intros s1 s2 w. split.
  - apply (proj1 pop_n_times [s1; s2] [] w); [reflexivity | discriminate].
  - apply (proj1 (proj2 pop_n_times) 3%nat w). simpl. lia.
Defined.

(** ** What a submission returns and keeps *)

Lemma fle_kle (a b : float) :
  is_nan a = false -> is_nan b = false ->
  (fle a b = true <-> klt (fkey a) (fkey b) \/ keq (fkey a) (fkey b)).
Proof.
  intros Ha Hb. rewrite keq_eq. apply fle_klt; assumption.
Qed.

(** Prove [fle a b = true] between floats known not to be NaN from
    comparisons in the context. *)
Ltac fle_by_keys :=
  match goal with
  | |- fle ?a ?b = true =>
    apply (proj2 (fle_kle a b ltac:(assumption) ltac:(assumption)));
    to_keys; lia
  end.

Lemma std_min3_le (a b c : float) :
  is_nan a = false -> is_nan b = false -> is_nan c = false ->
  let m := std_min a (std_min b c) in
  fle m a = true /\ fle m b = true /\ fle m c = true.
Proof.
  intros Ha Hb Hc. unfold std_min.
  destruct (flt c b) eqn:E1.
  - destruct (flt c a) eqn:E2; repeat split; fle_by_keys.
  - destruct (flt b a) eqn:E2; repeat split; fle_by_keys.
Qed.

Lemma std_max3_ge (a b c : float) :
  is_nan a = false -> is_nan b = false -> is_nan c = false ->
  let m := std_max a (std_max b c) in
  fle a m = true /\ fle b m = true /\ fle c m = true.
Proof.
  intros Ha Hb Hc. unfold std_max.
  destruct (flt b c) eqn:E1.
  - destruct (flt a c) eqn:E2; repeat split; fle_by_keys.
  - destruct (flt a b) eqn:E2; repeat split; fle_by_keys.
Qed.

Lemma app_one_neq {A : Type} (l : list A) (a : A) : l <> (l ++ [a])%list.
Proof.
  intros E. apply (f_equal (@length A)) in E.
  rewrite length_app in E. simpl in E. lia.
Qed.

(** What [addTriangle] does, by cases: nothing, or one triangle more. *)
Lemma addTriangle_culled_or_kept (color : Color) (ia ib ic : Vector)
    (u1 v1 u2 v2 u3 v3 : float) (w : World) :
  addTriangle color ia ib ic u1 v1 u2 v2 u3 v3 w = Returns AABB_BOTTOM w \/
  (behindCamera (transformed w ia) = false /\
   behindCamera (transformed w ib) = false /\
   behindCamera (transformed w ic) = false /\
   allLeft (projected w ia) (projected w ib) (projected w ic) = false /\
   allRight (projected w ia) (projected w ib) (projected w ic) = false /\
   allAbove (projected w ia) (projected w ib) (projected w ic) = false /\
   allBelow (projected w ia) (projected w ib) (projected w ic) = false /\
   addTriangle color ia ib ic u1 v1 u2 v2 u3 v3 w =
     Returns (boundsOf (projected w ia) (projected w ib) (projected w ic))
       (push_back_triangle
          (screenTriangle color (projected w ia) (projected w ib) (projected w ic)
             u1 v1 u2 v2 u3 v3) w)).
Proof.
  rewrite addTriangle_cases.
  destruct (behindCamera (transformed w ia)); [left; reflexivity|].
  destruct (behindCamera (transformed w ib)); [left; reflexivity|].
  destruct (behindCamera (transformed w ic)); [left; reflexivity|].
  cbv zeta. cbn [orb].
  destruct (allLeft _ _ _); [left; reflexivity|].
  destruct (allRight _ _ _); [left; reflexivity|].
  destruct (allAbove _ _ _); [left; reflexivity|].
  destruct (allBelow _ _ _); [left; reflexivity|].
  right. repeat split.
Qed.

(** X5.  When a submission appends a triangle whose coordinates are not
    NaN, the box it returns contains the three vertices of that triangle:
    each x, y and z lies between the box's minimum and maximum. *)
Theorem addTriangle_bound_contains (color : Color) (ia ib ic : Vector)
    (u1 v1 u2 v2 u3 v3 : float) (w w' : World) (r : AABB) (t : Triangle) :
  addTriangle color ia ib ic u1 v1 u2 v2 u3 v3 w = Returns r w' ->
  triangles w' = (triangles w ++ [t])%list ->
  orderedTriangle t ->
  forallb (inBox r) (vertices t) = true.
Proof.
  intros E T O.
  destruct (addTriangle_culled_or_kept color ia ib ic u1 v1 u2 v2 u3 v3 w)
    as [C | (_ & _ & _ & _ & _ & _ & _ & K)].
  - rewrite C in E. injection E as <- <-.
    exfalso. exact (app_one_neq _ _ T).
  - rewrite K in E. injection E as <- <-.
    cbn [triangles push_back_triangle set_triangles] in T.
    apply app_inv_head in T. injection T as <-.
    set (a := projected w ia) in *. set (b := projected w ib) in *.
    set (c := projected w ic) in *.
    unfold orderedTriangle, orderedVertex, ordered, key3, vertices, screenTriangle in O.
    cbn in O.
    repeat match goal with
    | H : Forall _ (_ :: _) |- _ => inversion H; clear H; subst
    end.
    destruct (std_min3_le (vx a) (vx b) (vx c)) as (X1 & X2 & X3); try assumption.
    destruct (std_min3_le (vy a) (vy b) (vy c)) as (Y1 & Y2 & Y3); try assumption.
    destruct (std_min3_le (vz a) (vz b) (vz c)) as (Z1 & Z2 & Z3); try assumption.
    destruct (std_max3_ge (vx a) (vx b) (vx c)) as (X4 & X5 & X6); try assumption.
    destruct (std_max3_ge (vy a) (vy b) (vy c)) as (Y4 & Y5 & Y6); try assumption.
    destruct (std_max3_ge (vz a) (vz b) (vz c)) as (Z4 & Z5 & Z6); try assumption.
    unfold screenTriangle, vertices, inBox, boundsOf, minPairwise, maxPairwise.
    cbn [forallb vertex0 vertex1 vertex2 vtx_x vtx_y vtx_z aabb_min aabb_max vx vy vz].
    cbv zeta in X1, X2, X3, Y1, Y2, Y3, Z1, Z2, Z3, X4, X5, X6, Y4, Y5, Y6, Z4, Z5, Z6.
    rewrite X1, X2, X3, Y1, Y2, Y3, Z1, Z2, Z3, X4, X5, X6, Y4, Y5, Y6, Z4, Z5, Z6.
    reflexivity.
Qed.

Lemma addTriangle_bound_contains_witness :
  let ia := mkVector (of_Z 100) (of_Z 100) (of_Z 5) f1 in
  let ib := mkVector (of_Z 200) (of_Z 100) (of_Z 5) f1 in
  let ic := mkVector (of_Z 150) (of_Z 50) (of_Z 5) f1 in
  forallb (inBox (boundsOf ia ib ic))
    (vertices (screenTriangle PEACH ia ib ic f0 f0 f1 f0 f1 f1)) = true.
Proof.
  intros ia ib ic.
  apply (addTriangle_bound_contains PEACH ia ib ic f0 f0 f1 f0 f1 f1 initial_world
           (push_back_triangle (screenTriangle PEACH ia ib ic f0 f0 f1 f0 f1 f1)
              initial_world)).
  - vm_compute. reflexivity.
  - reflexivity.
  - repeat constructor.
Defined.

Lemma fdiv_nan_r (a : float) : fdiv a NAN = NAN.
Proof. destruct a; reflexivity. Qed.

(** X6.  A transformed [w] that is NaN is not caught by the test
    [w <= 0]: when the other two vertices are not behind the camera
    either, the triangle is appended to the back of the batch, and the x,
    y and z of that vertex in the batch are NaN. *)
Theorem nan_w_is_submitted (color : Color) (ia ib ic : Vector)
    (u1 v1 u2 v2 u3 v3 : float) (w : World) :
  is_nan (vw (transformed w ia)) = true ->
  behindCamera (transformed w ib) = false ->
  behindCamera (transformed w ic) = false ->
  exists r t,
    addTriangle color ia ib ic u1 v1 u2 v2 u3 v3 w =
      Returns r (push_back_triangle t w) /\
    triangles (world_of (addTriangle color ia ib ic u1 v1 u2 v2 u3 v3 w)) =
      (triangles w ++ [t])%list /\
    vtx_x (vertex0 t) = NAN /\ vtx_y (vertex0 t) = NAN /\ vtx_z (vertex0 t) = NAN.
Proof.
  intros N Hb Hc.
  assert (P : projected w ia = mkVector NAN NAN NAN f1).
  { unfold projected, perspectiveDivide.
    rewrite (is_nan_true _ N), !fdiv_nan_r. reflexivity. }
  assert (Ha : behindCamera (transformed w ia) = false).
  { unfold behindCamera. rewrite (is_nan_true _ N). reflexivity. }
  rewrite addTriangle_in_front by assumption.
  rewrite P.
  assert (L : allLeft (mkVector NAN NAN NAN f1) (projected w ib) (projected w ic) = false)
    by reflexivity.
  assert (R : allRight (mkVector NAN NAN NAN f1) (projected w ib) (projected w ic) = false)
    by reflexivity.
  assert (A : allAbove (mkVector NAN NAN NAN f1) (projected w ib) (projected w ic) = false)
    by reflexivity.
  assert (B : allBelow (mkVector NAN NAN NAN f1) (projected w ib) (projected w ic) = false)
    by reflexivity.
  rewrite L, R, A, B. cbn [orb].
  eexists _, _. split; [reflexivity|]. split; [reflexivity|]. repeat split.
Qed.

Lemma nan_w_is_submitted_witness :
  let ia := mkVector (of_Z 100) (of_Z 100) (of_Z 5) NAN in
  let ib := mkVector (of_Z 200) (of_Z 100) (of_Z 5) f1 in
  let ic := mkVector (of_Z 150) (of_Z 50) (of_Z 5) f1 in
  exists r t,
    addTriangle PEACH ia ib ic f0 f0 f1 f0 f1 f1 initial_world =
      Returns r (push_back_triangle t initial_world) /\
    triangles (world_of (addTriangle PEACH ia ib ic f0 f0 f1 f0 f1 f1 initial_world)) =
      ([] ++ [t])%list /\
    vtx_x (vertex0 t) = NAN /\ vtx_y (vertex0 t) = NAN /\ vtx_z (vertex0 t) = NAN.
Proof.
  intros ia ib ic.
  apply (nan_w_is_submitted PEACH ia ib ic f0 f0 f1 f0 f1 f1 initial_world);
    vm_compute; reflexivity.
Defined.

(** ** An invariant of the batch *)

Lemma existsb_perm {A : Type} (f : A -> bool) (l l' : list A) :
  Permutation l l' -> existsb f l = existsb f l'.
Proof.
  induction 1 as [|a l l' _ IH|a b l|l l' l'' _ IH1 _ IH2]; simpl.
  - reflexivity.
  - rewrite IH. reflexivity.
  - destruct (f a), (f b); reflexivity.
  - rewrite IH1. exact IH2.
Qed.

Lemma forallb_perm {A : Type} (f : A -> bool) (l l' : list A) :
  Permutation l l' -> forallb f l = forallb f l'.
Proof.
  induction 1 as [|a l l' _ IH|a b l|l l' l'' _ IH1 _ IH2]; simpl.
  - reflexivity.
  - rewrite IH. reflexivity.
  - destruct (f a), (f b); reflexivity.
  - rewrite IH1. exact IH2.
Qed.

Lemma notBeyondOneBoundary_sortVertices (t : Triangle) :
  notBeyondOneBoundary (sortVertices t) = notBeyondOneBoundary t.
Proof.
  unfold notBeyondOneBoundary.
  rewrite !(existsb_perm _ _ _ (sortVertices_perm t)). reflexivity.
Qed.

Lemma not_all_three (x y z : bool) :
  x && y && z = false -> negb x || (negb y || (negb z || false)) = true.
Proof. destruct x, y, z; intros; try discriminate; reflexivity. Qed.

Lemma notBeyondOneBoundary_kept (color : Color) (a b c : Vector)
    (u1 v1 u2 v2 u3 v3 : float) :
  allLeft a b c = false -> allRight a b c = false ->
  allAbove a b c = false -> allBelow a b c = false ->
  notBeyondOneBoundary (screenTriangle color a b c u1 v1 u2 v2 u3 v3) = true.
Proof.
  unfold allLeft, allRight, allAbove, allBelow, notBeyondOneBoundary,
    screenTriangle, vertices.
  cbn [existsb vertex0 vertex1 vertex2 vtx_x vtx_y].
  intros L R A B.
  rewrite (not_all_three _ _ _ L), (not_all_three _ _ _ R),
    (not_all_three _ _ _ A), (not_all_three _ _ _ B).
  reflexivity.
Qed.

(** X7.  "No triangle of the batch is entirely beyond one screen boundary"
    is an invariant: every submission keeps it, and then every triangle a
    flush hands to the backend has it too (for each of the four
    boundaries, one of its vertices is not beyond it). *)
Theorem batch_never_beyond_one_boundary :
  (forall (color : Color) (ia ib ic : Vector) (u1 v1 u2 v2 u3 v3 : float) (w : World),
      forallb notBeyondOneBoundary (triangles w) = true ->
      forallb notBeyondOneBoundary
        (triangles (world_of (addTriangle color ia ib ic u1 v1 u2 v2 u3 v3 w))) = true) /\
  (forall (backend : DrawCall -> Z) (lastError : string) (w : World) (call : DrawCall),
      forallb notBeyondOneBoundary (triangles w) = true ->
      In call (drawn (world_of (flush backend lastError w))) ->
      In call (drawn w) \/ forallb notBeyondOneBoundary (dc_buffer call) = true).
Proof.
  split.
  - intros color ia ib ic u1 v1 u2 v2 u3 v3 w H.
    destruct (addTriangle_culled_or_kept color ia ib ic u1 v1 u2 v2 u3 v3 w)
      as [C | (_ & _ & _ & L & R & A & B & K)].
    + rewrite C. exact H.
    + rewrite K. cbn [world_of triangles push_back_triangle set_triangles].
      rewrite forallb_app, H. cbn [forallb andb].
      rewrite notBeyondOneBoundary_kept by assumption. reflexivity.
  - intros backend lastError w call H I.
    destruct (triangles w) as [|t0 ts0] eqn:T.
    + rewrite (flush_empty backend lastError w T) in I. left. exact I.
    + assert (N : triangles w <> []) by (rewrite T; discriminate).
      rewrite (flush_draws_submission backend lastError w N) in I.
      apply in_app_or in I. destruct I as [I | [<- | []]]; [left; exact I|].
      right. cbn [dc_buffer drawCallOf].
      rewrite (forallb_perm _ _ _ (submission_perm w)).
      rewrite <- T in H. clear T N.
      induction (triangles w) as [|t l IH]; [reflexivity|].
      cbn [map forallb] in *. apply andb_true_iff in H. destruct H as [H1 H2].
      rewrite notBeyondOneBoundary_sortVertices, H1, (IH H2). reflexivity.
Qed.

Lemma batch_never_beyond_one_boundary_witness :
  let w := world_of (addTriangle PEACH (mkVector (of_Z (-50)) (of_Z 100) (of_Z 5) f1)
                       (mkVector (of_Z 200) (of_Z 100) (of_Z 5) f1)
                       (mkVector (of_Z 150) (of_Z 50) (of_Z 5) f1)
                       f0 f0 f1 f0 f1 f1 initial_world) in
  forallb notBeyondOneBoundary (triangles w) = true.
Proof.
  intros w.
  apply (proj1 batch_never_beyond_one_boundary). reflexivity.
Defined.

(** ** More on flush *)

Lemma Part007_flush_form (backend : DrawCall -> Z) (lastError : string) (w : World) :
  Part007.flush backend lastError w =
  let call := drawCallOf (sortedBatch w) in
  if backend call =? 0
  then Returns (length (triangles w)) (set_triangles [] (log_draw call w))
  else Exits ("ERROR SDL_RenderGeometryRaw: " ++ lastError)%string
         (log_draw call (set_triangles (sortedBatch w) w)).
Proof.
  assert (L : length (sortedBatch w) = length (triangles w)).
  { unfold sortedBatch. rewrite std_sort_length, length_map. reflexivity. }
  unfold Part007.flush, bind, gets, modify, ret, sdlError, sortedBatch, drawCallOf in *.
  destruct w as [st stk ts rv log]. cbn [triangles reverseSortTriangles] in *.
  unfold set_triangles, log_draw.
  cbn [triangles reverseSortTriangles state stack drawn].
  destruct (backend _ =? 0); cbn [negb];
    cbn [triangles reverseSortTriangles state stack drawn];
    rewrite ?L; reflexivity.
Qed.

(** X8.  When the backend accepts the call, a flush of a non-empty batch
    returns the number of triangles that were pending, leaves the batch
    empty and the render state, the stack and the flag as they were, and
    has made exactly one backend call; a second flush right after it
    returns 0 and changes nothing. *)
Theorem flush_drains_batch (backend : DrawCall -> Z) (lastError : string) (w : World) :
  triangles w <> [] ->
  backend (drawCallOf (submission w)) = 0 ->
  exists w',
    flush backend lastError w = Returns (length (triangles w)) w' /\
    triangles w' = [] /\ state w' = state w /\ stack w' = stack w /\
    reverseSortTriangles w' = reverseSortTriangles w /\
    drawn w' = (drawn w ++ [drawCallOf (submission w)])%list /\
    (flush backend lastError ;;; flush backend lastError) w = Returns 0%nat w'.
Proof.
  intros N OK.
  pose proof (flush_nonempty backend lastError w N) as E. cbv zeta in E. rewrite OK in E.
  cbn [Z.eqb] in E.
  eexists. split; [exact E|]. repeat split.
  unfold bind. rewrite E. apply flush_empty. reflexivity.
Qed.

Lemma flush_drains_batch_witness :
  exists w',
    flush (fun _ => 0) invalid_renderer scenario_world = Returns 1%nat w' /\
    triangles w' = [] /\
    (flush (fun _ => 0) invalid_renderer ;;; flush (fun _ => 0) invalid_renderer)
      scenario_world = Returns 0%nat w'.
Proof.
  destruct (flush_drains_batch (fun _ => 0) invalid_renderer scenario_world)
    as (w' & E & T & _ & _ & _ & _ & F).
  - vm_compute. discriminate.
  - reflexivity.
  - exists w'. repeat split; assumption.
Defined.

(** X9.  When the backend reports an error for the call, a flush of a
    non-empty batch ends the process after the call, with the message
    [ERROR SDL_RenderGeometryRaw: ] followed by the text of
    [SDL_GetError()]; it does not return, and the batch is left sorted,
    not cleared. *)
Theorem flush_backend_error_exits (backend : DrawCall -> Z) (lastError : string)
    (w : World) :
  triangles w <> [] ->
  backend (drawCallOf (submission w)) <> 0 ->
  exists w',
    flush backend lastError w =
      Exits ("ERROR SDL_RenderGeometryRaw: " ++ lastError)%string w' /\
    triangles w' = submission w /\
    drawn w' = (drawn w ++ [drawCallOf (submission w)])%list /\
    forall n w'', flush backend lastError w <> Returns n w''.
Proof.
  intros N Bad.
  pose proof (flush_nonempty backend lastError w N) as E. cbv zeta in E.
  apply Z.eqb_neq in Bad. rewrite Bad in E.
  eexists. split; [exact E|]. repeat split.
  intros n w''. rewrite E. discriminate.
Qed.

Lemma flush_backend_error_exits_witness :
  exists w',
    flush (fun _ => -1) invalid_renderer scenario_world =
      Exits "ERROR SDL_RenderGeometryRaw: Invalid renderer"%string w' /\
    length (triangles w') = 1%nat.
Proof.
  destruct (flush_backend_error_exits (fun _ => -1) invalid_renderer scenario_world)
    as (w' & E & T & _ & _).
  - vm_compute. discriminate.
  - discriminate.
  - exists w'. split; [exact E|]. rewrite T. vm_compute. reflexivity.
Defined.

Lemma int_of_size_t_small (n : Z) : 0 <= n < 2 ^ 31 -> int_of_size_t n = n.
Proof.
  intros H. unfold int_of_size_t.
  rewrite (Z.mod_small n (2 ^ 64)) by lia.
  rewrite (Z.mod_small n (2 ^ 32)) by lia.
  destruct (n <? 2 ^ 31) eqn:E; [reflexivity|].
  apply Z.ltb_ge in E. lia.
Qed.

Lemma flat_map_vertices_sorted (l : list Triangle) :
  Permutation (flat_map vertices (map sortVertices l)) (flat_map vertices l).
Proof.
  induction l as [|t l IH]; [constructor|].
  cbn [map flat_map]. apply Permutation_app; [apply sortVertices_perm | exact IH].
Qed.

Lemma flat_map_vertices_length (l : list Triangle) :
  length (flat_map vertices l) = (3 * length l)%nat.
Proof.
  induction l as [|t l IH]; [reflexivity|].
  cbn [flat_map]. rewrite length_app, IH. simpl. lia.
Qed.

(** X10.  The vertices a flush hands to the backend are exactly the
    vertices of the pending batch, each with its colour and texture
    coordinates, none lost and none repeated (only their order changes);
    and as long as three times the number of triangles fits an [int], the
    vertex count passed is the number of those vertices. *)
Theorem flush_conserves_vertices (backend : DrawCall -> Z) (lastError : string) (w : World) :
  triangles w <> [] ->
  exists call,
    drawn (world_of (flush backend lastError w)) = (drawn w ++ [call])%list /\
    Permutation (flat_map vertices (dc_buffer call)) (flat_map vertices (triangles w)) /\
    (3 * Z.of_nat (length (triangles w)) < 2 ^ 31 ->
     dc_num_vertices call = Z.of_nat (length (flat_map vertices (dc_buffer call)))).
Proof.
  intros N. exists (drawCallOf (submission w)). split; [|split].
  - apply flush_draws_submission, N.
  - cbn [dc_buffer drawCallOf].
    apply perm_trans with (flat_map vertices (map sortVertices (triangles w))).
    + apply Permutation_flat_map, submission_perm.
    + apply flat_map_vertices_sorted.
  - intros Small. cbn [dc_buffer dc_num_vertices drawCallOf].
    rewrite flat_map_vertices_length, submission_length.
    rewrite int_of_size_t_small by lia. lia.
Qed.

Lemma flush_conserves_vertices_witness :
  exists call,
    drawn (world_of (flush (fun _ => 0) invalid_renderer scenario_world)) = ([] ++ [call])%list /\
    dc_num_vertices call = Z.of_nat (length (flat_map vertices (dc_buffer call))).
Proof.
  destruct (flush_conserves_vertices (fun _ => 0) invalid_renderer scenario_world)
    as (call & D & _ & C).
  - vm_compute. discriminate.
  - exists call. split; [exact D|]. apply C. vm_compute. reflexivity.
Defined.

(** Two lists in ascending order that are permutations of each other are
    equal, when elements that tie are equal. *)
Lemma ascending_perm_unique {A : Type} (less : A -> A -> bool) (l1 : list A) :
  forall l2 : list A,
    ascending less l1 -> ascending less l2 -> Permutation l1 l2 ->
    (forall a b, In a l1 -> In b l1 -> less a b = false -> less b a = false -> a = b) ->
    l1 = l2.
Proof.
  induction l1 as [|h1 l1 IH]; intros l2 S1 S2 P T.
  - apply Permutation_nil in P. subst. reflexivity.
  - destruct l2 as [|h2 l2].
    { apply Permutation_sym, Permutation_nil in P. discriminate. }
    inversion S1 as [|? ? S1' F1]; subst. inversion S2 as [|? ? S2' F2]; subst.
    rewrite Forall_forall in F1, F2.
    assert (E : h1 = h2).
    { assert (I1 : In h1 (h2 :: l2)) by (apply (Permutation_in _ P); left; reflexivity).
      assert (I2 : In h2 (h1 :: l1))
        by (apply (Permutation_in _ (Permutation_sym P)); left; reflexivity).
      destruct I1 as [E | I1]; [symmetry; exact E|].
      destruct I2 as [E | I2]; [exact E|].
      apply T; [left; reflexivity | right; exact I2 | |].
      - apply F2, I1.
      - apply F1, I2. }
    subst h2. f_equal.
    apply IH; try assumption.
    + apply Permutation_cons_inv with h1. exact P.
    + intros a b Ia Ib. apply T; right; assumption.
Qed.

(** X11.  The order in which the triangles were submitted does not reach
    the backend: two non-empty batches with the same triangles in a
    different order, without NaN coordinates and in which triangles that
    tie in the triangle order are equal once their vertices are sorted,
    are handed to the backend as the same sequence. *)
Theorem flush_forgets_submission_order (backend : DrawCall -> Z) (lastError : string)
    (w1 w2 : World) :
  triangles w1 <> [] ->
  Permutation (triangles w1) (triangles w2) ->
  reverseSortTriangles w1 = reverseSortTriangles w2 ->
  Forall orderedTriangle (triangles w1) ->
  (forall s t, In s (triangles w1) -> In t (triangles w1) ->
     triangleLess (sortVertices s) (sortVertices t) = false ->
     triangleLess (sortVertices t) (sortVertices s) = false ->
     sortVertices s = sortVertices t) ->
  exists call,
    drawn (world_of (flush backend lastError w1)) = (drawn w1 ++ [call])%list /\
    drawn (world_of (flush backend lastError w2)) = (drawn w2 ++ [call])%list.
Proof.
  intros N P R O T.
  assert (N2 : triangles w2 <> []).
  { intros E. rewrite E in P. apply Permutation_sym, Permutation_nil in P.
    contradiction. }
  assert (O2 : Forall orderedTriangle (triangles w2))
    by (apply Permutation_Forall with (triangles w1); assumption).
  assert (E : sortedBatch w1 = sortedBatch w2).
  { apply (ascending_perm_unique triangleLess).
    - pose proof (sortedBatch_ascending w1 O) as S.
      eapply StronglySorted_ind with (P := fun l => ascending triangleLess l);
        [constructor | | exact S].
      intros a l _ IH F. constructor; [exact IH|].
      rewrite Forall_forall in *. intros q Hq. rewrite triangleLess_lex. apply F, Hq.
    - pose proof (sortedBatch_ascending w2 O2) as S.
      eapply StronglySorted_ind with (P := fun l => ascending triangleLess l);
        [constructor | | exact S].
      intros a l _ IH F. constructor; [exact IH|].
      rewrite Forall_forall in *. intros q Hq. rewrite triangleLess_lex. apply F, Hq.
    - apply perm_trans with (map sortVertices (triangles w1));
        [apply sortedBatch_perm|].
      apply perm_trans with (map sortVertices (triangles w2));
        [apply Permutation_map, P | apply Permutation_sym, sortedBatch_perm].
    - intros a b Ia Ib.
      apply (Permutation_in _ (sortedBatch_perm w1)) in Ia, Ib.
      apply in_map_iff in Ia, Ib.
      destruct Ia as (s & <- & Is). destruct Ib as (t & <- & It).
      apply T; assumption. }
  exists (drawCallOf (submission w1)). split.
  - apply flush_draws_submission, N.
  - rewrite (flush_draws_submission backend lastError w2 N2).
    unfold submission. rewrite E, R. reflexivity.
Qed.

Lemma flush_forgets_submission_order_witness :
  let w1 := mkWorld initial_state [] [far_triangle; near_triangle] false [] in
  let w2 := mkWorld initial_state [] [near_triangle; far_triangle] false [] in
  exists call,
    drawn (world_of (flush (fun _ => 0) invalid_renderer w1)) = ([] ++ [call])%list /\
    drawn (world_of (flush (fun _ => 0) invalid_renderer w2)) = ([] ++ [call])%list.
Proof.
  intros w1 w2.
  apply (flush_forgets_submission_order (fun _ => 0) invalid_renderer w1 w2).
  - discriminate.
  - apply perm_swap.
  - reflexivity.
  - repeat constructor.
  - intros s t [<- | [<- | []]] [<- | [<- | []]] A B;
      try reflexivity; vm_compute in A, B; discriminate.
Defined.

(** X12.  On a non-empty batch with the reverse flag off, the earlier
    demo's [flush] and the later one do the same: same outcome, same call
    to the backend, same world. *)
Theorem Part007_flush_agrees (backend : DrawCall -> Z) (lastError : string) (w : World) :
  triangles w <> [] ->
  reverseSortTriangles w = false ->
  Part007.flush backend lastError w = flush backend lastError w.
Proof.
  intros N R.
  rewrite Part007_flush_form, (flush_nonempty backend lastError w N).
  unfold submission. rewrite R. reflexivity.
Qed.

Lemma Part007_flush_agrees_witness :
  Part007.flush (fun _ => 0) invalid_renderer scenario_world =
  flush (fun _ => 0) invalid_renderer scenario_world.
Proof.
  apply Part007_flush_agrees.
  - vm_compute. discriminate.
  - reflexivity.
Defined.

(** ** The hover test and the bounds *)

Lemma hoverTest_bottom (z : float) (mouseX mouseY : Z) :
  hoverTest AABB_BOTTOM z mouseX mouseY = false.
Proof.
  unfold hoverTest, AABB_BOTTOM, fge. cbn [aabb_min aabb_max vx vy vz].
  destruct (of_Z mouseX) as [[]|[]| |[]]; cbn;
    rewrite ?andb_false_r; reflexivity.
Qed.

(** X13.  A box none of whose triangles was kept (all culled, or both
    colours transparent) is never picked by the hover test: [addBox]
    then returns [AABB_BOTTOM], which no mouse position and no depth
    satisfy. *)
Theorem empty_box_is_never_hovered (o : AddBoxOrder) (w w' : World) (r : AABB) :
  addBox o w = Returns r w' ->
  triangles w' = triangles w ->
  r = AABB_BOTTOM /\
  forall (hoverBoxMinZ : float) (mouseX mouseY : Z),
    hoverTest r hoverBoxMinZ mouseX mouseY = false.
Proof.
  intros E T.
  destruct (addBox_appends (state w)) as (r0 & ts & _ & _ & _ & _ & _ & Z & A).
  destruct (A o w eq_refl) as (ts' & P & E').
  rewrite E in E'. injection E' as -> ->.
  cbn [triangles set_triangles] in T.
  assert (N : ts' = []).
  { destruct ts' as [|t l]; [reflexivity|].
    apply (f_equal (@length Triangle)) in T. rewrite length_app in T.
    simpl in T. lia. }
  subst ts'. apply Permutation_nil in P. subst ts.
  rewrite (Z eq_refl). split; [reflexivity|].
  intros. apply hoverTest_bottom.
Qed.

Lemma empty_box_is_never_hovered_witness :
  let transparent := mkColor 0 0 0 0 in
  let w := mkWorld (mkRenderState IDENTITY transparent transparent) [] [] false [] in
  let o := mkBoxOrder true true true true true true true true true true true in
  hoverTest AABB_BOTTOM INFINITY 400 300 = false.
Proof.
  intros transparent w o.
  refine (proj2 (empty_box_is_never_hovered (mkAddBoxOrder true o o) w w AABB_BOTTOM _ _)
            INFINITY 400 300); reflexivity.
Defined.

(** Prove [flt a b = true] between floats known not to be NaN from
    comparisons in the context. *)
Ltac flt_by_keys :=
  match goal with
  | |- flt ?a ?b = true =>
    apply (proj2 (flt_klt a b ltac:(assumption) ltac:(assumption)));
    to_keys; lia
  end.

Ltac fle_hyps_to_keys :=
  repeat match goal with
  | H : fle ?a ?b = true |- _ =>
    apply (proj1 (fle_kle a b ltac:(assumption) ltac:(assumption))) in H
  end.

Lemma std_min_lt_l (a b z : float) :
  flt a z = true -> flt (std_min a b) z = true.
Proof.
  intros H. unfold std_min. destruct (flt b a) eqn:E; [|exact H].
  destruct (flt_true_not_nan _ _ H), (flt_true_not_nan _ _ E). flt_by_keys.
Qed.

Lemma std_min_lt_r (a b z : float) :
  is_nan b = false -> flt a z = true -> flt (std_min b a) z = true.
Proof.
  intros Hb H. unfold std_min. destruct (flt a b) eqn:E; [exact H|].
  destruct (flt_true_not_nan _ _ H). flt_by_keys.
Qed.

Lemma std_min_le_l (a b m : float) :
  fle a m = true -> fle (std_min a b) m = true.
Proof.
  intros H. unfold std_min. destruct (flt b a) eqn:E; [|exact H].
  destruct (fle_true_not_nan _ _ H), (flt_true_not_nan _ _ E).
  fle_hyps_to_keys. fle_by_keys.
Qed.

Lemma std_min_le_r (a b m : float) :
  is_nan b = false -> fle a m = true -> fle (std_min b a) m = true.
Proof.
  intros Hb H. unfold std_min. destruct (flt a b) eqn:E; [exact H|].
  destruct (fle_true_not_nan _ _ H).
  fle_hyps_to_keys. fle_by_keys.
Qed.

Lemma std_max_ge_l (a b m : float) :
  fle m a = true -> fle m (std_max a b) = true.
Proof.
  intros H. unfold std_max. destruct (flt a b) eqn:E; [|exact H].
  destruct (fle_true_not_nan _ _ H), (flt_true_not_nan _ _ E).
  fle_hyps_to_keys. fle_by_keys.
Qed.

Lemma std_max_ge_r (a b m : float) :
  is_nan b = false -> fle m a = true -> fle m (std_max b a) = true.
Proof.
  intros Hb H. unfold std_max. destruct (flt b a) eqn:E; [exact H|].
  destruct (fle_true_not_nan _ _ H).
  fle_hyps_to_keys. fle_by_keys.
Qed.

(** X14.  The hover test is monotone in the union of bounds: a mouse
    position and depth that pick the bound [a] also pick [a | b], for
    every [b]; and they pick [b | a] when no coordinate of [b] is NaN.
    So hovering one triangle of a shape hovers the shape. *)
Theorem hover_union_monotone (a b : AABB) (hoverBoxMinZ : float) (mouseX mouseY : Z) :
  hoverTest a hoverBoxMinZ mouseX mouseY = true ->
  hoverTest (aabb_or a b) hoverBoxMinZ mouseX mouseY = true /\
  (orderedAABB b -> hoverTest (aabb_or b a) hoverBoxMinZ mouseX mouseY = true).
Proof.
  unfold hoverTest, fge. intros H.
  repeat (apply andb_true_iff in H; let H' := fresh "H" in destruct H as [H H']).
  split.
  - unfold aabb_or, minPairwise, maxPairwise. cbn [aabb_min aabb_max vx vy vz].
    rewrite std_min_lt_l, !std_min_le_l, !std_max_ge_l by assumption. reflexivity.
  - intros [(? & ? & ? & ?) (? & ? & ? & ?)].
    unfold aabb_or, minPairwise, maxPairwise. cbn [aabb_min aabb_max vx vy vz].
    rewrite std_min_lt_r, !std_min_le_r, !std_max_ge_r by assumption. reflexivity.
Qed.

Lemma hover_union_monotone_witness :
  let a := mkAABB (mkVector (of_Z 100) (of_Z 50) (of_Z 5) f1)
                  (mkVector (of_Z 200) (of_Z 100) (of_Z 5) f1) in
  let b := mkAABB (mkVector (of_Z 300) (of_Z 50) (of_Z 7) f1)
                  (mkVector (of_Z 400) (of_Z 100) (of_Z 7) f1) in
  hoverTest (aabb_or a b) INFINITY 150 75 = true.
Proof.
  intros a b.
  refine (proj1 (hover_union_monotone a b INFINITY 150 75 _)).
  vm_compute. reflexivity.
Defined.

(** ** Affine transforms *)

Lemma fmul_zero_finite (a b : float) :
  isZero a = true -> isFinite b = true -> isZero (fmul a b) = true.
Proof. destruct a, b; intros; try discriminate; reflexivity. Qed.

Lemma fadd_zero_zero (a b : float) :
  isZero a = true -> isZero b = true -> isZero (fadd a b) = true.
Proof.
  destruct a as [[]| | |], b as [[]| | |]; intros; try discriminate; reflexivity.
Qed.

Lemma fadd_zero_one (a : float) : isZero a = true -> fadd a f1 = f1.
Proof. destruct a; intros; try discriminate; reflexivity. Qed.

Lemma fmul_one_zero (a : float) : isZero a = true -> isZero (fmul f1 a) = true.
Proof. destruct a; intros; try discriminate; reflexivity. Qed.

Lemma dot_affine_row (r p : Vector) :
  isZero (vx r) = true -> isZero (vy r) = true -> isZero (vz r) = true ->
  vw r = f1 ->
  isFinite (vx p) = true -> isFinite (vy p) = true -> isFinite (vz p) = true ->
  (vw p = f1 -> dot r p = f1) /\
  (isZero (vw p) = true -> isZero (dot r p) = true).
Proof.
  intros Zx Zy Zz W Fx Fy Fz. unfold dot. rewrite W.
  pose proof (fadd_zero_zero _ _
                (fadd_zero_zero _ _ (fmul_zero_finite _ _ Zx Fx)
                                    (fmul_zero_finite _ _ Zy Fy))
                (fmul_zero_finite _ _ Zz Fz)) as S.
  split.
  - intros ->. change (fmul f1 f1) with f1. apply fadd_zero_one, S.
  - intros Zw. apply fadd_zero_zero; [exact S | apply fmul_one_zero, Zw].
Qed.

Lemma isZero_isFinite (a : float) : isZero a = true -> isFinite a = true.
Proof. destruct a; intros; try discriminate; reflexivity. Qed.

Lemma mulMM_affine (a b : Matrix) :
  affine a -> affine b -> finiteMatrix b -> affine (mulMM a b).
Proof.
  intros (Zx & Zy & Zz & W) (Bx & By & Bz & Bw)
         ((X1 & X2 & X3 & X4) & (Y1 & Y2 & Y3 & Y4) & (Z1 & Z2 & Z3 & Z4) & _).
  unfold affine, mulMM. cbn [mw vx vy vz vw].
  repeat split.
  - apply (dot_affine_row (mw a) (xColumn b)); assumption.
  - apply (dot_affine_row (mw a) (yColumn b)); assumption.
  - apply (dot_affine_row (mw a) (zColumn b)); assumption.
  - apply (dot_affine_row (mw a) (wColumn b)); assumption.
Qed.

(** X15.  Affine transforms keep [w = 1].  When the last row of the
    current transform is (0, 0, 0, 1), a vertex with finite x, y, z and
    [w = 1] has [w = 1] after the transform, so the behind-the-camera
    test never drops it.  [apply] of an affine matrix with finite entries
    keeps the current transform affine; the identity, and translations,
    scalings and the default viewport with finite arguments, are such
    matrices. *)
Theorem affine_transform_keeps_w :
  (forall (w : World) (p : Vector),
      affine (transform (state w)) ->
      isFinite (vx p) = true -> isFinite (vy p) = true -> isFinite (vz p) = true ->
      vw p = f1 ->
      vw (transformed w p) = f1 /\ behindCamera (transformed w p) = false) /\
  (forall (w : World) (m : Matrix),
      affine (transform (state w)) -> affine m -> finiteMatrix m ->
      exists w', apply m w = Returns tt w' /\ affine (transform (state w'))) /\
  (affine IDENTITY /\ finiteMatrix IDENTITY) /\
  (forall x y z : float,
      isFinite x = true -> isFinite y = true -> isFinite z = true ->
      (affine (translation x y z) /\ finiteMatrix (translation x y z)) /\
      (affine (scaling x y z) /\ finiteMatrix (scaling x y z))) /\
  (affine (viewport (of_Z WIDTH) (of_Z HEIGHT)) /\
   finiteMatrix (viewport (of_Z WIDTH) (of_Z HEIGHT))).
Proof.
  split; [|split; [|split; [|split]]].
  - intros w p (Zx & Zy & Zz & W) Fx Fy Fz Pw.
    assert (E : vw (transformed w p) = f1).
    { unfold transformed, mulMV. cbn [vw].
      apply (dot_affine_row (mw (transform (state w))) p); assumption. }
    split; [exact E|]. unfold behindCamera. rewrite E. reflexivity.
  - intros w m A Am Fm. eexists. split; [reflexivity|].
    cbn [state set_state transform]. apply mulMM_affine; assumption.
  - repeat split.
  - intros x y z Fx Fy Fz. repeat split; assumption.
  - repeat split.
Qed.

Lemma affine_transform_keeps_w_witness :
  let w := world_of (apply (translation (of_Z 10) (of_Z 20) (of_Z (-30))) initial_world) in
  vw (transformed w (mkVector (of_Z 1) (of_Z 2) (of_Z 3) f1)) = f1.
Proof.
  intros w.
  apply (proj1 affine_transform_keeps_w w (mkVector (of_Z 1) (of_Z 2) (of_Z 3) f1));
    try reflexivity.
  destruct (proj1 (proj2 affine_transform_keeps_w) initial_world
              (translation (of_Z 10) (of_Z 20) (of_Z (-30)))) as (w' & E & A).
  - repeat split.
  - repeat split.
  - repeat split.
  - unfold w. rewrite E. exact A.
Defined.

(** ** Vector helpers *)



(** X17.  [normalize] of a vector whose four components are zero (of
    either sign) is the vector of four NaN, whatever the requested
    length: the length of the vector is 0 and the division by it gives
    an infinity or NaN, which times zero is NaN. *)
Theorem normalize_zero_vector_is_nan (p : Vector) (newLength : float) :
  isZero (vx p) = true -> isZero (vy p) = true ->
  isZero (vz p) = true -> isZero (vw p) = true ->
  normalize p newLength = mkVector NAN NAN NAN NAN.
Proof.
  destruct p as [x y z w]. cbn [vx vy vz vw].
  destruct x as [sx| | |]; try discriminate.
  destruct y as [sy| | |]; try discriminate.
  destruct z as [sz| | |]; try discriminate.
  destruct w as [sw| | |]; try discriminate.
  intros _ _ _ _.
  destruct sx, sy, sz, sw, newLength as [[]|[]| |[] m e]; reflexivity.
Qed.

Lemma normalize_zero_vector_is_nan_witness :
  normalize (vsub (mkVector f0 f0 (of_Z (-50)) f1) (mkVector f0 f0 (of_Z (-50)) f1))
            (of_Z 1)
  = mkVector NAN NAN NAN NAN.
Proof.
  apply normalize_zero_vector_is_nan; reflexivity.
Defined.

(** ** The text cursor *)

Lemma glyphIndex_range (ch : Ascii.ascii) : 0 <= glyphIndex ch <= 127.
Proof.
  unfold glyphIndex.
  destruct (Z.of_N (Ascii.N_of_ascii ch) >=? 128) eqn:E; [lia|].
  rewrite Z.geb_leb in E. apply Z.leb_gt in E. lia.
Qed.

Lemma glyph_within (cw g : Z) :
  0 <= cw -> 0 <= g <= 127 -> 0 <= cw * g /\ cw * g + cw <= 128 * cw.
Proof. intros. split; nia. Qed.

Lemma printStringView_spec (SDL_RenderCopy : SDL_Rect -> SDL_Rect -> Z)
    (lastError : string) (view : string) :
  forall c : Console,
    0 <= charWidth c ->
    exists new,
      copies (console_of (printStringView SDL_RenderCopy lastError view c))
        = (copies c ++ new)%list /\
      Forall (withinFontSheet c) new /\
      (length new <= String.length view)%nat /\
      forall c',
        printStringView SDL_RenderCopy lastError view c = Printed c' ->
        length new = String.length view /\
        charHeight c' = charHeight c /\ charWidth c' = charWidth c.
Proof.
  induction view as [|ch rest IH]; intros c W.
  - exists []. cbn. rewrite app_nil_r.
    split; [reflexivity|]. split; [constructor|]. split; [lia|].
    intros k E. injection E as <-. repeat split; lia.
  - cbn [printStringView]. unfold printChar.
    set (src := mkRect (charWidth c * glyphIndex ch) 0 (charWidth c) (charHeight c)).
    set (dst := mkRect (charX c) (charY c) (charWidth c) (charHeight c)).
    assert (In1 : withinFontSheet c (src, dst)).
    { unfold withinFontSheet. cbn [fst src rect_x rect_y rect_w rect_h].
      destruct (glyph_within (charWidth c) (glyphIndex ch) W (glyphIndex_range ch)).
      repeat split; assumption. }
    destruct (negb (SDL_RenderCopy src dst =? 0)).
    + exists [(src, dst)]. cbn.
      split; [reflexivity|]. split; [constructor; [exact In1 | constructor]|].
      split; [lia|]. intros k E. discriminate E.
    + cbn [charHeight charWidth charX charY copies].
      destruct (Ascii.eqb ch "010"%char) eqn:NL;
        match goal with
        | |- context [printStringView _ _ rest ?c1] =>
          destruct (IH c1 W) as (new & Cp & F & L & S)
        end;
        (exists ((src, dst) :: new);
         split; [rewrite Cp; cbn; rewrite <- app_assoc; reflexivity|];
         split; [constructor; [exact In1 | exact F]|];
         split; [cbn; lia|];
         intros k E; destruct (S k E) as (L' & H1 & H2);
         cbn [charHeight charWidth] in *;
         cbn [String.length length];
         split; [lia|]; split; [exact H1 | exact H2]).
Qed.

Lemma int_wrap_small (z : Z) : isInt z -> int_wrap z = z.
Proof.
  unfold isInt, int_wrap. intros H. rewrite Z.mod_small by lia. lia.
Qed.

Lemma countNewlines_nonneg (view : string) : 0 <= countNewlines view.
Proof.
  induction view as [|ch rest IH]; cbn [countNewlines]; [lia|].
  destruct (Ascii.eqb ch "010"%char); lia.
Qed.

Lemma printStringView_cursor_spec (SDL_RenderCopy : SDL_Rect -> SDL_Rect -> Z)
    (lastError : string) (view : string) :
  forall c c' : Console,
    0 <= charWidth c -> cursorFits c view ->
    printStringView SDL_RenderCopy lastError view c = Printed c' ->
    charY c' = charY c + charHeight c * countNewlines view /\
    charX c' = match afterLastNewline view with
               | None => charX c + charWidth c * Z.of_nat (String.length view)
               | Some k => charWidth c * (1 + k)
               end.
Proof.
  induction view as [|ch rest IH]; intros c c' W (H & IX & IY & BX & BM & BY) E.
  - cbn in E. injection E as <-. cbn. split; lia.
  - cbn [printStringView] in E. unfold printChar in E.
    destruct (negb (SDL_RenderCopy _ _ =? 0)); [discriminate E|].
    cbn [charHeight charWidth charX charY copies] in E.
    pose proof (countNewlines_nonneg rest) as CN.
    cbn [countNewlines String.length] in BX, BM, BY.
    rewrite Nat2Z.inj_succ in BX, BM.
    unfold isInt in IX, IY.
    destruct (Ascii.eqb ch "010"%char) eqn:NL.
    + assert (Y : int_add (charY c) (charHeight c) = charY c + charHeight c).
      { apply int_wrap_small. unfold isInt. nia. }
      rewrite Y in E.
      apply IH in E; cbn [charHeight charWidth charX charY] in *.
      * destruct E as [EY EX].
        cbn [countNewlines afterLastNewline String.length]. rewrite NL.
        split; [lia|]. rewrite EX. destruct (afterLastNewline rest); nia.
      * exact W.
      * unfold cursorFits, isInt. cbn [charHeight charWidth charX charY].
        repeat split; nia.
    + assert (X : int_add (charX c) (charWidth c) = charX c + charWidth c).
      { apply int_wrap_small. unfold isInt. nia. }
      rewrite X in E.
      apply IH in E; cbn [charHeight charWidth charX charY] in *.
      * destruct E as [EY EX].
        cbn [countNewlines afterLastNewline String.length]. rewrite NL.
        split; [lia|]. rewrite EX. destruct (afterLastNewline rest); nia.
      * exact W.
      * unfold cursorFits, isInt. cbn [charHeight charWidth charX charY].
        repeat split; nia.
Qed.



(** X19.  When every copy succeeds and the text does not overflow the
    cursor, [printStringView] makes one copy per character and leaves the
    cursor where the text ends: [charY] has advanced by [charHeight] for
    each newline; [charX] is one cell per character further when the text
    has no newline, and otherwise one cell (the left margin) plus one cell
    per character after the last newline.  The cell size is unchanged. *)
Theorem printStringView_cursor
    (SDL_RenderCopy : SDL_Rect -> SDL_Rect -> Z) (lastError : string)
    (view : string) (c c' : Console) :
  0 <= charWidth c ->
  cursorFits c view ->
  printStringView SDL_RenderCopy lastError view c = Printed c' ->
  length (copies c') = (length (copies c) + String.length view)%nat /\
  charHeight c' = charHeight c /\ charWidth c' = charWidth c /\
  charY c' = charY c + charHeight c * countNewlines view /\
  charX c' = match afterLastNewline view with
             | None => charX c + charWidth c * Z.of_nat (String.length view)
             | Some k => charWidth c * (1 + k)
             end.
Proof.
  intros W Fits E.
  destruct (printStringView_spec SDL_RenderCopy lastError view c W)
    as (new & Cp & _ & _ & S).
  destruct (S c' E) as (L & H1 & H2).
  destruct (printStringView_cursor_spec SDL_RenderCopy lastError view c c' W Fits E)
    as [H3 H4].
  rewrite E in Cp. cbn [console_of] in Cp.
  split; [rewrite Cp, length_app, L; reflexivity|].
  repeat split; assumption.
Qed.

Lemma printStringView_cursor_witness :
  let c := mkConsole 24 14 14 12 [] in
  let view := String "a" (String "010" (String "b" (String "c" EmptyString))) in
  let c' := console_of (printStringView (fun _ _ => 0) invalid_renderer view c) in
  charY c' = 36 /\ charX c' = 42.
Proof.
  intros c view c'.
  destruct (printStringView_cursor (fun _ _ => 0) invalid_renderer view c c')
    as (_ & _ & _ & Y & X).
  - vm_compute. discriminate.
  - unfold cursorFits, isInt. vm_compute. repeat split; discriminate.
  - vm_compute. reflexivity.
  - split; [exact Y | exact X].
Defined.

(** ** Random helpers *)

Lemma div_eucl_shift (m : positive) :
  Z.div_eucl (Z.shiftl (Zpos m) 24) (Zpos m) = (16777216, 0).
Proof.
  rewrite Z.shiftl_mul_pow2 by lia.
  pose proof (Z.div_mul (2 ^ 24) (Zpos m) ltac:(lia)) as D.
  pose proof (Z.mod_mul (2 ^ 24) (Zpos m) ltac:(lia)) as R.
  rewrite (Z.mul_comm (Zpos m)).
  unfold Z.div, Z.modulo in D, R.
  destruct (Z.div_eucl (2 ^ 24 * Zpos m) (Zpos m)) as [q r].
  cbn [fst snd] in D, R. subst. reflexivity.
Qed.

(** A finite float divided by itself is 1. *)
Lemma fdiv_self (s : bool) (m : positive) (e : Z) :
  fdiv (S754_finite s m e) (S754_finite s m e) = f1.
Proof.
  unfold fdiv, SFdiv, SFdiv_core_binary.
  rewrite Z.sub_diag, Z.sub_diag, xorb_nilpotent.
  change (Z.min (fexp prec32 emax32 0) 0) with (-24).
  change (0 - -24) with 24.
  cbv zeta. cbv iota.
  change (IntDef.Z.div_eucl (IntDef.Z.shiftl (Zpos m) 24) (Zpos m))
    with (Z.div_eucl (Z.shiftl (Zpos m) 24) (Zpos m)).
  rewrite div_eucl_shift.
  unfold new_location, new_location_even, new_location_odd. cbn [Z.eqb].
  destruct (Z.even (Zpos m)); vm_compute; reflexivity.
Qed.

(** X20.  [randomInt] can exceed [high].  For the call of [randomColor],
    [randomInt(0, 31)]: when [rand()] returns [RAND_MAX], or any value
    that converts to the same [float], the result is 32, one more than
    the documented range, and [randomColor] indexes [COLORS] past its 32
    entries.  ([high + 0.9999999] rounds to 32 as a [float], and the
    ratio is exactly 1.)  When [rand()] returns 0 the result is 0 and the
    colour is [BLACK]. *)
Theorem randomInt_can_exceed_high (RAND_MAX rand : Z) :
  isFinite (of_Z RAND_MAX) = true -> isZero (of_Z RAND_MAX) = false ->
  (of_Z rand = of_Z RAND_MAX ->
   randomInt RAND_MAX rand 0 31 = Some 32 /\ randomColor RAND_MAX rand = None) /\
  (randomInt RAND_MAX 0 0 31 = Some 0 /\ randomColor RAND_MAX 0 = Some BLACK).
Proof.
  intros F NZ.
  assert (Top : of_Z rand = of_Z RAND_MAX -> randomInt RAND_MAX rand 0 31 = Some 32).
  { intros E. unfold randomInt, randomUniform. rewrite E.
    destruct (of_Z RAND_MAX) as [| | |s m e]; try discriminate.
    rewrite fdiv_self. vm_compute. reflexivity. }
  assert (Bottom : randomInt RAND_MAX 0 0 31 = Some 0).
  { unfold randomInt, randomUniform.
    destruct (of_Z RAND_MAX) as [| | |s m e]; try discriminate.
    destruct s; vm_compute; reflexivity. }
  split.
  - intros E. split; [apply Top, E|].
    unfold randomColor. change (Z.of_nat (length COLORS) - 1) with 31.
    rewrite (Top E). reflexivity.
  - split; [exact Bottom|].
    unfold randomColor. change (Z.of_nat (length COLORS) - 1) with 31.
    rewrite Bottom. reflexivity.
Qed.

Lemma randomInt_can_exceed_high_witness :
  randomInt 2147483647 2147483647 0 31 = Some 32 /\
  randomInt 2147483647 2147483600 0 31 = Some 32 /\
  randomColor 32767 32767 = None.
Proof.
  split; [|split].
  - apply (proj1 (randomInt_can_exceed_high 2147483647 2147483647 eq_refl eq_refl)).
    reflexivity.
  - apply (proj1 (randomInt_can_exceed_high 2147483647 2147483600 eq_refl eq_refl)).
    vm_compute. reflexivity.
  - apply (proj1 (randomInt_can_exceed_high 32767 32767 eq_refl eq_refl)).
    reflexivity.
Defined.

(** ** The shapes of the earlier demo *)

Lemma appends_seq {A B : Type} (c1 : M A) (c2 : M B) (st : RenderState)
    (a1 : A) (a2 : B) (t1 t2 : list Triangle) :
  appends c1 st a1 t1 -> appends c2 st a2 t2 ->
  appends (c1 ;;; c2) st a2 (t1 ++ t2).
Proof.
  intros H1 H2 w Hw.
  destruct (H1 w Hw) as (t1' & P1 & E1).
  destruct (H2 (set_triangles (triangles w ++ t1')%list w) Hw) as (t2' & P2 & E2).
  exists (t1' ++ t2')%list. split; [apply Permutation_app; assumption|].
  unfold bind. rewrite E1, E2.
  rewrite set_triangles_twice. cbn [triangles set_triangles].
  rewrite app_assoc. reflexivity.
Qed.

Lemma Part007_addTriangle_appends (st : RenderState) (ia ib ic : Vector)
    (u1 v1 u2 v2 u3 v3 : float) :
  exists ts,
    (length ts <= 1)%nat /\ Forall (coloredWith (fillColor st)) ts /\
    appends (Part007.addTriangle ia ib ic u1 v1 u2 v2 u3 v3) st tt ts.
Proof.
  destruct (addTriangle_appends st (fillColor st) ia ib ic u1 v1 u2 v2 u3 v3)
    as (a & ts & L & C & _ & A).
  exists ts. split; [exact L|]. split; [exact C|].
  intros w Hw. destruct (A w Hw) as (ts' & P & E).
  exists ts'. split; [exact P|].
  rewrite Part007_addTriangle_same. unfold bind. rewrite Hw, E. reflexivity.
Qed.

Lemma Part007_addRectangle_appends (st : RenderState) (a b c d : Vector) :
  exists ts,
    (length ts <= 2)%nat /\ Forall (coloredWith (fillColor st)) ts /\
    appends (Part007Shapes.addRectangle a b c d) st tt ts.
Proof.
  destruct (Part007_addTriangle_appends st a b c f0 f0 f1 f0 f1 f1) as (t1 & L1 & C1 & A1).
  destruct (Part007_addTriangle_appends st d a c f0 f1 f0 f0 f1 f1) as (t2 & L2 & C2 & A2).
  exists (t1 ++ t2)%list.
  split; [rewrite length_app; lia|].
  split; [apply Forall_app; split; assumption|].
  apply appends_seq with (a1 := tt); assumption.
Qed.

(** X21.  The earlier demo's [addBox] always returns; it appends at most
    12 triangles to the back of the batch, each in the current fill
    colour, and changes nothing else in the world. *)
Theorem Part007_addBox_appends_at_most_12 (w : World) :
  exists ts,
    Part007Shapes.addBox w = Returns tt (set_triangles (triangles w ++ ts)%list w) /\
    (length ts <= 12)%nat /\
    Forall (coloredWith (fillColor (state w))) ts.
Proof.
  set (st := state w).
  set (p := fun sx sy sz : bool => corner sx sy sz f0_5).
  destruct (Part007_addRectangle_appends st (p false false false) (p true false false)
              (p true true false) (p false true false)) as (t1 & L1 & C1 & A1).
  destruct (Part007_addRectangle_appends st (p false false true) (p false true true)
              (p true true true) (p true false true)) as (t2 & L2 & C2 & A2).
  destruct (Part007_addRectangle_appends st (p false false false) (p false false true)
              (p false true true) (p false true false)) as (t3 & L3 & C3 & A3).
  destruct (Part007_addRectangle_appends st (p true false false) (p true false true)
              (p true true true) (p true true false)) as (t4 & L4 & C4 & A4).
  destruct (Part007_addRectangle_appends st (p false false false) (p false false true)
              (p true false true) (p true false false)) as (t5 & L5 & C5 & A5).
  destruct (Part007_addRectangle_appends st (p false true false) (p false true true)
              (p true true true) (p true true false)) as (t6 & L6 & C6 & A6).
  pose proof (appends_seq _ _ st tt tt _ _ A1
               (appends_seq _ _ st tt tt _ _ A2
                 (appends_seq _ _ st tt tt _ _ A3
                   (appends_seq _ _ st tt tt _ _ A4
                     (appends_seq _ _ st tt tt _ _ A5 A6))))) as A.
  destruct (A w eq_refl) as (ts & P & E).
  exists ts. split; [exact E|]. split.
  - rewrite (Permutation_length P), !length_app. lia.
  - apply Permutation_Forall with (t1 ++ t2 ++ t3 ++ t4 ++ t5 ++ t6)%list;
      [apply Permutation_sym, P|].
    repeat (apply Forall_app; split); assumption.
Qed.
